(** * Pikifen: the inter-mob interaction resolver, the activity partition,
      the per-tick mob walk and the flukeweed script

    Shallow embedding of [GameplayState::process_mob_interactions],
    [process_mob_touches], [process_mob_reaches],
    [process_mob_misc_interactions], [update_mob_is_active_flag] and the mob
    loop of [do_gameplay_logic] (gameplay logic file), and of the flukeweed
    group-task script.

    Conventions.
    - [float] values are idealised as exact rationals ([Q]); every float
      comparison of the source is the same comparison on [Q].
    - A [Mob*] is the index of the mob in [mobs.all]; a null pointer is
      [None].  A [MobState*] is the index of the state in its type's state
      list.
    - Code that lives outside the modelled files (geometry helpers, the
      script runtime behind [MobEvent::run], [Mob::tick], enum values and
      tuning constants) is collected in the class [Collaborators]. *)

From Stdlib Require Import ZArith QArith Qabs Qminmax Qround List Bool Lia Lqa.
From Stdlib Require Import Sorted Permutation Ascii String DecimalString DecimalZ.
From stdpp Require Import base list gmap strings.

(* ===================================================================== *)
(** ** Numeric helpers *)
(* ===================================================================== *)

Module Num.

Definition Qleb (a b : Q) : bool := Qle_bool a b.
Definition Qltb (a b : Q) : bool := negb (Qle_bool b a).
Definition Qeqb (a b : Q) : bool := Qeq_bool a b.

(** C++ conversion of a float to [int]: truncation toward zero.  The
    conversion is defined for the floats whose truncation is an [int]
    value ([fits_int]); for the others this number is not what the
    program computes. *)
Definition float_to_int (q : Q) : Z := Z.quot (Qnum q) (Zpos (Qden q)).

(** The values of an [int] of 32 bits. *)
Definition INT_MIN : Z := - 2 ^ 31.
Definition INT_MAX : Z := 2 ^ 31 - 1.

Definition fits_int (q : Q) : Prop :=
  (INT_MIN <= float_to_int q /\ float_to_int q <= INT_MAX)%Z.

(** [has_flag(flags, flag)] of the general utilities: all the bits of
    [flag] are set in [flags]. *)
Definition has_flag (flags flag : Z) : bool := Z.eqb (Z.land flags flag) flag.

(** Comparing by a rational key. *)
Definition lt_by {A} (key : A -> Q) (a b : A) : bool := Qltb (key a) (key b).

End Num.

Import Num.

(* ===================================================================== *)
(** ** Data model *)
(* ===================================================================== *)

Record Point := mkPoint { px : Q; py : Q }.

(** The mob categories (one per mob class of the mob utilities header). *)
Inductive MOB_CATEGORY :=
| MOB_CATEGORY_NONE | MOB_CATEGORY_PIKMIN | MOB_CATEGORY_ONIONS
| MOB_CATEGORY_LEADERS | MOB_CATEGORY_ENEMIES | MOB_CATEGORY_TREASURES
| MOB_CATEGORY_PELLETS | MOB_CATEGORY_CONVERTERS | MOB_CATEGORY_DROPS
| MOB_CATEGORY_RESOURCES | MOB_CATEGORY_PILES | MOB_CATEGORY_TOOLS
| MOB_CATEGORY_SHIPS | MOB_CATEGORY_BRIDGES | MOB_CATEGORY_GROUP_TASKS
| MOB_CATEGORY_SCALES | MOB_CATEGORY_TRACKS | MOB_CATEGORY_BOUNCERS
| MOB_CATEGORY_DECORATIONS | MOB_CATEGORY_INTERACTABLES
| MOB_CATEGORY_CUSTOM.

#[global] Instance MOB_CATEGORY_eq_dec : EqDecision MOB_CATEGORY.
Proof. solve_decision. Defined.

(** The event types the resolver looks up. *)
Inductive MOB_EV_TYPE :=
| MOB_EV_TOUCHED_OBJECT | MOB_EV_TOUCHED_OPPONENT
| MOB_EV_OBJECT_IN_REACH | MOB_EV_OPPONENT_IN_REACH
| MOB_EV_NEAR_CARRIABLE_OBJECT | MOB_EV_NEAR_TOOL | MOB_EV_NEAR_GROUP_TASK
| MOB_EV_TOUCHED_ACTIVE_LEADER
| MOB_EV_HITBOX_TOUCH_A_N | MOB_EV_HITBOX_TOUCH_N_A | MOB_EV_HITBOX_TOUCH_N_N
| MOB_EV_HITBOX_TOUCH_EAT | MOB_EV_TOUCHED_HAZARD.

#[global] Instance MOB_EV_TYPE_eq_dec : EqDecision MOB_EV_TYPE.
Proof. solve_decision. Defined.

Inductive HITBOX_TYPE :=
| HITBOX_TYPE_NORMAL | HITBOX_TYPE_ATTACK | HITBOX_TYPE_DISABLED.

#[global] Instance HITBOX_TYPE_eq_dec : EqDecision HITBOX_TYPE.
Proof. solve_decision. Defined.

Record Hitbox := mkHitbox {
  h_type : HITBOX_TYPE;
  h_pos : Point;
  h_z : Q;
  h_height : Q;
  h_radius : Q;
  h_hazards : list nat;
  h_body_part_idx : nat
}.

Record Sprite := mkSprite { hitboxes : list Hitbox }.

(** A state of a mob type: its id and the event types it has handlers
    for. *)
Record MobState := mkMobState {
  state_id : Z;
  state_events : list MOB_EV_TYPE
}.

Record Reach := mkReach {
  reach_angle_1 : Q; reach_radius_1 : Q;
  reach_angle_2 : Q; reach_radius_2 : Q
}.

Record MobType := mkMobType {
  category_id : MOB_CATEGORY;
  inactive_logic : Z;
  pushable : bool;
  pushes : bool;
  pushes_with_hitboxes : bool;
  pushes_softly : bool;
  states : list MobState;
  reaches : list Reach
}.

Record CarryInfo := mkCarryInfo {
  carry_n_spots : nat;
  cur_n_carriers : nat;
  is_moving : bool
}.

Record HoldInfo := mkHoldInfo {
  holder_m : option nat;
  holder_hitbox_idx : nat
}.

Record StatusInst := mkStatus { disables_attack : bool }.

(** The dynamic class of a mob, as the resolver's [typeid] tests see it,
    with the members of the derived class it reads. *)
Inductive MobClass :=
| ClassTool (reserved : option nat)
| ClassGroupTask (has_free_spot : bool)
| ClassOther.

Record Mob := mkMob {
  mob_type : MobType;
  mob_class : MobClass;
  fsm_cur_state : nat;
  pos : Point;
  z : Q;
  height : Q;
  radius : Q;
  rectangular_dim : Point;
  angle : Q;
  angle_cos : Q;
  angle_sin : Q;
  flags : Z;
  time_alive : Q;
  is_active : bool;
  to_delete : bool;
  stored_inside_another : option nat;
  interaction_span : Q;
  physical_span : Q;
  health : Q;
  near_reach : option nat;
  has_invisibility_status : bool;
  push_amount : Q;
  push_angle : Q;
  carry_info : option CarryInfo;
  standing_on_mob : option nat;
  parent_m : option nat;
  cur_sprite : option Sprite;
  holder : HoldInfo;
  statuses : list StatusInst;
  chomping_mobs : list nat;
  chomp_max : nat;
  chomp_body_parts : list nat
}.

(** [m_ptr->push_amount = a; m_ptr->push_angle = g;] *)
Definition set_push (m : Mob) (a g : Q) : Mob :=
  mkMob (mob_type m) (mob_class m) (fsm_cur_state m) (pos m) (z m) (height m)
    (radius m) (rectangular_dim m) (angle m) (angle_cos m) (angle_sin m)
    (flags m) (time_alive m) (is_active m) (to_delete m)
    (stored_inside_another m) (interaction_span m) (physical_span m)
    (health m) (near_reach m) (has_invisibility_status m) a g
    (carry_info m) (standing_on_mob m) (parent_m m) (cur_sprite m) (holder m)
    (statuses m) (chomping_mobs m) (chomp_max m) (chomp_body_parts m).

(** [m_ptr->is_active = b;] *)
Definition set_is_active (m : Mob) (b : bool) : Mob :=
  mkMob (mob_type m) (mob_class m) (fsm_cur_state m) (pos m) (z m) (height m)
    (radius m) (rectangular_dim m) (angle m) (angle_cos m) (angle_sin m)
    (flags m) (time_alive m) b (to_delete m)
    (stored_inside_another m) (interaction_span m) (physical_span m)
    (health m) (near_reach m) (has_invisibility_status m) (push_amount m)
    (push_angle m) (carry_info m) (standing_on_mob m) (parent_m m)
    (cur_sprite m) (holder m) (statuses m) (chomping_mobs m) (chomp_max m)
    (chomp_body_parts m).

(** [m_ptr->fsm.cur_state = st;] *)
Definition set_cur_state (m : Mob) (st : nat) : Mob :=
  mkMob (mob_type m) (mob_class m) st (pos m) (z m) (height m)
    (radius m) (rectangular_dim m) (angle m) (angle_cos m) (angle_sin m)
    (flags m) (time_alive m) (is_active m) (to_delete m)
    (stored_inside_another m) (interaction_span m) (physical_span m)
    (health m) (near_reach m) (has_invisibility_status m) (push_amount m)
    (push_angle m) (carry_info m) (standing_on_mob m) (parent_m m)
    (cur_sprite m) (holder m) (statuses m) (chomping_mobs m) (chomp_max m)
    (chomp_body_parts m).

(** [m_ptr->to_delete = b;] *)
Definition set_to_delete (m : Mob) (b : bool) : Mob :=
  mkMob (mob_type m) (mob_class m) (fsm_cur_state m) (pos m) (z m) (height m)
    (radius m) (rectangular_dim m) (angle m) (angle_cos m) (angle_sin m)
    (flags m) (time_alive m) (is_active m) b
    (stored_inside_another m) (interaction_span m) (physical_span m)
    (health m) (near_reach m) (has_invisibility_status m) (push_amount m)
    (push_angle m) (carry_info m) (standing_on_mob m) (parent_m m)
    (cur_sprite m) (holder m) (statuses m) (chomping_mobs m) (chomp_max m)
    (chomp_body_parts m).

(** [m_ptr->is_stored_inside_mob()] *)
Definition is_stored_inside_mob (m : Mob) : bool :=
  bool_decide (is_Some (stored_inside_another m)).

(** A [MobEvent*]: the handler of one event type in one state. *)
Record MobEvent := mkMobEvent {
  ev_state : nat;
  ev_type : MOB_EV_TYPE
}.

(** [m_ptr->fsm.get_event(t)]: the handler of the current state for [t], or
    null. *)
Definition get_event (m : Mob) (t : MOB_EV_TYPE) : option MobEvent :=
  match states (mob_type m) !! fsm_cur_state m with
  | Some s =>
      if bool_decide (t ∈ state_events s)
      then Some (mkMobEvent (fsm_cur_state m) t) else None
  | None => None
  end.

(** [m_ptr->fsm.cur_state->id] *)
Definition cur_state_id (m : Mob) : option Z :=
  state_id <$> states (mob_type m) !! fsm_cur_state m.

(** The part of the gameplay state the modelled functions read or write. *)
Record GameplayState := mkGameplay {
  mobs_all : list Mob;
  mobs_pikmin_list : list nat;
  mobs_leaders : list nat;
  cur_leader_ptr : option nat;
  delta_t : Q;
  area_active_cells : list (list bool);
  bmap_top_left_corner : Point;
  cam_box : Point * Point
}.

Definition set_mobs (gs : GameplayState) (l : list Mob) : GameplayState :=
  mkGameplay l (mobs_pikmin_list gs) (mobs_leaders gs) (cur_leader_ptr gs)
    (delta_t gs) (area_active_cells gs) (bmap_top_left_corner gs)
    (cam_box gs).

(** [area_active_cells = cells;] *)
Definition set_cells (gs : GameplayState) (cells : list (list bool))
  : GameplayState :=
  mkGameplay (mobs_all gs) (mobs_pikmin_list gs) (mobs_leaders gs)
    (cur_leader_ptr gs) (delta_t gs) cells (bmap_top_left_corner gs)
    (cam_box gs).

(** Writing through the pointer [mobs.all[i]]. *)
Definition write_mob (gs : GameplayState) (i : nat) (m' : Mob)
  : GameplayState :=
  set_mobs gs (<[i := m']> (mobs_all gs)).

(** What [MobEvent::run] receives besides the mob. *)
Inductive Payload :=
| PayloadMob (m2 : nat)
| PayloadHitboxes (m2 : nat) (h1 h2 : nat)
| PayloadEat (m2 : nat) (h2 : nat)
| PayloadHazard (hazard : nat) (m2 : nat) (h1 h2 : nat).

(** One call of [MobEvent::run] made by the resolver. *)
Record Raised := mkRaised {
  r_event : MobEvent;
  r_mob : nat;
  r_payload : Payload
}.

(** A queued reach or proximity event. *)
Record PendingIntermobEvent := mkPending {
  pe_d : Q;
  pe_event_ptr : option MobEvent;
  pe_mob_ptr : nat
}.

(* ===================================================================== *)
(** ** External collaborators *)
(* ===================================================================== *)

(** Everything the modelled functions call or read that is defined in
    other files of the engine: geometry utilities, [Mob] member functions,
    enum values, tuning constants, and the script runtime.  The resolver is
    verified for every implementation of this interface. *)
Class Collaborators := {
  (** [Distance(p1, p2)], read as a number. *)
  dist : Point -> Point -> Q;
  get_angle : Point -> Point -> Q;
  get_angle_smallest_dif : Q -> Q -> Q;
  (** Collision verdict, overlap distance and push angle (the last two are
      the optional out-parameters). *)
  rectangles_intersect :
    Point -> Point -> Q -> Point -> Point -> Q -> bool * Q * Q;
  circle_intersects_rectangle :
    Point -> Q -> Point -> Point -> Q -> bool * Q * Q;
  TAU : Q;
  (** [m_ptr->get_distance_between(m2_ptr, &d)] *)
  get_distance_between : Mob -> Mob -> Q -> Q;
  can_hunt : Mob -> Mob -> bool;
  can_hurt : Mob -> Mob -> bool;
  is_resistant_to_hazards : Mob -> list nat -> bool;
  is_mob_in_reach : Reach -> Q -> Q -> bool;
  task_range : Mob -> Q;
  carry_is_full : CarryInfo -> bool;
  MOB_FLAG_INTANGIBLE : Z;
  MOB_FLAG_UNPUSHABLE : Z;
  INACTIVE_LOGIC_FLAG_TICKS : Z;
  INACTIVE_LOGIC_FLAG_INTERACTIONS : Z;
  PUSH_SOFTLY_AMOUNT : Q;
  PUSH_THROTTLE_TIMEOUT : Q;
  PUSH_THROTTLE_FACTOR : Q;
  PIKMIN_STATE_IDLING : Z;
  PIKMIN_STATE_IDLING_H : Z;
  LEADER_STATE_ACTIVE : Z;
  idle_bump_range : Q;
  AREA_CELL_SIZE : Q;
  (** [ev->run(m_ptr, info...)]: the script runtime executing a handler. *)
  run_event : MobEvent -> nat -> Payload -> GameplayState -> GameplayState;
  (** [m_ptr->tick(delta_t)] *)
  mob_tick : nat -> Q -> GameplayState -> GameplayState
}.

(* ===================================================================== *)
(** ** The interaction resolver *)
(* ===================================================================== *)

Module Resolver.
Section WithCollaborators.
Context `{C : Collaborators}.

Local Open Scope Q_scope.

(** Gameplay state and the log of handler calls made so far. *)
Definition RS : Type := GameplayState * list Raised.

(** [ev->run(m_ptr, payload)] *)
Definition raise (ev : MobEvent) (m : nat) (p : Payload) (s : RS) : RS :=
  (run_event ev m p (fst s), snd s ++ [mkRaised ev m p]).

Definition is_in_state (m : Mob) (id : Z) : bool :=
  bool_decide (cur_state_id m = Some id).

Definition is_rectangular (m : Mob) : bool :=
  negb (Qeqb (px (rectangular_dim m)) 0).

(** *** [process_mob_touches]: the push *)

Definition both_idle_pikmin (mp m2p : Mob) : bool :=
  bool_decide (category_id (mob_type mp) = MOB_CATEGORY_PIKMIN) &&
  bool_decide (category_id (mob_type m2p) = MOB_CATEGORY_PIKMIN) &&
  (is_in_state mp PIKMIN_STATE_IDLING ||
   is_in_state mp PIKMIN_STATE_IDLING_H) &&
  (is_in_state m2p PIKMIN_STATE_IDLING ||
   is_in_state m2p PIKMIN_STATE_IDLING_H).

Definition ok_to_push (mp m2p : Mob) (m2 : nat) : bool :=
  if has_flag (flags mp) MOB_FLAG_INTANGIBLE ||
     has_flag (flags m2p) MOB_FLAG_INTANGIBLE
  then false
  else if negb (pushable (mob_type mp)) then false
  else if has_flag (flags mp) MOB_FLAG_UNPUSHABLE then false
  else if bool_decide (standing_on_mob mp = Some m2) then false
  else true.

Definition carried_moving (m : Mob) : bool :=
  match carry_info m with
  | Some ci => is_moving ci
  | None => false
  end.

(** The condition of the [if] that guards the push computation. *)
Definition push_gate (mp m2p : Mob) (m m2 : nat) : bool :=
  ok_to_push mp m2p m2 &&
  (pushes (mob_type m2p) || both_idle_pikmin mp m2p) &&
  ((Qltb (z m2p) (z mp + height mp) && Qltb (z mp) (z m2p + height m2p))
   || Qeqb (height mp) 0 || Qeqb (height m2p) 0) &&
  negb (carried_moving mp && carried_moving m2p && (m <? m2)%nat).

(** Position of a hitbox of [m2p] in the world. *)
Definition hitbox_world_pos (m2p : Mob) (h : Hitbox) : Point :=
  mkPoint
    (px (pos m2p) +
     (px (h_pos h) * angle_cos m2p - py (h_pos h) * angle_sin m2p))
    (py (pos m2p) +
     (px (h_pos h) * angle_sin m2p + py (h_pos h) * angle_cos m2p)).

(** One iteration of the loop over the hitboxes of [m2]; the accumulator is
    [(push_amount, push_angle)]. *)
Definition hitbox_push_step (mp m2p : Mob) (acc : Q * Q) (h : Hitbox)
  : Q * Q :=
  if bool_decide (h_type h = HITBOX_TYPE_DISABLED) then acc
  else
    let hp := hitbox_world_pos m2p h in
    let hd := dist (pos mp) hp in
    if Qltb hd (radius mp + h_radius h) then
      let p := Qabs (hd - radius mp - h_radius h) in
      if Qeqb (fst acc) 0 || Qltb (fst acc) p
      then (p, get_angle hp (pos mp))
      else acc
    else acc.

(** The loop over the hitboxes of [m2].  The source reads
    [s2_ptr->hitboxes] without testing the pointer that [get_sprite_data]
    gave; for an [m2] without sprite data the call has no defined result
    (see [reads_null_sprite] and [process_mob_touches_run]), and the value
    given here for that case is not the result of any call that
    returns. *)
Definition hitbox_push (mp m2p : Mob) : Q * Q :=
  match cur_sprite m2p with
  | Some s2 => fold_left (hitbox_push_step mp m2p) (hitboxes s2) (0, 0)
  | None => (0, 0)
  end.

(** Whole-body collision of the push branch: verdict, [temp_push_amount],
    [temp_push_angle]. *)
Definition body_collision (mp m2p : Mob) (d : Q) : bool * Q * Q :=
  if is_rectangular mp && is_rectangular m2p then
    rectangles_intersect
      (pos mp) (rectangular_dim mp) (angle mp)
      (pos m2p) (rectangular_dim m2p) (angle m2p)
  else if is_rectangular mp then
    let '(c, a, g) :=
      circle_intersects_rectangle
        (pos m2p) (radius m2p) (pos mp) (rectangular_dim mp) (angle mp) in
    (c, a, g + TAU / 2)
  else if is_rectangular m2p then
    circle_intersects_rectangle
      (pos mp) (radius mp) (pos m2p) (rectangular_dim m2p) (angle m2p)
  else if Qleb d (radius mp + radius m2p) then
    (true, Qabs (d - radius mp - radius m2p), get_angle (pos m2p) (pos mp))
  else (false, 0, 0).

Definition index_jitter (m m2 : nat) : Q := if (m2 <? m)%nat then 1 else 0.

Definition body_push (mp m2p : Mob) (m m2 : nat) (d dt : Q) : Q * Q :=
  let '(xy_collision, temp_push_amount, temp_push_angle) :=
    body_collision mp m2p d in
  if xy_collision then
    let amount :=
      if pushes_softly (mob_type m2p)
      then Qmin temp_push_amount (PUSH_SOFTLY_AMOUNT * dt)
      else temp_push_amount in
    if both_idle_pikmin mp m2p then
      (1 # 10, temp_push_angle + (1 # 10) * index_jitter m m2)
    else if Qltb (time_alive mp) PUSH_THROTTLE_TIMEOUT ||
            Qltb (time_alive m2p) PUSH_THROTTLE_TIMEOUT then
      (amount *
       (Qmin (time_alive mp) (time_alive m2p) / PUSH_THROTTLE_TIMEOUT *
        PUSH_THROTTLE_FACTOR),
       temp_push_angle)
    else (amount, temp_push_angle)
  else (0, 0).

(** The locals [push_amount] and [push_angle] when the guarded block is
    done. *)
Definition compute_push (mp m2p : Mob) (m m2 : nat) (d dt : Q) : Q * Q :=
  if pushes_with_hitboxes (mob_type m2p)
  then hitbox_push mp m2p
  else body_push mp m2p m m2 d dt.

(** The whole push section: the new value of [*m_ptr]. *)
Definition push_section (mp m2p : Mob) (m m2 : nat) (d dt : Q) : Mob :=
  if push_gate mp m2p m m2 then
    let '(amount, ang) := compute_push mp m2p m m2 d dt in
    if Qltb (push_amount mp) (amount / dt)
    then set_push mp (amount / dt) ang
    else mp
  else mp.

(** The push computation is entered for a pusher that pushes with its
    hitboxes and has no sprite data: the null pointer is dereferenced. *)
Definition reads_null_sprite (mp m2p : Mob) (m m2 : nat) : bool :=
  push_gate mp m2p m m2 && pushes_with_hitboxes (mob_type m2p) &&
  negb (bool_decide (is_Some (cur_sprite m2p))).

(** *** [process_mob_touches]: the touch events *)

Definition z_touch (mp m2p : Mob) : bool :=
  if Qeqb (height mp) 0 || Qeqb (height m2p) 0 then true
  else negb (Qltb (z mp + height mp) (z m2p) ||
             Qltb (z m2p + height m2p) (z mp)).

Definition xy_collision (mp m2p : Mob) (d : Q) : bool :=
  if is_rectangular mp && is_rectangular m2p then
    fst (fst (rectangles_intersect
      (pos mp) (rectangular_dim mp) (angle mp)
      (pos m2p) (rectangular_dim m2p) (angle m2p)))
  else if is_rectangular mp then
    fst (fst (circle_intersects_rectangle
      (pos m2p) (radius m2p) (pos mp) (rectangular_dim mp) (angle mp)))
  else if is_rectangular m2p then
    fst (fst (circle_intersects_rectangle
      (pos mp) (radius mp) (pos m2p) (rectangular_dim m2p) (angle m2p)))
  else Qleb d (radius mp + radius m2p).

Definition is_intangible (m : Mob) : bool :=
  has_flag (flags m) MOB_FLAG_INTANGIBLE.

(** [m_ptr->can_hunt(m2_ptr)] on the mobs as they are in [gs]. *)
Definition can_hunt_now (gs : GameplayState) (m m2 : nat) : bool :=
  match mobs_all gs !! m, mobs_all gs !! m2 with
  | Some mp, Some m2p => can_hunt mp m2p
  | _, _ => false
  end.

Definition touch_section (m m2 : nat) (d : Q) (s : RS) : RS :=
  match mobs_all (fst s) !! m, mobs_all (fst s) !! m2 with
  | Some mp, Some m2p =>
      let touch_op_ev := get_event mp MOB_EV_TOUCHED_OPPONENT in
      let touch_ob_ev := get_event mp MOB_EV_TOUCHED_OBJECT in
      if bool_decide (is_Some touch_op_ev) ||
         bool_decide (is_Some touch_ob_ev) then
        if z_touch mp m2p && negb (is_intangible m2p) && xy_collision mp m2p d
        then
          let s1 :=
            match touch_ob_ev with
            | Some ev => raise ev m (PayloadMob m2) s
            | None => s
            end in
          match touch_op_ev with
          | Some ev =>
              if can_hunt_now (fst s1) m m2
              then raise ev m (PayloadMob m2) s1 else s1
          | None => s1
          end
        else s
      else s
  | _, _ => s
  end.

(** *** [process_mob_touches]: the hitbox events *)

(** The locals of the hitbox loops: the state, the five handler pointers
    (re-fetched after a handler ran) and the five [reported_*] flags. *)
Record HitboxLoop := mkHitboxLoop {
  hl_rs : RS;
  hl_an_ev : option MobEvent;
  hl_na_ev : option MobEvent;
  hl_nn_ev : option MobEvent;
  hl_eat_ev : option MobEvent;
  hl_haz_ev : option MobEvent;
  hl_reported_an : bool;
  hl_reported_na : bool;
  hl_reported_nn : bool;
  hl_reported_eat : bool;
  hl_reported_haz : bool
}.

(** [m_ptr->fsm.get_event(t)] on the mob as it is in [gs]. *)
Definition get_event_now (gs : GameplayState) (m : nat) (t : MOB_EV_TYPE)
  : option MobEvent :=
  match mobs_all gs !! m with
  | Some mp => get_event mp t
  | None => None
  end.

Definition held_by_hitbox (a : Mob) (other h : nat) : bool :=
  bool_decide (holder_m (holder a) = Some other) &&
  (holder_hitbox_idx (holder a) =? h)%nat.

Definition hitboxes_collide (mp m2p : Mob) (m m2 h1 h2 : nat)
    (h1p h2p : Hitbox) : bool :=
  if held_by_hitbox mp m2 h2 || held_by_hitbox m2p m h1 then true
  else
    let m1_h_z := z mp + h_z h1p in
    let m2_h_z := z m2p + h_z h2p in
    let z_collision :=
      if Qeqb (h_height h1p) 0 || Qeqb (h_height h2p) 0 then true
      else negb (Qltb (m1_h_z + h_height h1p) m2_h_z ||
                 Qltb (m2_h_z + h_height h2p) m1_h_z) in
    z_collision &&
    Qltb (dist (hitbox_world_pos mp h1p) (hitbox_world_pos m2p h2p))
         (h_radius h1p + h_radius h2p).

Definition is_normal (h : Hitbox) : bool :=
  bool_decide (h_type h = HITBOX_TYPE_NORMAL).
Definition is_attack (h : Hitbox) : bool :=
  bool_decide (h_type h = HITBOX_TYPE_ATTACK).

(** The attack-on-normal block. *)
Definition hitbox_an_block (m m2 h1 h2 : nat) (h1p h2p : Hitbox)
    (st : HitboxLoop) : HitboxLoop :=
  match hl_an_ev st with
  | Some ev =>
      if negb (hl_reported_an st) && is_attack h1p && is_normal h2p then
        let rs := raise ev m (PayloadHitboxes m2 h1 h2) (hl_rs st) in
        mkHitboxLoop rs (hl_an_ev st)
          (get_event_now (fst rs) m MOB_EV_HITBOX_TOUCH_N_A)
          (get_event_now (fst rs) m MOB_EV_HITBOX_TOUCH_N_N)
          (get_event_now (fst rs) m MOB_EV_HITBOX_TOUCH_EAT)
          (get_event_now (fst rs) m MOB_EV_TOUCHED_HAZARD)
          true (hl_reported_na st) (hl_reported_nn st)
          (hl_reported_eat st) (hl_reported_haz st)
      else st
  | None => st
  end.

(** The normal-on-normal block. *)
Definition hitbox_nn_block (m m2 h1 h2 : nat) (h1p h2p : Hitbox)
    (st : HitboxLoop) : HitboxLoop :=
  match hl_nn_ev st with
  | Some ev =>
      if negb (hl_reported_nn st) && is_normal h1p && is_normal h2p then
        let rs := raise ev m (PayloadHitboxes m2 h1 h2) (hl_rs st) in
        mkHitboxLoop rs
          (get_event_now (fst rs) m MOB_EV_HITBOX_TOUCH_A_N)
          (get_event_now (fst rs) m MOB_EV_HITBOX_TOUCH_N_A)
          (hl_nn_ev st)
          (get_event_now (fst rs) m MOB_EV_HITBOX_TOUCH_EAT)
          (get_event_now (fst rs) m MOB_EV_TOUCHED_HAZARD)
          (hl_reported_an st) (hl_reported_na st) true
          (hl_reported_eat st) (hl_reported_haz st)
      else st
  | None => st
  end.

(** The eat block. *)
Definition hitbox_eat_block (m m2 h2 : nat) (h1p h2p : Hitbox)
    (disable_attack_status : bool) (m2p : Mob) (st : HitboxLoop)
  : HitboxLoop :=
  match hl_eat_ev st with
  | Some ev =>
      if negb (hl_reported_eat st) && negb disable_attack_status &&
         is_normal h1p &&
         (length (chomping_mobs m2p) <? chomp_max m2p)%nat &&
         bool_decide (h_body_part_idx h2p ∈ chomp_body_parts m2p)
      then
        let rs := raise ev m (PayloadEat m2 h2) (hl_rs st) in
        mkHitboxLoop rs (hl_an_ev st)
          (get_event_now (fst rs) m MOB_EV_HITBOX_TOUCH_N_A)
          (hl_nn_ev st) (hl_eat_ev st)
          (get_event_now (fst rs) m MOB_EV_TOUCHED_HAZARD)
          (hl_reported_an st) (hl_reported_na st) (hl_reported_nn st)
          true (hl_reported_haz st)
      else st
  | None => st
  end.

(** The hazard block: one handler call per hazard of the attack hitbox. *)
Definition hitbox_haz_block (m m2 h1 h2 : nat) (h1p h2p : Hitbox)
    (disable_attack_status : bool) (st : HitboxLoop) : HitboxLoop :=
  match hl_haz_ev st with
  | Some ev =>
      if negb (hl_reported_haz st) && negb disable_attack_status &&
         is_normal h1p && is_attack h2p &&
         negb (bool_decide (h_hazards h2p = []))
      then
        let rs :=
          fold_left
            (fun acc hz => raise ev m (PayloadHazard hz m2 h1 h2) acc)
            (h_hazards h2p) (hl_rs st) in
        mkHitboxLoop rs (hl_an_ev st)
          (get_event_now (fst rs) m MOB_EV_HITBOX_TOUCH_N_A)
          (hl_nn_ev st) (hl_eat_ev st) (hl_haz_ev st)
          (hl_reported_an st) (hl_reported_na st) (hl_reported_nn st)
          (hl_reported_eat st) true
      else st
  | None => st
  end.

(** The normal-on-attack block. *)
Definition hitbox_na_block (m m2 h1 h2 : nat) (h1p h2p : Hitbox)
    (disable_attack_status : bool) (st : HitboxLoop) : HitboxLoop :=
  match hl_na_ev st with
  | Some ev =>
      if negb (hl_reported_na st) && negb disable_attack_status &&
         is_normal h1p && is_attack h2p
      then
        let rs := raise ev m (PayloadHitboxes m2 h1 h2) (hl_rs st) in
        mkHitboxLoop rs (hl_an_ev st) (hl_na_ev st) (hl_nn_ev st)
          (hl_eat_ev st) (hl_haz_ev st)
          (hl_reported_an st) true (hl_reported_nn st)
          (hl_reported_eat st) (hl_reported_haz st)
      else st
  | None => st
  end.

(** What follows the two first blocks, on the mobs as the handlers left
    them. *)
Definition hitbox_damage_blocks (m m2 h1 h2 : nat) (h1p h2p : Hitbox)
    (st : HitboxLoop) : HitboxLoop :=
  match mobs_all (fst (hl_rs st)) !! m, mobs_all (fst (hl_rs st)) !! m2 with
  | Some mp, Some m2p =>
      if is_normal h1p && is_attack h2p &&
         ((negb (bool_decide (h_hazards h2p = [])) &&
           is_resistant_to_hazards mp (h_hazards h2p))
          || negb (can_hurt m2p mp))
      then st
      else
        let disable_attack_status := existsb disables_attack (statuses m2p) in
        let st1 := hitbox_eat_block m m2 h2 h1p h2p disable_attack_status m2p st in
        let st2 := hitbox_haz_block m m2 h1 h2 h1p h2p disable_attack_status st1 in
        hitbox_na_block m m2 h1 h2 h1p h2p disable_attack_status st2
  | _, _ => st
  end.

(** The body of the inner loop, for the hitbox [h2] of [m2]. *)
Definition hitbox_inner_step (m m2 h1 : nat) (h1p : Hitbox)
    (st : HitboxLoop) (h2e : nat * Hitbox) : HitboxLoop :=
  let '(h2, h2p) := h2e in
  if bool_decide (h_type h2p = HITBOX_TYPE_DISABLED) then st
  else
    match mobs_all (fst (hl_rs st)) !! m, mobs_all (fst (hl_rs st)) !! m2 with
    | Some mp, Some m2p =>
        if hitboxes_collide mp m2p m m2 h1 h2 h1p h2p then
          let st1 := hitbox_an_block m m2 h1 h2 h1p h2p st in
          let st2 := hitbox_nn_block m m2 h1 h2 h1p h2p st1 in
          hitbox_damage_blocks m m2 h1 h2 h1p h2p st2
        else st
    | _, _ => st
    end.

(** The body of the outer loop, for the hitbox [h1] of [m]. *)
Definition hitbox_outer_step (m m2 : nat) (s2 : Sprite)
    (st : HitboxLoop) (h1e : nat * Hitbox) : HitboxLoop :=
  let '(h1, h1p) := h1e in
  if bool_decide (h_type h1p = HITBOX_TYPE_DISABLED) then st
  else fold_left (hitbox_inner_step m m2 h1 h1p) (imap pair (hitboxes s2)) st.

Definition hitbox_section (m m2 : nat) (s : RS) : RS :=
  match mobs_all (fst s) !! m, mobs_all (fst s) !! m2 with
  | Some mp, Some m2p =>
      let an := get_event mp MOB_EV_HITBOX_TOUCH_A_N in
      let na := get_event mp MOB_EV_HITBOX_TOUCH_N_A in
      let nn := get_event mp MOB_EV_HITBOX_TOUCH_N_N in
      let eat := get_event mp MOB_EV_HITBOX_TOUCH_EAT in
      let haz := get_event mp MOB_EV_TOUCHED_HAZARD in
      match cur_sprite mp, cur_sprite m2p with
      | Some s1, Some s2 =>
          if (bool_decide (is_Some an) || bool_decide (is_Some na) ||
              bool_decide (is_Some nn) || bool_decide (is_Some eat)) &&
             negb (bool_decide (hitboxes s1 = [])) &&
             negb (bool_decide (hitboxes s2 = []))
          then
            hl_rs
              (fold_left (hitbox_outer_step m m2 s2)
                 (imap pair (hitboxes s1))
                 (mkHitboxLoop s an na nn eat haz
                    false false false false false))
          else s
      | _, _ => s
      end
  | _, _ => s
  end.

(** *** [process_mob_touches] *)

Definition process_mob_touches (m m2 : nat) (d : Q) (s : RS) : RS :=
  match mobs_all (fst s) !! m, mobs_all (fst s) !! m2 with
  | Some mp, Some m2p =>
      let gs1 :=
        write_mob (fst s) m (push_section mp m2p m m2 d (delta_t (fst s))) in
      hitbox_section m m2 (touch_section m m2 d (gs1, snd s))
  | _, _ => s
  end.

(** [process_mob_touches] as a call that may not return: there is no
    result when the push computation dereferences a null sprite pointer
    (or when an index does not name a mob). *)
Definition process_mob_touches_run (m m2 : nat) (d : Q) (s : RS)
  : option RS :=
  match mobs_all (fst s) !! m, mobs_all (fst s) !! m2 with
  | Some mp, Some m2p =>
      if reads_null_sprite mp m2p m m2 then None
      else Some (process_mob_touches m m2 d s)
  | _, _ => None
  end.

(** *** [process_mob_reaches] *)

Definition process_mob_reaches (mp m2p : Mob) (m2 : nat) (d_between : Q)
    (pending : list PendingIntermobEvent) : list PendingIntermobEvent :=
  let obir_ev := get_event mp MOB_EV_OBJECT_IN_REACH in
  let opir_ev := get_event mp MOB_EV_OPPONENT_IN_REACH in
  if negb (bool_decide (is_Some obir_ev)) &&
     negb (bool_decide (is_Some opir_ev)) then pending
  else
    match near_reach mp ≫= (fun i => reaches (mob_type mp) !! i) with
    | Some r =>
        let angle_diff :=
          get_angle_smallest_dif (angle mp) (get_angle (pos mp) (pos m2p)) in
        if is_mob_in_reach r d_between angle_diff then
          let p1 :=
            if bool_decide (is_Some obir_ev)
            then pending ++ [mkPending d_between obir_ev m2] else pending in
          if bool_decide (is_Some opir_ev) && can_hunt mp m2p
          then p1 ++ [mkPending d_between opir_ev m2] else p1
        else pending
    | None => pending
    end.

(** *** [process_mob_misc_interactions] *)

Definition near_carriable (mp m2p : Mob) (m2 : nat) (d_between : Q)
    (pending : list PendingIntermobEvent) : list PendingIntermobEvent :=
  match get_event mp MOB_EV_NEAR_CARRIABLE_OBJECT, carry_info m2p with
  | Some ev, Some ci =>
      if negb (carry_is_full ci) && Qleb d_between (task_range mp)
      then pending ++ [mkPending d_between (Some ev) m2] else pending
  | _, _ => pending
  end.

Definition near_tool (mp m2p : Mob) (m m2 : nat) (d_between : Q)
    (pending : list PendingIntermobEvent) : list PendingIntermobEvent :=
  match get_event mp MOB_EV_NEAR_TOOL, mob_class m2p with
  | Some ev, ClassTool reserved =>
      if Qleb d_between (task_range mp) then
        match reserved with
        | Some r =>
            if bool_decide (r = m)
            then pending ++ [mkPending d_between (Some ev) m2] else pending
        | None => pending ++ [mkPending d_between (Some ev) m2]
        end
      else pending
  | _, _ => pending
  end.

Definition near_group_task (mp m2p : Mob) (m2 : nat) (d_between : Q)
    (pending : list PendingIntermobEvent) : list PendingIntermobEvent :=
  match get_event mp MOB_EV_NEAR_GROUP_TASK, mob_class m2p with
  | Some ev, ClassGroupTask free_spot =>
      if Qltb 0 (health m2p) && Qleb d_between (task_range mp) && free_spot
      then pending ++ [mkPending d_between (Some ev) m2] else pending
  | _, _ => pending
  end.

Definition touched_active_leader (gs : GameplayState) (mp m2p : Mob)
    (m2 : nat) (d d_between : Q) (pending : list PendingIntermobEvent)
  : list PendingIntermobEvent :=
  match get_event mp MOB_EV_TOUCHED_ACTIVE_LEADER with
  | Some ev =>
      if bool_decide (cur_leader_ptr gs = Some m2) &&
         is_in_state m2p LEADER_STATE_ACTIVE &&
         Qleb d idle_bump_range
      then pending ++ [mkPending d_between (Some ev) m2] else pending
  | None => pending
  end.

Definition process_mob_misc_interactions (gs : GameplayState)
    (mp m2p : Mob) (m m2 : nat) (d d_between : Q)
    (pending : list PendingIntermobEvent) : list PendingIntermobEvent :=
  touched_active_leader gs mp m2p m2 d d_between
    (near_group_task mp m2p m2 d_between
       (near_tool mp m2p m m2 d_between
          (near_carriable mp m2p m2 d_between pending))).

(** *** [process_mob_interactions] *)

(** The activity test on the candidate [m2]. *)
Definition candidate_culled (mp m2p : Mob) : bool :=
  negb (has_flag (inactive_logic (mob_type m2p))
          INACTIVE_LOGIC_FLAG_INTERACTIONS) &&
  negb (is_active m2p) &&
  Qltb (1 # 10) (time_alive mp).

(** The broad-phase test. *)
Definition too_far (mp m2p : Mob) (d_between : Q) : bool :=
  Qltb (interaction_span mp + physical_span m2p) d_between.

(** Every [continue] at the top of the loop over the candidates. *)
Definition pair_skipped (mp m2p : Mob) (m m2 : nat) : bool :=
  (m =? m2)%nat ||
  candidate_culled mp m2p ||
  to_delete m2p ||
  is_stored_inside_mob m2p ||
  too_far mp m2p (get_distance_between mp m2p (dist (pos mp) (pos m2p))).

(** The locals of the loop over the candidates: state, log and queue. *)
Definition Collect : Type := RS * list PendingIntermobEvent.

(** The reach and miscellaneous checks, on the mobs as the touch handlers
    left them. *)
Definition queue_section (m m2 : nat) (d d_between : Q) (c : Collect)
  : Collect :=
  match mobs_all (fst (fst c)) !! m, mobs_all (fst (fst c)) !! m2 with
  | Some mp, Some m2p =>
      let p1 :=
        if negb (Qeqb (health m2p) 0) &&
           bool_decide (is_Some (near_reach mp)) &&
           negb (has_invisibility_status m2p)
        then process_mob_reaches mp m2p m2 d_between (snd c)
        else snd c in
      (fst c,
       process_mob_misc_interactions (fst (fst c)) mp m2p m m2 d d_between p1)
  | _, _ => c
  end.

(** The body of the loop over the candidates. *)
Definition pair_step (m : nat) (c : Collect) (m2 : nat) : Collect :=
  match mobs_all (fst (fst c)) !! m, mobs_all (fst (fst c)) !! m2 with
  | Some mp, Some m2p =>
      if pair_skipped mp m2p m m2 then c
      else
        let d := dist (pos mp) (pos m2p) in
        let d_between := get_distance_between mp m2p d in
        let rs1 :=
          if Qleb d (physical_span mp + physical_span m2p)
          then process_mob_touches m m2 d (fst c) else fst c in
        queue_section m m2 d d_between (rs1, snd c)
  | _, _ => c
  end.

(** The loop over the candidates [0 .. n_mobs - 1]. *)
Definition collect_pending (m : nat) (s : RS) : Collect :=
  fold_left (pair_step m) (seq 0 (length (mobs_all (fst s)))) (s, []).

Definition radius_of (gs : GameplayState) (i : nat) : Q :=
  match mobs_all gs !! i with
  | Some mp => radius mp
  | None => 0
  end.

(** The number the comparator of the sort computes for an event. *)
Definition sort_key (gs : GameplayState) (m : nat)
    (e : PendingIntermobEvent) : Q :=
  pe_d e - (radius_of gs m + radius_of gs (pe_mob_ptr e)).

(** The comparator given to the sort. *)
Definition pending_lt (gs : GameplayState) (m : nat)
    (e1 e2 : PendingIntermobEvent) : bool :=
  Qltb (sort_key gs m e1) (sort_key gs m e2).


(** One sort that keeps the promise (insertion; it happens to keep the
    queue order of elements with equal keys, which [std::sort] need not
    do).  The functions below that call it compute one of the results the
    program may give; statements that depend on the order of equal keys
    are made of every [std_sort_result] instead. *)
Fixpoint sort_insert {A} (lt : A -> A -> bool) (x : A) (l : list A)
  : list A :=
  match l with
  | [] => [x]
  | y :: l' => if lt y x then y :: sort_insert lt x l' else x :: y :: l'
  end.

Definition std_sort {A} (lt : A -> A -> bool) (l : list A) : list A :=
  fold_right (sort_insert lt) [] l.

Definition state_of (gs : GameplayState) (m : nat) : option nat :=
  fsm_cur_state <$> mobs_all gs !! m.

(** What running one queued event does. *)
Definition run_pending (m : nat) (s : RS) (e : PendingIntermobEvent) : RS :=
  match pe_event_ptr e with
  | Some ev => raise ev m (PayloadMob (pe_mob_ptr e)) s
  | None => s
  end.

(** The dispatch loop, with its [break]. *)
Fixpoint dispatch_pending (m : nat) (state_before : option nat)
    (evs : list PendingIntermobEvent) (s : RS) : RS :=
  match evs with
  | [] => s
  | e :: rest =>
      if bool_decide (state_of (fst s) m = state_before)
      then dispatch_pending m state_before rest (run_pending m s e)
      else s
  end.

(** [process_mob_interactions] from the sort on, for a queue that the sort
    left as [sorted]. *)
Definition process_mob_interactions_sorted (m : nat) (s : RS)
    (sorted : list PendingIntermobEvent) : RS :=
  dispatch_pending m (state_of (fst s) m) sorted (fst (collect_pending m s)).

(** [process_mob_interactions], with [std_sort] for the sort. *)
Definition process_mob_interactions (m : nat) (s : RS) : RS :=
  let c := collect_pending m s in
  process_mob_interactions_sorted m s
    (std_sort (pending_lt (fst (fst c)) m) (snd c)).

End WithCollaborators.
End Resolver.

(* ===================================================================== *)
(** ** The activity partition: [update_mob_is_active_flag] *)
(* ===================================================================== *)

Module Activity.
Section WithCollaborators.
Context `{C : Collaborators}.

Local Open Scope Q_scope.

(** [mark_area_cells_active(from_x, to_x, from_y, to_y)]: the bounds are
    clamped to the grid, whose height is taken from column 0. *)
Definition mark_cells (from_x to_x from_y to_y : Z)
    (cells : list (list bool)) : list (list bool) :=
  let from_x := Z.max 0 from_x in
  let to_x := Z.min to_x (Z.of_nat (length cells) - 1) in
  let from_y := Z.max 0 from_y in
  let to_y := Z.min to_y (Z.of_nat (length (nth 0 cells [])) - 1) in
  imap (fun x col =>
          if (from_x <=? Z.of_nat x)%Z && (Z.of_nat x <=? to_x)%Z then
            imap (fun y b =>
                    if (from_y <=? Z.of_nat y)%Z && (Z.of_nat y <=? to_y)%Z
                    then true else b) col
          else col) cells.

(** [mark_area_cells_active(top_left, bottom_right)].  The four quotients
    are converted to [int]; the indices here are those the program
    computes when each quotient fits an [int] ([fits_int]). *)
Definition mark_area_cells_active (gs : GameplayState)
    (top_left bottom_right : Point) (cells : list (list bool))
  : list (list bool) :=
  let corner := bmap_top_left_corner gs in
  mark_cells
    (float_to_int ((px top_left - px corner) / AREA_CELL_SIZE))
    (float_to_int ((px bottom_right - px corner) / AREA_CELL_SIZE))
    (float_to_int ((py top_left - py corner) / AREA_CELL_SIZE))
    (float_to_int ((py bottom_right - py corner) / AREA_CELL_SIZE))
    cells.

(** The region of one cell size around the mob with index [i]. *)
Definition mark_around (gs : GameplayState) (cells : list (list bool))
    (i : nat) : list (list bool) :=
  match mobs_all gs !! i with
  | Some mp =>
      mark_area_cells_active gs
        (mkPoint (px (pos mp) - AREA_CELL_SIZE) (py (pos mp) - AREA_CELL_SIZE))
        (mkPoint (px (pos mp) + AREA_CELL_SIZE) (py (pos mp) + AREA_CELL_SIZE))
        cells
  | None => cells
  end.

(** [update_area_active_cells]: every cell is cleared, then the cells
    around each Pikmin and each leader and the cells in the camera box are
    marked. *)
Definition update_area_active_cells (gs : GameplayState) : GameplayState :=
  let cleared := map (map (fun _ => false)) (area_active_cells gs) in
  let around_pikmin := fold_left (mark_around gs) (mobs_pikmin_list gs) cleared in
  let around_leaders := fold_left (mark_around gs) (mobs_leaders gs) around_pikmin in
  set_cells gs
    (mark_area_cells_active gs (fst (cam_box gs)) (snd (cam_box gs))
       around_leaders).

Definition cell_x (gs : GameplayState) (mp : Mob) : Z :=
  float_to_int
    ((px (pos mp) - px (bmap_top_left_corner gs)) / AREA_CELL_SIZE).

Definition cell_y (gs : GameplayState) (mp : Mob) : Z :=
  float_to_int
    ((py (pos mp) - py (bmap_top_left_corner gs)) / AREA_CELL_SIZE).

(** [area_active_cells.size()] and [area_active_cells[0].size()] *)
Definition grid_width (gs : GameplayState) : Z :=
  Z.of_nat (length (area_active_cells gs)).
Definition grid_height (gs : GameplayState) : Z :=
  Z.of_nat (length (nth 0 (area_active_cells gs) [])).

Definition outside_grid (gs : GameplayState) (mp : Mob) : bool :=
  (cell_x gs mp <? 0)%Z || (grid_width gs <=? cell_x gs mp)%Z ||
  (cell_y gs mp <? 0)%Z || (grid_height gs <=? cell_y gs mp)%Z.

(** [area_active_cells[x][y]] *)
Definition cell_active (gs : GameplayState) (cx cy : Z) : bool :=
  nth (Z.to_nat cy) (nth (Z.to_nat cx) (area_active_cells gs) []) false.

(** The value the first loop assigns to [m_ptr->is_active]. *)
Definition cell_flag (gs : GameplayState) (mp : Mob) : bool :=
  if (cell_x gs mp <? 0)%Z || (grid_width gs <=? cell_x gs mp)%Z then false
  else if (cell_y gs mp <? 0)%Z || (grid_height gs <=? cell_y gs mp)%Z
  then false
  else cell_active gs (cell_x gs mp) (cell_y gs mp).

(** The first loop. *)
Definition assign_cell_flags (gs : GameplayState) : list Mob :=
  map (fun mp => set_is_active mp (cell_flag gs mp)) (mobs_all gs).

Definition is_child (mp : Mob) : bool := bool_decide (is_Some (parent_m mp)).

(** The indices the first loop inserts into [child_mobs], in index
    order. *)
Definition is_child_at (l : list Mob) (i : nat) : bool :=
  match l !! i with
  | Some mp => is_child mp
  | None => false
  end.

Definition child_mobs (l : list Mob) : list nat :=
  List.filter (is_child_at l) (seq 0 (length l)).

Definition activate (l : list Mob) (i : nat) : list Mob :=
  match l !! i with
  | Some mp => <[i := set_is_active mp true]> l
  | None => l
  end.

(** Body of the second loop: an active child activates its parent. *)
Definition child_to_parent (l : list Mob) (c : nat) : list Mob :=
  match l !! c with
  | Some cp =>
      match parent_m cp with
      | Some p => if is_active cp then activate l p else l
      | None => l
      end
  | None => l
  end.

(** Body of the third loop: an active parent activates the child. *)
Definition parent_to_child (l : list Mob) (c : nat) : list Mob :=
  match l !! c with
  | Some cp =>
      match parent_m cp ≫= (fun p => l !! p) with
      | Some pp => if is_active pp then activate l c else l
      | None => l
      end
  | None => l
  end.

(** [update_mob_is_active_flag], for the order [ord] in which the unordered
    set [child_mobs] happens to be traversed. *)
Definition update_mob_is_active_flag (ord : list nat) (gs : GameplayState)
  : GameplayState :=
  let l1 := assign_cell_flags gs in
  let l2 := fold_left child_to_parent ord l1 in
  let l3 := fold_left parent_to_child ord l2 in
  set_mobs gs l3.

(** [ord] is a traversal of the set of child mobs. *)
Definition traversal_of_children (ord : list nat) (gs : GameplayState)
  : Prop :=
  ord ≡ₚ child_mobs (mobs_all gs).

(** [b] is [a], or [a] with its active flag raised. *)
Definition raised_from (a b : Mob) : Prop :=
  b = a \/ b = set_is_active a true.

(** Pointwise [raised_from] on the mob list. *)
Definition all_raised_from (l l' : list Mob) : Prop :=
  Forall2 raised_from l l'.


(** The flag a mob has when the function returns. *)
Definition final_active (ord : list nat) (gs : GameplayState) (i : nat)
  : option bool :=
  is_active <$> mobs_all (update_mob_is_active_flag ord gs) !! i.

(** [p] is the parent of the mob with index [c]. *)
Definition parent_of (l : list Mob) (c p : nat) : Prop :=
  exists cp, l !! c = Some cp /\ parent_m cp = Some p.


(** [i] and [j] are of one family: a chain of parent and child links
    leads from one to the other. *)
Definition kin (l : list Mob) : relation nat := rtsc (parent_of l).

(** [j] is [i], its parent, one of its children, or another child of its
    parent. *)
Definition close_kin (l : list Mob) (i j : nat) : Prop :=
  i = j \/ parent_of l i j \/ parent_of l j i \/
  exists p, parent_of l i p /\ parent_of l j p.




End WithCollaborators.
End Activity.

(* ===================================================================== *)
(** ** The mob walk of [do_gameplay_logic] *)
(* ===================================================================== *)

Module Walk.
Section WithCollaborators.
Context `{C : Collaborators}.

Local Open Scope Q_scope.

(** What the two loops do to mobs, in program order. *)
Inductive Step :=
| StepTick (m : nat)
| StepDelete (m : nat).

(** The activity test on the mob about to be ticked. *)
Definition tick_culled (mp : Mob) : bool :=
  negb (has_flag (inactive_logic (mob_type mp)) INACTIVE_LOGIC_FLAG_TICKS) &&
  negb (is_active mp) &&
  Qltb (1 # 10) (time_alive mp).

Definition WalkState : Type := Resolver.RS * list Step.

(** The first loop, over the indices [ms]; [None] when [mobs.all[m]] is
    read out of bounds. *)
Fixpoint tick_loop (dt : Q) (ms : list nat) (w : WalkState)
  : option WalkState :=
  match ms with
  | [] => Some w
  | m :: rest =>
      match mobs_all (fst (fst w)) !! m with
      | None => None
      | Some mp =>
          if tick_culled mp then tick_loop dt rest w
          else
            let gs1 := mob_tick m dt (fst (fst w)) in
            match mobs_all gs1 !! m with
            | None => None
            | Some mp1 =>
                let rs :=
                  if is_stored_inside_mob mp1 then (gs1, snd (fst w))
                  else Resolver.process_mob_interactions m (gs1, snd (fst w))
                in
                tick_loop dt rest (rs, snd w ++ [StepTick m])
            end
      end
  end.

(** What [delete_mob] does to [mobs.all]: the mob is erased from the
    vector (the function is declared in the mob utilities header; the
    sweep relies on the erasure when it decrements [n_mobs] without
    advancing [m]). *)
Definition delete_mob (m : nat) (l : list Mob) : list Mob := delete m l.

(** The deletion sweep; [k] is [n_mobs - m], the number of iterations
    left. *)
Fixpoint sweep (k : nat) (m : nat) (l : list Mob) (log : list Step)
  : option (list Mob * list Step) :=
  match k with
  | O => Some (l, log)
  | S k' =>
      match l !! m with
      | None => None
      | Some mp =>
          if to_delete mp
          then sweep k' m (delete_mob m l) (log ++ [StepDelete m])
          else sweep k' (S m) l log
      end
  end.

(** The two loops of [do_gameplay_logic] over the mobs. *)
Definition walk_mobs (dt : Q) (s : Resolver.RS) : option WalkState :=
  let n_mobs := length (mobs_all (fst s)) in
  match tick_loop dt (seq 0 n_mobs) (s, []) with
  | Some w =>
      match sweep n_mobs 0 (mobs_all (fst (fst w))) (snd w) with
      | Some (l, log) => Some ((set_mobs (fst (fst w)) l, snd (fst w)), log)
      | None => None
      end
  | None => None
  end.

(** The mob list of [gs'] is at least as long as that of [gs]. *)
Definition no_shrink (gs gs' : GameplayState) : Prop :=
  (length (mobs_all gs) <= length (mobs_all gs'))%nat.

(** The script runtime and [Mob::tick] may append to [mobs.all] (a spawn)
    but never erase from it. *)
Definition append_only_handlers : Prop :=
  forall ev m p gs, no_shrink gs (run_event ev m p gs).
Definition append_only_tick : Prop :=
  forall m dt gs, no_shrink gs (mob_tick m dt gs).

Definition kept (mp : Mob) : bool := negb (to_delete mp).

(** The hitbox loops have not shortened the mob list of [gs]. *)
Definition hl_no_shrink (gs : GameplayState) (st : Resolver.HitboxLoop)
  : Prop :=
  no_shrink gs (fst (Resolver.hl_rs st)).

(** The part of [do_gameplay_logic] that deals with the mobs: the activity
    grid, the activity flags (for a traversal order [ord] of the child
    mobs), the tick loop and the sweep. *)
Definition do_gameplay_logic_mobs (ord : list nat) (dt : Q) (s : Resolver.RS)
  : option WalkState :=
  let gs1 := Activity.update_area_active_cells (fst s) in
  let gs2 := Activity.update_mob_is_active_flag ord gs1 in
  walk_mobs dt (gs2, snd s).

End WithCollaborators.
End Walk.

(* ===================================================================== *)
(** ** The flukeweed script *)
(* ===================================================================== *)

Module Script.

Local Open Scope string_scope.

(** *** The script, as the data file has it *)

(** One line of an event block: the action name and its arguments. *)
Record ActionCall := mkCall {
  act_name : string;
  act_args : list string
}.

Definition EventBlock : Type := string * list ActionCall.

Record StateDef := mkStateDef {
  st_name : string;
  st_events : list EventBlock
}.

Record ScriptFile := mkScript {
  first_state : string;
  death_state : string;
  init : list ActionCall;
  global : list EventBlock;
  script : list StateDef
}.

Definition power_timer_block : list ActionCall :=
  [ mkCall "get_mob_info" ["p"; "self"; "group_task_power"];
    mkCall "if" ["$p"; "<="; "3"];
    mkCall "set_timer" ["1.5"];
    mkCall "else" [];
    mkCall "if" ["$p"; "="; "4"];
    mkCall "set_timer" ["1.25"];
    mkCall "else" [];
    mkCall "set_timer" ["1"];
    mkCall "end_if" [];
    mkCall "end_if" [] ].

(** [group_tasks/flukeweed/script.txt] *)
Definition flukeweed : ScriptFile :=
  mkScript "capturing" "dying"
    [ mkCall "set_var" ["capturing"; "true"] ]
    [ ("on_receive_message",
       [ mkCall "get_event_info" ["msg"; "message"] ]) ]
    [ mkStateDef "capturing"
        [ ("on_enter", [ mkCall "set_timer" ["0.1"] ]);
          ("on_timer",
           [ mkCall "set_var" ["capturing"; "false"];
             mkCall "set_state" ["idling"] ]);
          ("on_touch_object",
           [ mkCall "if" ["$capturing"; "="; "true"];
             mkCall "focus" ["trigger"];
             mkCall "store_focus_inside" [];
             mkCall "end_if" [] ]) ];
      mkStateDef "idling"
        [ ("on_enter",
           [ mkCall "set_animation" ["idling"; "random_time_on_spawn"] ]);
          ("on_receive_message",
           [ mkCall "if" ["$msg"; "="; "goal_reached"];
             mkCall "set_state" ["pulled"];
             mkCall "end_if" [] ]) ];
      mkStateDef "pulled"
        [ ("on_enter",
           mkCall "set_animation" ["pulled"] :: power_timer_block);
          ("on_timer",
           mkCall "add_health" ["-20"] :: power_timer_block);
          ("on_receive_message",
           [ mkCall "if" ["$msg"; "="; "goal_lost"];
             mkCall "set_state" ["idling"];
             mkCall "end_if" [] ]) ];
      mkStateDef "dying"
        [ ("on_enter",
           [ mkCall "set_animation" ["dying"];
             mkCall "release_stored_mobs" [];
             mkCall "start_particles" ["dust_explosion"];
             mkCall "set_shadow_visibility" ["false"] ]);
          ("on_animation_end", [ mkCall "delete" [] ]) ] ].

(** *** Numbers in script text *)

Definition digit_of (c : Ascii.ascii) : option Z :=
  let n := Ascii.nat_of_ascii c in
  if (48 <=? n)%nat && (n <=? 57)%nat then Some (Z.of_nat (n - 48)) else None.

(** Value of a run of decimal digits, most significant first, and its
    length. *)
Fixpoint parse_digits (s : string) (acc : Z) (len : nat) : option (Z * nat) :=
  match s with
  | EmptyString => Some (acc, len)
  | String c r =>
      match digit_of c with
      | Some dgt => parse_digits r (10 * acc + dgt)%Z (S len)
      | None => None
      end
  end.

(** Splits at the first dot. *)
Fixpoint split_dot (s : string) : string * option string :=
  match s with
  | EmptyString => (EmptyString, None)
  | String c r =>
      if Ascii.eqb c "."%char then (EmptyString, Some r)
      else let '(a, b) := split_dot r in (String c a, b)
  end.

(** [digits.digits] *)
Definition parse_decimal (s : string) : option Q :=
  match split_dot s with
  | (ip, Some fp) =>
      match parse_digits ip 0 0, parse_digits fp 0 0 with
      | Some (i, S _), Some (f, S k) =>
          Some (inject_Z i + Qmake f (Pos.of_nat (10 ^ S k)))%Q
      | _, _ => None
      end
  | (_, None) => None
  end.

(** A number: an integer in decimal, or a decimal fraction with an
    optional minus sign. *)
Definition parse_number (s : string) : option Q :=
  match NilZero.int_of_string s with
  | Some i => Some (inject_Z (Z.of_int i))
  | None =>
      match s with
      | String "-"%char r => Qopp <$> parse_decimal r
      | _ => parse_decimal s
      end
  end.

(** [i2s]: the decimal text of an integer. *)
Definition i2s (n : Z) : string := NilZero.string_of_int (Z.to_int n).

(** *** The script runtime *)

(** Modelled from the spec: the script runtime (the mob script and mob
    script action implementation files) is not among the available
    sources; only the action enumeration and the runner declarations are.
    The runtime below follows the FSM Runtime and Script Action Library
    sections: an event runs the action list of the current state, and
    that of the global handlers only when the state has none; argument
    substitution of [$var] by the variable's text (empty when absent), [if]/[else]/[end_if] executed over the flat action list,
    [set_state] recorded and performed when the list is finished (leave,
    swap, timer reset, enter), nested dispatch cut off by a depth cap, no
    dispatch to a mob marked for deletion, health clamped to
    [[0, max_health]].  Actions with no effect on the fields below
    (animation, focus, particles, shadow, stored mobs) leave them
    unchanged.  The ring of previous state names, and [goto] and [label],
    which the script does not use, are left out. *)
Record ScriptMob := mkScriptMob {
  sm_state : nat;
  sm_vars : gmap string string;
  sm_timer : Q;
  sm_health : Q;
  sm_max_health : Q;
  sm_group_task_power : Z;
  sm_to_delete : bool
}.

Definition find_block (ev : string) (bs : list EventBlock)
  : option (list ActionCall) :=
  snd <$> List.find (fun b => String.eqb (fst b) ev) bs.

Fixpoint find_state_from (name : string) (l : list StateDef) (i : nat)
  : option nat :=
  match l with
  | [] => None
  | s :: r =>
      if String.eqb (st_name s) name then Some i
      else find_state_from name r (S i)
  end.

Definition find_state (sf : ScriptFile) (name : string) : option nat :=
  find_state_from name (script sf) 0.

(** The action list an event runs in state number [st]: the one of the
    state when it has one for the event, or else the one of the [global]
    block. *)
Definition handler (sf : ScriptFile) (st : nat) (ev : string)
  : option (list ActionCall) :=
  match script sf !! st with
  | None => None
  | Some sd =>
      match find_block ev (st_events sd) with
      | Some own => Some own
      | None => find_block ev (global sf)
      end
  end.

Definition get_var (vars : gmap string string) (name : string) : string :=
  default "" (vars !! name).

(** An argument of the form [$name] stands for the variable's text. *)
Definition subst_arg (vars : gmap string string) (a : string) : string :=
  match a with
  | String "$"%char name => get_var vars name
  | _ => a
  end.

Definition clamp (lo hi x : Q) : Q := Qmax lo (Qmin hi x).

Definition compare_operands (op lhs rhs : string) : bool :=
  match parse_number lhs, parse_number rhs with
  | Some a, Some b =>
      if String.eqb op "=" then Qeqb a b
      else if String.eqb op "!=" then negb (Qeqb a b)
      else if String.eqb op "<" then Qltb a b
      else if String.eqb op ">" then Qltb b a
      else if String.eqb op "<=" then Qleb a b
      else if String.eqb op ">=" then Qleb b a
      else false
  | _, _ =>
      if String.eqb op "=" then String.eqb lhs rhs
      else if String.eqb op "!=" then negb (String.eqb lhs rhs)
      else if String.eqb op "<" then String.ltb lhs rhs
      else if String.eqb op ">" then String.ltb rhs lhs
      else if String.eqb op "<=" then String.leb lhs rhs
      else if String.eqb op ">=" then String.leb rhs lhs
      else false
  end.

Definition set_sm_vars (sm : ScriptMob) (v : gmap string string) :=
  mkScriptMob (sm_state sm) v (sm_timer sm) (sm_health sm)
    (sm_max_health sm) (sm_group_task_power sm) (sm_to_delete sm).
Definition set_sm_timer (sm : ScriptMob) (t : Q) :=
  mkScriptMob (sm_state sm) (sm_vars sm) t (sm_health sm)
    (sm_max_health sm) (sm_group_task_power sm) (sm_to_delete sm).
Definition set_sm_health (sm : ScriptMob) (h : Q) :=
  mkScriptMob (sm_state sm) (sm_vars sm) (sm_timer sm) h
    (sm_max_health sm) (sm_group_task_power sm) (sm_to_delete sm).
Definition set_sm_state (sm : ScriptMob) (s : nat) :=
  mkScriptMob s (sm_vars sm) (sm_timer sm) (sm_health sm)
    (sm_max_health sm) (sm_group_task_power sm) (sm_to_delete sm).
Definition set_sm_to_delete (sm : ScriptMob) (b : bool) :=
  mkScriptMob (sm_state sm) (sm_vars sm) (sm_timer sm) (sm_health sm)
    (sm_max_health sm) (sm_group_task_power sm) b.

(** The mob and the state transition requested so far. *)
Definition Ctx : Type := ScriptMob * option nat.

(** One action that is not a control-flow marker; [args] are already
    substituted, [raw] are the arguments as written, [message] is the
    payload of the event. *)
Definition run_action (sf : ScriptFile) (message : string)
    (name : string) (raw args : list string) (c : Ctx) : Ctx :=
  let sm := fst c in
  if String.eqb name "set_var" then
    match raw, args with
    | v :: _, _ :: x :: _ => (set_sm_vars sm (<[v := x]> (sm_vars sm)), snd c)
    | _, _ => c
    end
  else if String.eqb name "set_timer" then
    match args with
    | t :: _ => (set_sm_timer sm (default 0%Q (parse_number t)), snd c)
    | _ => c
    end
  else if String.eqb name "set_state" then
    match args with
    | s :: _ =>
        match find_state sf s with
        | Some i => (sm, Some i)
        | None => c
        end
    | _ => c
    end
  else if String.eqb name "add_health" then
    match args with
    | a :: _ =>
        (set_sm_health sm
           (clamp 0 (sm_max_health sm)
              (sm_health sm + default 0%Q (parse_number a))%Q), snd c)
    | _ => c
    end
  else if String.eqb name "get_mob_info" then
    match raw, args with
    | v :: _, _ :: tgt :: info :: _ =>
        if String.eqb tgt "self" && String.eqb info "group_task_power"
        then (set_sm_vars sm
                (<[v := i2s (sm_group_task_power sm)]> (sm_vars sm)), snd c)
        else c
    | _, _ => c
    end
  else if String.eqb name "get_event_info" then
    match raw, args with
    | v :: _, _ :: info :: _ =>
        if String.eqb info "message"
        then (set_sm_vars sm (<[v := message]> (sm_vars sm)), snd c)
        else c
    | _, _ => c
    end
  else if String.eqb name "delete" then (set_sm_to_delete sm true, snd c)
  else c.

(** Where the single instruction pointer is with respect to the
    conditionals: executing, skipping a false branch (looking for the
    matching [else] or [end_if]), or skipping an [else] branch after a taken
    [if] (looking for the matching [end_if]); the number is the nesting
    depth of the conditionals met while skipping. *)
Inductive Mode := Executing | SkipFalse (depth : nat) | SkipElse (depth : nat).

Fixpoint exec (sf : ScriptFile) (message : string)
    (acts : list ActionCall) (mode : Mode) (c : Ctx) : Ctx :=
  match acts with
  | [] => c
  | a :: rest =>
      let is_if := String.eqb (act_name a) "if" in
      let is_else := String.eqb (act_name a) "else" in
      let is_end := String.eqb (act_name a) "end_if" in
      match mode with
      | Executing =>
          if is_if then
            match map (subst_arg (sm_vars (fst c))) (act_args a) with
            | [lhs; op; rhs] =>
                if compare_operands op lhs rhs
                then exec sf message rest Executing c
                else exec sf message rest (SkipFalse 0) c
            | _ => exec sf message rest (SkipFalse 0) c
            end
          else if is_else then exec sf message rest (SkipElse 0) c
          else if is_end then exec sf message rest Executing c
          else
            exec sf message rest Executing
              (run_action sf message (act_name a) (act_args a)
                 (map (subst_arg (sm_vars (fst c))) (act_args a)) c)
      | SkipFalse d =>
          if is_if then exec sf message rest (SkipFalse (S d)) c
          else if is_else then
            match d with
            | O => exec sf message rest Executing c
            | S _ => exec sf message rest (SkipFalse d) c
            end
          else if is_end then
            match d with
            | O => exec sf message rest Executing c
            | S d' => exec sf message rest (SkipFalse d') c
            end
          else exec sf message rest (SkipFalse d) c
      | SkipElse d =>
          if is_if then exec sf message rest (SkipElse (S d)) c
          else if is_end then
            match d with
            | O => exec sf message rest Executing c
            | S d' => exec sf message rest (SkipElse d') c
            end
          else exec sf message rest (SkipElse d) c
      end
  end.

(** [run_event]: [depth] is the number of nested dispatches still
    allowed. *)
Fixpoint run_event (sf : ScriptFile) (depth : nat)
    (ev message : string) (sm : ScriptMob) : ScriptMob :=
  match depth with
  | O => sm
  | S depth' =>
      if sm_to_delete sm then sm
      else
        match handler sf (sm_state sm) ev with
        | None => sm
        | Some acts =>
            let '(sm1, request) :=
              exec sf message acts Executing (sm, None) in
            match request with
            | None => sm1
            | Some new_state =>
                let sm2 := run_event sf depth' "on_leave" "" sm1 in
                let sm3 := set_sm_timer (set_sm_state sm2 new_state) 0%Q in
                run_event sf depth' "on_enter" "" sm3
            end
        end
  end.

(** A freshly spawned mob: the [init] block runs, then the first state is
    entered. *)
Definition spawn (sf : ScriptFile) (depth : nat)
    (hp max_hp : Q) (power : Z) : option ScriptMob :=
  match find_state sf (first_state sf) with
  | Some s0 =>
      let sm0 := mkScriptMob s0 ∅ 0%Q hp max_hp power false in
      let sm1 := fst (exec sf "" (init sf) Executing (sm0, None)) in
      Some (run_event sf depth "on_enter" "" sm1)
  | None => None
  end.

(** The script timer during one tick of [dt] seconds. *)
Definition tick_timer (sf : ScriptFile) (depth : nat)
    (dt : Q) (sm : ScriptMob) : ScriptMob :=
  if Qltb 0 (sm_timer sm) then
    if Qleb (sm_timer sm - dt)%Q 0
    then run_event sf depth "on_timer" "" (set_sm_timer sm 0%Q)
    else set_sm_timer sm (sm_timer sm - dt)%Q
  else sm.

Definition state_name (sf : ScriptFile) (sm : ScriptMob) : string :=
  match script sf !! sm_state sm with
  | Some sd => st_name sd
  | None => ""
  end.



End Script.

(* ===================================================================== *)
(** ** Vocabulary of the statements about the resolver *)
(* ===================================================================== *)

Module ResolverSpec.
Import Resolver.
Section WithCollaborators.
Context `{C : Collaborators}.

Local Open Scope Q_scope.

(** A logged handler call is a touch call when its event is one of the two
    touch events. *)
Definition is_touch_call (r : Raised) : bool :=
  bool_decide (ev_type (r_event r) = MOB_EV_TOUCHED_OBJECT) ||
  bool_decide (ev_type (r_event r) = MOB_EV_TOUCHED_OPPONENT).

Definition touch_free (l : list Raised) : Prop :=
  Forall (fun r => is_touch_call r = false) l.

(** [s'] has the log of [s] followed by calls that are not touch calls. *)
Definition extends_touch_free (s s' : RS) : Prop :=
  exists extra, snd s' = snd s ++ extra /\ touch_free extra.

(** The handler pointers held by the hitbox loops are of the event types
    they were fetched for. *)
Record typed_handlers (st : HitboxLoop) : Prop := {
  th_an : forall ev, hl_an_ev st = Some ev -> ev_type ev = MOB_EV_HITBOX_TOUCH_A_N;
  th_na : forall ev, hl_na_ev st = Some ev -> ev_type ev = MOB_EV_HITBOX_TOUCH_N_A;
  th_nn : forall ev, hl_nn_ev st = Some ev -> ev_type ev = MOB_EV_HITBOX_TOUCH_N_N;
  th_eat : forall ev, hl_eat_ev st = Some ev -> ev_type ev = MOB_EV_HITBOX_TOUCH_EAT;
  th_haz : forall ev, hl_haz_ev st = Some ev -> ev_type ev = MOB_EV_TOUCHED_HAZARD
}.

Definition hitbox_inv (s0 : RS) (st : HitboxLoop) : Prop :=
  extends_touch_free s0 (hl_rs st) /\ typed_handlers st.

(** The calls the touch section makes for an overlapping tangible pair. *)
Definition touch_object_call (mp : Mob) (m m2 : nat) : list Raised :=
  match get_event mp MOB_EV_TOUCHED_OBJECT with
  | Some ev => [mkRaised ev m (PayloadMob m2)]
  | None => []
  end.

(** The state in which [can_hunt] is evaluated: after the push was stored
    and the object handler, if any, has run. *)
Definition after_touch_object (gs : GameplayState) (mp m2p : Mob)
    (m m2 : nat) (d : Q) : GameplayState :=
  let gs1 := write_mob gs m (push_section mp m2p m m2 d (delta_t gs)) in
  match get_event mp MOB_EV_TOUCHED_OBJECT with
  | Some ev => run_event ev m (PayloadMob m2) gs1
  | None => gs1
  end.

Definition touch_opponent_call (gs : GameplayState) (mp m2p : Mob)
    (m m2 : nat) (d : Q) : list Raised :=
  match get_event mp MOB_EV_TOUCHED_OPPONENT with
  | Some ev =>
      if can_hunt_now (after_touch_object gs mp m2p m m2 d) m m2
      then [mkRaised ev m (PayloadMob m2)] else []
  | None => []
  end.










End WithCollaborators.
End ResolverSpec.

(* ===================================================================== *)
(** ** Vocabulary of the statements about the handler calls *)
(* ===================================================================== *)

Module CallSpec.
Import Resolver.
Section WithCollaborators.
Context `{C : Collaborators}.

(** The other mob a handler call is about. *)
Definition payload_mob (p : Payload) : nat :=
  match p with
  | PayloadMob m2 => m2
  | PayloadHitboxes m2 _ _ => m2
  | PayloadEat m2 _ => m2
  | PayloadHazard _ m2 _ _ => m2
  end.

(** The logged calls of one event type. *)
Definition calls_of_type (t : MOB_EV_TYPE) (l : list Raised) : list Raised :=
  List.filter (fun r => bool_decide (ev_type (r_event r) = t)) l.

(** The hitbox events guarded by a [reported_*] flag that is set by a
    single handler call. *)
Definition once_events : list MOB_EV_TYPE :=
  [ MOB_EV_HITBOX_TOUCH_A_N; MOB_EV_HITBOX_TOUCH_N_A;
    MOB_EV_HITBOX_TOUCH_N_N; MOB_EV_HITBOX_TOUCH_EAT ].

(** The [reported_*] local of an event type. *)
Definition reported (st : HitboxLoop) (t : MOB_EV_TYPE) : bool :=
  match t with
  | MOB_EV_HITBOX_TOUCH_A_N => hl_reported_an st
  | MOB_EV_HITBOX_TOUCH_N_A => hl_reported_na st
  | MOB_EV_HITBOX_TOUCH_N_N => hl_reported_nn st
  | MOB_EV_HITBOX_TOUCH_EAT => hl_reported_eat st
  | MOB_EV_TOUCHED_HAZARD => hl_reported_haz st
  | _ => false
  end.

(** The hitbox [h] of the sprite [sp] exists and has the type [ty]. *)
Definition hitbox_has_type (sp : Sprite) (h : nat) (ty : HITBOX_TYPE) : Prop :=
  exists hp, hitboxes sp !! h = Some hp /\ h_type hp = ty.

(** The hitbox [h] of the sprite [sp] exists and is not disabled. *)
Definition hitbox_enabled (sp : Sprite) (h : nat) : Prop :=
  exists hp, hitboxes sp !! h = Some hp /\ h_type hp <> HITBOX_TYPE_DISABLED.

(** A call made by the hitbox loops for the pair [(m, m2)], whose sprites
    on entry are [s1] and [s2]: it runs on [m], is about [m2], and names
    hitboxes of the types its event stands for. *)
Definition hitbox_call_ok (s1 s2 : Sprite) (m m2 : nat) (r : Raised) : Prop :=
  r_mob r = m /\
  match r_payload r with
  | PayloadHitboxes m2' h1 h2 =>
      m2' = m2 /\
      match ev_type (r_event r) with
      | MOB_EV_HITBOX_TOUCH_A_N =>
          hitbox_has_type s1 h1 HITBOX_TYPE_ATTACK /\
          hitbox_has_type s2 h2 HITBOX_TYPE_NORMAL
      | MOB_EV_HITBOX_TOUCH_N_N =>
          hitbox_has_type s1 h1 HITBOX_TYPE_NORMAL /\
          hitbox_has_type s2 h2 HITBOX_TYPE_NORMAL
      | MOB_EV_HITBOX_TOUCH_N_A =>
          hitbox_has_type s1 h1 HITBOX_TYPE_NORMAL /\
          hitbox_has_type s2 h2 HITBOX_TYPE_ATTACK
      | _ => False
      end
  | PayloadEat m2' h2 =>
      m2' = m2 /\ ev_type (r_event r) = MOB_EV_HITBOX_TOUCH_EAT /\
      hitbox_enabled s2 h2
  | PayloadHazard hz m2' h1 h2 =>
      m2' = m2 /\ ev_type (r_event r) = MOB_EV_TOUCHED_HAZARD /\
      hitbox_has_type s1 h1 HITBOX_TYPE_NORMAL /\
      exists h2p, hitboxes s2 !! h2 = Some h2p /\
                  h_type h2p = HITBOX_TYPE_ATTACK /\ hz ∈ h_hazards h2p
  | PayloadMob _ => False
  end.

(** The log of [s'] is the log of [s] followed by calls that satisfy
    [G]. *)
Definition extends_with (G : Raised -> Prop) (s s' : RS) : Prop :=
  exists extra, snd s' = snd s ++ extra /\ Forall G extra.

(** A call of the resolver for the acting mob [m], made when the mob list
    had [n] entries: it runs on [m] and is about another mob of the
    list. *)
Definition call_ok (m n : nat) (r : Raised) : Prop :=
  r_mob r = m /\ payload_mob (r_payload r) <> m /\
  (payload_mob (r_payload r) < n)%nat.

(** The event types that go through the queue. *)
Definition queued_events : list MOB_EV_TYPE :=
  [ MOB_EV_OBJECT_IN_REACH; MOB_EV_OPPONENT_IN_REACH;
    MOB_EV_NEAR_CARRIABLE_OBJECT; MOB_EV_NEAR_TOOL; MOB_EV_NEAR_GROUP_TASK;
    MOB_EV_TOUCHED_ACTIVE_LEADER ].

(** A queue entry for the candidate [m2]: its handler pointer is not null
    and is the handler of a queued event type. *)
Definition queued_for (m2 : nat) (e : PendingIntermobEvent) : Prop :=
  pe_mob_ptr e = m2 /\
  exists ev, pe_event_ptr e = Some ev /\ ev_type ev ∈ queued_events.

(** A queue entry of the acting mob [m], for a mob list of [n] entries. *)
Definition queued_ok (m n : nat) (e : PendingIntermobEvent) : Prop :=
  exists m2, m2 <> m /\ (m2 < n)%nat /\ queued_for m2 e.

(** What the hitbox loops keep true of the calls made so far, [extra], and
    of the [reported_*] flags: every call satisfies [G], and an event of
    [once_events] has been reported at most once, and not at all while its
    flag is down. *)
Definition log_ok (G : Raised -> Prop) (extra : list Raised)
    (rep : MOB_EV_TYPE -> bool) : Prop :=
  Forall G extra /\
  Forall (fun t => (length (calls_of_type t extra) <= Nat.b2n (rep t))%nat)
    once_events.

(** The invariant of the hitbox loops started in [s0] for the pair
    [(m, m2)] with sprites [s1] and [s2]. *)
Definition hitbox_log_inv (s1 s2 : Sprite) (m m2 : nat) (s0 : RS)
    (st : HitboxLoop) : Prop :=
  ResolverSpec.typed_handlers st /\
  exists extra, snd (hl_rs st) = snd s0 ++ extra /\
    log_ok (hitbox_call_ok s1 s2 m m2) extra (reported st).

(** A call for the pair [(m, m2)]: it runs on [m] and is about [m2]. *)
Definition pair_call (m m2 : nat) (r : Raised) : Prop :=
  r_mob r = m /\ payload_mob (r_payload r) = m2.

(** The invariant of the loop over the candidates, started in [s0]. *)
Definition collect_inv (m n : nat) (s0 : RS) (c : Collect) : Prop :=
  extends_with (call_ok m n) s0 (fst c) /\ Forall (queued_ok m n) (snd c).

End WithCollaborators.
End CallSpec.
(* ===================================================================== *)
(** ** Vocabulary of the statements about the push *)
(* ===================================================================== *)

Module PushSpec.
Import Resolver.
Section WithCollaborators.
Context `{C : Collaborators}.

Local Open Scope Q_scope.

(** The hitbox [h] of [m2p] is enabled and reaches into the circle of
    [mp]. *)
Definition hitbox_overlaps (mp m2p : Mob) (h : Hitbox) : Prop :=
  h_type h <> HITBOX_TYPE_DISABLED /\
  dist (pos mp) (hitbox_world_pos m2p h) < radius mp + h_radius h.

(** How far it reaches in. *)
Definition hitbox_overlap (mp m2p : Mob) (h : Hitbox) : Q :=
  radius mp + h_radius h - dist (pos mp) (hitbox_world_pos m2p h).

(** The accumulator of the loop over the hitboxes [hs] seen so far holds
    the deepest overlap among them, with the angle of a hitbox that has
    it, or is still [(0, 0)] when none overlaps. *)
Definition deepest_overlap (mp m2p : Mob) (hs : list Hitbox) (acc : Q * Q)
  : Prop :=
  (forall h, h ∈ hs -> hitbox_overlaps mp m2p h ->
     hitbox_overlap mp m2p h <= fst acc) /\
  ((acc = (0, 0) /\ forall h, h ∈ hs -> ~ hitbox_overlaps mp m2p h) \/
   exists h, h ∈ hs /\ hitbox_overlaps mp m2p h /\
     fst acc == hitbox_overlap mp m2p h /\
     snd acc = get_angle (hitbox_world_pos m2p h) (pos mp)).

End WithCollaborators.
End PushSpec.
(* ===================================================================== *)
(** ** Vocabulary of the statements about what the resolver writes *)
(* ===================================================================== *)

Module FrameSpec.
Import Resolver.
Section WithCollaborators.
Context `{C : Collaborators}.
Local Open Scope Q_scope.

(** The handlers of the script runtime change nothing. *)
Definition quiet_handlers : Prop :=
  forall ev m p gs, run_event ev m p gs = gs.

(** [gs'] is [gs], but for the two push members of the mob [m], where
    the stored amount may have been raised. *)
Definition only_pushed (m : nat) (gs gs' : GameplayState) : Prop :=
  gs' = gs \/
  exists mp a g, mobs_all gs !! m = Some mp /\ push_amount mp < a /\
    gs' = write_mob gs m (set_push mp a g).

(** The current state of [mp] handles none of the four hitbox touch
    events the entry test of the hitbox loops looks at. *)
Definition handles_no_hitbox_touch (mp : Mob) : Prop :=
  get_event mp MOB_EV_HITBOX_TOUCH_A_N = None /\
  get_event mp MOB_EV_HITBOX_TOUCH_N_A = None /\
  get_event mp MOB_EV_HITBOX_TOUCH_N_N = None /\
  get_event mp MOB_EV_HITBOX_TOUCH_EAT = None.

End WithCollaborators.
End FrameSpec.
(* ===================================================================== *)
(** ** Vocabulary of the statements about the activity grid *)
(* ===================================================================== *)

Module GridSpec.
Import Activity.
Section WithCollaborators.
Context `{C : Collaborators}.

Local Open Scope Q_scope.

(** [cells[x][y]], false outside the grid. *)
Definition active_at (cells : list (list bool)) (x y : nat) : bool :=
  match cells !! x with
  | Some col => default false (col !! y)
  | None => false
  end.

(** Every column has the height of column 0, as [area_active_cells] has
    when the area is loaded. *)
Definition rectangular (cells : list (list bool)) : Prop :=
  Forall (fun col => length col = length (nth 0 cells [])) cells.

(** The column heights of a grid. *)
Definition shape (cells : list (list bool)) : list nat := map length cells.

(** The cell [(x, y)] lies in the rectangle of cells asked for. *)
Definition in_cells (from_x to_x from_y to_y : Z) (x y : nat) : bool :=
  (from_x <=? Z.of_nat x)%Z && (Z.of_nat x <=? to_x)%Z &&
  (from_y <=? Z.of_nat y)%Z && (Z.of_nat y <=? to_y)%Z.

(** The point [p] lies in the box from [tl] to [br]. *)
Definition in_box (tl br p : Point) : Prop :=
  px tl <= px p /\ px p <= px br /\ py tl <= py p /\ py p <= py br.

(** The cell coordinates that [mark_area_cells_active] computes for the
    point [p] are [int] values. *)
Definition cell_fits_int (gs : GameplayState) (p : Point) : Prop :=
  fits_int ((px p - px (bmap_top_left_corner gs)) / AREA_CELL_SIZE) /\
  fits_int ((py p - py (bmap_top_left_corner gs)) / AREA_CELL_SIZE).

(** [b] is [a] with some value written to [is_active]. *)
Definition same_but_active (a b : Mob) : Prop :=
  exists f, b = set_is_active a f.

End WithCollaborators.
End GridSpec.
(* ===================================================================== *)
(** ** Enemies near the leader, and the end of a mission *)
(* ===================================================================== *)

Module Mission.
Section WithCollaborators.
Context `{C : Collaborators}.

Local Open Scope Q_scope.

(** [GAMEPLAY::ENEMY_MIX_DISTANCE] and [GAMEPLAY::BOSS_MUSIC_DISTANCE] *)
Variable ENEMY_MIX_DISTANCE BOSS_MUSIC_DISTANCE : Q.

(** [get_idx_bitmask(f)] of the general utilities. *)
Variable get_idx_bitmask : nat -> Z.

(** What [is_near_enemy_and_boss] reads of an entry of [mobs.enemies]:
    the mob and [ene_type->is_boss]. *)
Record Enemy := mkEnemy {
  ene_mob : Mob;
  ene_is_boss : bool
}.

(** [cur_leader_ptr->get_distance_between(e_ptr)] *)
Definition leader_distance (leader : Mob) (e : Enemy) : Q :=
  get_distance_between leader (ene_mob e)
    (dist (pos leader) (pos (ene_mob e))).

(** The loop of [is_near_enemy_and_boss] over the enemies still to look
    at, with its [break]; the accumulator is
    [(found_enemy, found_boss)]. *)
Fixpoint near_loop (leader : Mob) (es : list Enemy) (found : bool * bool)
  : bool * bool :=
  match es with
  | [] => found
  | e :: rest =>
      if Qleb (health (ene_mob e)) 0 then near_loop leader rest found
      else
        let d := leader_distance leader e in
        let found1 :=
          if negb (ene_is_boss e) then
            if Qleb d ENEMY_MIX_DISTANCE then (true, snd found) else found
          else
            if Qleb d BOSS_MUSIC_DISTANCE then (fst found, true) else found in
        if fst found1 && snd found1 then found1
        else near_loop leader rest found1
  end.

(** [is_near_enemy_and_boss(&near_enemy, &near_boss)] for a leader under
    control. *)
Definition is_near_enemy_and_boss (leader : Mob) (enemies : list Enemy)
  : bool * bool :=
  near_loop leader enemies (false, false).

(** A living enemy that is not a boss, within the mix distance. *)
Definition enemy_near (leader : Mob) (e : Enemy) : bool :=
  Qltb 0 (health (ene_mob e)) && negb (ene_is_boss e) &&
  Qleb (leader_distance leader e) ENEMY_MIX_DISTANCE.

(** A living boss within the boss music distance. *)
Definition boss_near (leader : Mob) (e : Enemy) : bool :=
  Qltb 0 (health (ene_mob e)) && ene_is_boss e &&
  Qleb (leader_distance leader e) BOSS_MUSIC_DISTANCE.

(** The loop of [is_mission_fail_met] from the condition [f] on; [met]
    holds what [is_met] returns for the conditions [f], [f + 1], ... *)
Fixpoint fail_loop (fail_conditions : Z) (met : list bool) (f : nat)
  : option nat :=
  match met with
  | [] => None
  | b :: rest =>
      if has_flag fail_conditions (get_idx_bitmask f) && b then Some f
      else fail_loop fail_conditions rest (S f)
  end.

(** [is_mission_fail_met(&reason)]: the reason when it returns true. *)
Definition is_mission_fail_met (fail_conditions : Z) (met : list bool)
  : option nat :=
  fail_loop fail_conditions met 0.

(** The condition [f] is one the mission looks at, and it is met. *)
Definition fails_on (fail_conditions : Z) (met : list bool) (f : nat) : Prop :=
  has_flag fail_conditions (get_idx_bitmask f) = true /\ met !! f = Some true.

(** How a mission ends. *)
Inductive MissionEnd :=
| EndCleared
| EndFailed (reason : nat).

(** The test at the end of [do_gameplay_logic] in a mission area:
    [end_mission(true)], [end_mission(false)] with the reason stored, or
    nothing. *)
Definition mission_end (interlude_none clear_met : bool)
    (fail_conditions : Z) (met : list bool) : option MissionEnd :=
  if interlude_none then
    if clear_met then Some EndCleared
    else EndFailed <$> is_mission_fail_met fail_conditions met
  else None.

End WithCollaborators.
End Mission.
(* ===================================================================== *)
(** ** The data file reader *)
(* ===================================================================== *)

Module DataFile.

(** A [std::string], as its characters. *)
Definition text : Type := list ascii.

Definition is_blank (c : ascii) : bool :=
  bool_decide (c = " "%char) || bool_decide (c = "009"%char).

(** The first loop of [trim_spaces]: erase the first character while it is
    a space or a tab. *)
Fixpoint trim_left (s : text) : text :=
  match s with
  | [] => []
  | c :: rest => if is_blank c then trim_left rest else s
  end.

(** The second loop: erase the last character while it is a space or a
    tab. *)
Definition trim_right (s : text) : text := rev (trim_left (rev s)).

(** [trim_spaces(s, left_only)] *)
Definition trim_spaces (s : text) (left_only : bool) : text :=
  if left_only then trim_left s else trim_right (trim_left s).

(** A data node: its value and its child nodes, grouped by name in the
    order in which the names first appear.  A [data_node_list] is the
    list of the nodes that share a name. *)
#[local] Unset Elimination Schemes.
Inductive data_node := mk_data_node {
  dn_value : text;
  dn_nodes : list (text * list data_node)
}.

#[local] Set Elimination Schemes.

Definition data_node_list : Type := list data_node.

(** The node [data_node()] builds. *)
Definition empty_node : data_node := mk_data_node [] [].

(** [data_node::find(nodes, name)]: the position of the first entry with
    that name, [None] for [string::npos]. *)
Fixpoint find_from (nodes : list (text * data_node_list)) (name : text)
    (p : nat) : option nat :=
  match nodes with
  | [] => None
  | (n, _) :: rest =>
      if bool_decide (n = name) then Some p else find_from rest name (S p)
  end.

Definition find (nodes : list (text * data_node_list)) (name : text)
  : option nat :=
  find_from nodes name 0.

(** [data_node::operator[](name)]: the list of the nodes with that name;
    a fresh, empty dummy list when there is none. *)
Definition node_lists (dn : data_node) (name : text) : data_node_list :=
  match find (dn_nodes dn) name with
  | Some pos =>
      match dn_nodes dn !! pos with
      | Some entry => snd entry
      | None => []
      end
  | None => []
  end.

(** The list of the first entry called [name], empty when there is
    none. *)
Fixpoint first_list (nodes : list (text * data_node_list)) (name : text)
  : data_node_list :=
  match nodes with
  | [] => []
  | (n, l) :: rest =>
      if bool_decide (n = name) then l else first_list rest name
  end.

(** [data_node_list::operator[](nr)]: the node number [nr]; a fresh dummy
    node when [nr] is out of range. *)
Definition node_at (l : data_node_list) (nr : nat) : data_node :=
  match l !! nr with
  | Some dn => dn
  | None => empty_node
  end.

(** [data_node_list::get_value(def_value)] *)
Definition get_value (l : data_node_list) (def_value : text) : text :=
  match l with
  | [] => def_value
  | dn :: _ => dn_value dn
  end.

(** [data_node_list::operator[](name)]: the nodes called [name] under the
    first node of the list. *)
Definition sub_lists (l : data_node_list) (name : text) : data_node_list :=
  node_lists (node_at l 0) name.

(** [s.find(c)]: the position of the first [c], [None] for
    [string::npos]. *)
Fixpoint find_char (c : ascii) (s : text) : option nat :=
  match s with
  | [] => None
  | a :: rest =>
      if bool_decide (a = c) then Some 0%nat else S <$> find_char c rest
  end.

(** [line.size() >= 2 && line[0] == '/' && line[1] == '/'] *)
Definition is_comment (line : text) : bool :=
  match line with
  | a :: b :: _ => bool_decide (a = "/"%char) && bool_decide (b = "/"%char)
  | _ => false
  end.

(** [pos = line.find(c)] when
    [pos != string::npos && pos > 0 && line.size() >= 2]. *)
Definition found_past_start (c : ascii) (line : text) : option nat :=
  match find_char c line with
  | Some pos =>
      if (0 <? pos)%nat && (2 <=? length line)%nat then Some pos else None
  | None => None
  end.

(** The lookup-or-create of [load_node], followed by
    [nodes[node_pos].second.add()] and the filling of the node added:
    the node [dn] goes to the end of the list of its name, and a name not
    seen before goes to the end of the names. *)
Definition add_node (nodes : list (text * data_node_list)) (name : text)
    (dn : data_node) : list (text * data_node_list) :=
  match find nodes name with
  | Some pos => alter (fun e => (fst e, (snd e ++ [dn])%list)) pos nodes
  | None => (nodes ++ [(name, [dn])])%list
  end.

Section Loader.

(** The default of the parameter [left_only] of [trim_spaces], declared in
    the header of the functions. *)
Variable left_only_default : bool.

(** The name and the value of an option line, already trimmed on the
    left. *)
Definition option_of (trim_values : bool) (line : text) (pos : nat)
  : text * text :=
  let value := drop (S pos) line in
  (trim_spaces (take pos line) left_only_default,
   if trim_values then trim_spaces value left_only_default else value).

(** The loop of [load_node] from the line [l] on, over the nodes built so
    far; the result is the nodes and the line number returned.  A
    sub-node is loaded by the recursive call, which starts from no
    nodes.  [fuel] bounds the number of lines looked at. *)
Fixpoint load_lines (fuel : nat) (lines : list text) (trim_values : bool)
    (l : nat) (nodes : list (text * data_node_list))
  : option (list (text * data_node_list) * nat) :=
  match fuel with
  | O => None
  | S fuel' =>
      match lines !! l with
      | None => Some (nodes, (length lines - 1)%nat)
      | Some raw =>
          let line := trim_spaces raw true in
          if is_comment line
          then load_lines fuel' lines trim_values (S l) nodes
          else
            match found_past_start "="%char line with
            | Some pos =>
                let '(option, value) := option_of trim_values line pos in
                load_lines fuel' lines trim_values (S l)
                  (add_node nodes option (mk_data_node value []))
            | None =>
                match found_past_start "{"%char line with
                | Some pos =>
                    let section_name :=
                      trim_spaces (take pos line) left_only_default in
                    let sub :=
                      if (length lines <? S l)%nat then Some ([], S l)
                      else load_lines fuel' lines trim_values (S l) [] in
                    match sub with
                    | Some (child, l') =>
                        load_lines fuel' lines trim_values (S l')
                          (add_node nodes section_name
                             (mk_data_node [] child))
                    | None => None
                    end
                | None =>
                    if bool_decide (is_Some (find_char "}"%char line))
                    then Some (nodes, l)
                    else load_lines fuel' lines trim_values (S l) nodes
                end
            end
      end
  end.

(** [load_node(lines, trim_values, start_line)]: the node loaded and the
    line number returned.  For a file with no line the source returns
    [n_lines - 1] computed on an unsigned number, the largest [size_t];
    the number given here for that case, 0, is not that value (no caller
    reads it). *)
Definition load_node (fuel : nat) (lines : list text) (trim_values : bool)
    (start_line : nat) : option (data_node * nat) :=
  if (length lines <? start_line)%nat
  then Some (mk_data_node [] [], start_line)
  else
    match load_lines fuel lines trim_values start_line [] with
    | Some (nodes, l) => Some (mk_data_node [] nodes, l)
    | None => None
    end.

(** What [load_file] leaves in the node for the lines of a file. *)
Definition load_text (lines : list text) (trim_values : bool)
  : option data_node :=
  fst <$> load_node (S (length lines)) lines trim_values 0.

(** The line is an option line: its name and value. *)
Definition as_option (trim_values : bool) (raw : text)
  : option (text * text) :=
  let line := trim_spaces raw true in
  if is_comment line then None
  else option_of trim_values line <$> found_past_start "="%char line.

(** The line neither opens nor closes a sub-node. *)
Definition no_brace (raw : text) : bool :=
  let line := trim_spaces raw true in
  is_comment line ||
  bool_decide (is_Some (found_past_start "="%char line)) ||
  (negb (bool_decide (is_Some (found_past_start "{"%char line))) &&
   negb (bool_decide (is_Some (find_char "}"%char line)))).

(** The values given to the option [name], in file order. *)
Definition values_of (trim_values : bool) (lines : list text) (name : text)
  : list text :=
  snd <$> List.filter (fun kv => bool_decide (fst kv = name))
            (omap (as_option trim_values) lines).

End Loader.

End DataFile.
(* ===================================================================== *)
(** ** The animation editor *)
(* ===================================================================== *)

Module AnimEditor.

Local Open Scope Q_scope.

(** What the modelled functions read or write of a hitbox of the
    animation database. *)
Record Hitbox := mkHitbox {
  body_part_name : string;
  hb_pos : Point;
  hb_z : Q;
  hb_height : Q;
  hb_radius : Q
}.

Record Sprite := mkSprite {
  spr_name : string;
  spr_scale : Point;
  spr_offset : Point;
  top_pos : Point;
  top_size : Point;
  spr_hitboxes : list Hitbox
}.

Record Frame := mkFrame {
  sprite_name : string;
  frame_duration : Q
}.

Record Animation := mkAnimation {
  anim_name : string;
  frames : list Frame
}.

Record BodyPart := mkBodyPart { bp_name : string }.

(** [db]: the animation database being edited. *)
Record AnimationDatabase := mkDb {
  animations : list Animation;
  sprites : list Sprite;
  body_parts : list BodyPart
}.

(** What a command leaves behind besides the database: it made its change
    and marked the database as changed, it refused with an error in the
    status bar, or it did neither. *)
Inductive Outcome := Changed | Refused | Nothing.

Definition set_spr_name (s : Sprite) (n : string) : Sprite :=
  mkSprite n (spr_scale s) (spr_offset s) (top_pos s) (top_size s)
    (spr_hitboxes s).

Definition set_spr_hitboxes (s : Sprite) (hs : list Hitbox) : Sprite :=
  mkSprite (spr_name s) (spr_scale s) (spr_offset s) (top_pos s) (top_size s)
    hs.

Definition set_body_part_name (h : Hitbox) (n : string) : Hitbox :=
  mkHitbox n (hb_pos h) (hb_z h) (hb_height h) (hb_radius h).

(** *** Renaming *)

(** [if(frames[f].sprite_name == old_name) frames[f].sprite_name =
    new_name;] *)
Definition retarget_frame (old_name new_name : string) (f : Frame) : Frame :=
  if bool_decide (sprite_name f = old_name)
  then mkFrame new_name (frame_duration f) else f.

Definition retarget_animation (old_name new_name : string) (a : Animation)
  : Animation :=
  mkAnimation (anim_name a) (retarget_frame old_name new_name <$> frames a).

(** [rename_sprite(spr, new_name)]; [spr] is the index of the sprite in
    [db.sprites], [None] for a null pointer. *)
Definition rename_sprite (db : AnimationDatabase) (spr : option nat)
    (new_name : string) : AnimationDatabase * Outcome :=
  match spr ≫= (fun i => pair i <$> sprites db !! i) with
  | None => (db, Nothing)
  | Some (i, s) =>
      let old_name := spr_name s in
      if bool_decide (new_name = old_name) then (db, Nothing)
      else if bool_decide (new_name = EmptyString) then (db, Refused)
      else if existsb (fun s' => bool_decide (spr_name s' = new_name))
                (sprites db)
      then (db, Refused)
      else
        (mkDb (retarget_animation old_name new_name <$> animations db)
           (<[i := set_spr_name s new_name]> (sprites db))
           (body_parts db),
         Changed)
  end.

(** [rename_animation(anim, new_name)] *)
Definition rename_animation (db : AnimationDatabase) (anim : option nat)
    (new_name : string) : AnimationDatabase * Outcome :=
  match anim ≫= (fun i => pair i <$> animations db !! i) with
  | None => (db, Nothing)
  | Some (i, a) =>
      let old_name := anim_name a in
      if bool_decide (new_name = old_name) then (db, Nothing)
      else if bool_decide (new_name = EmptyString) then (db, Refused)
      else if existsb (fun a' => bool_decide (anim_name a' = new_name))
                (animations db)
      then (db, Refused)
      else
        (mkDb (<[i := mkAnimation new_name (frames a)]> (animations db))
           (sprites db) (body_parts db),
         Changed)
  end.

(** *** Hitboxes and body parts *)

(** The inner loop of the deletion: some body part has the name. *)
Definition name_found (parts : list BodyPart) (h_name : string) : bool :=
  existsb (fun b => bool_decide (bp_name b = h_name)) parts.

(** The hitbox added for a body part that has none:
    [Hitbox(name, INVALID, nullptr, Point(), 0, height, radius)]. *)
Definition new_hitbox (name : string) (height radius : Q) : Hitbox :=
  mkHitbox name (mkPoint 0 0) 0 height radius.

(** One iteration of the loop that adds the missing hitboxes. *)
Definition add_missing (height radius : Q) (hs : list Hitbox) (b : BodyPart)
  : list Hitbox :=
  if existsb (fun h => bool_decide (body_part_name h = bp_name b)) hs
  then hs
  else (hs ++ [new_hitbox (bp_name b) height radius])%list.

(** The loop of the comparator: the position of the last body part with
    this name, [start] when there is none. *)
Fixpoint last_pos_from (parts : list BodyPart) (name : string)
    (b start : nat) : nat :=
  match parts with
  | [] => start
  | p :: rest =>
      last_pos_from rest name (S b)
        (if bool_decide (bp_name p = name) then b else start)
  end.

(** The comparator given to the sort: [pos1] starts at 0 and [pos2] at
    1. *)
Definition hitbox_lt (parts : list BodyPart) (h1 h2 : Hitbox) : bool :=
  (last_pos_from parts (body_part_name h1) 0 0 <?
   last_pos_from parts (body_part_name h2) 0 1)%nat.

(** The body of the loop of [update_hitboxes] over the sprites. *)
Definition update_sprite_hitboxes (parts : list BodyPart) (height radius : Q)
    (s : Sprite) : Sprite :=
  let kept :=
    List.filter (fun h => name_found parts (body_part_name h))
      (spr_hitboxes s) in
  let all := fold_left (add_missing height radius) parts kept in
  set_spr_hitboxes s (Resolver.std_sort (hitbox_lt parts) all).

(** [update_hitboxes()]; [height] and [radius] are those of the loaded mob
    type, 128 and 32 when there is none. *)
Definition update_hitboxes (height radius : Q) (db : AnimationDatabase)
  : AnimationDatabase :=
  mkDb (animations db)
    (update_sprite_hitboxes (body_parts db) height radius <$> sprites db)
    (body_parts db).

Definition rename_hitbox (old_name new_name : string) (h : Hitbox) : Hitbox :=
  if bool_decide (body_part_name h = old_name)
  then set_body_part_name h new_name else h.

(** [rename_body_part(part, new_name)] *)
Definition rename_body_part (height radius : Q) (db : AnimationDatabase)
    (part : option nat) (new_name : string) : AnimationDatabase * Outcome :=
  match part ≫= (fun i => pair i <$> body_parts db !! i) with
  | None => (db, Nothing)
  | Some (i, p) =>
      let old_name := bp_name p in
      if bool_decide (new_name = old_name) then (db, Nothing)
      else if bool_decide (new_name = EmptyString) then (db, Refused)
      else if existsb (fun b => bool_decide (bp_name b = new_name))
                (body_parts db)
      then (db, Refused)
      else
        (update_hitboxes height radius
           (mkDb (animations db)
              ((fun s =>
                  set_spr_hitboxes s
                    (rename_hitbox old_name new_name <$> spr_hitboxes s))
                 <$> sprites db)
              (<[i := mkBodyPart new_name]> (body_parts db))),
         Changed)
  end.

(** *** The zoom keys *)

(** [ANIM_EDITOR::ZOOM_MIN_LEVEL] and [ANIM_EDITOR::ZOOM_MAX_LEVEL], which
    the constructor stores in [zoom_min_level] and [zoom_max_level]. *)
Definition ZOOM_MIN_LEVEL : Q := 5 # 100.
Definition ZOOM_MAX_LEVEL : Q := 32.

(** [std::clamp(v, lo, hi)] *)
Definition std_clamp (v lo hi : Q) : Q :=
  if Qltb v lo then lo else if Qltb hi v then hi else v.

(** [zoom_in_cmd(input_value)]: the new [game.cam.target_zoom];
    [step] is [EDITOR::KEYBOARD_CAM_ZOOM]. *)
Definition zoom_in_cmd (step zoom target_zoom input_value : Q) : Q :=
  if Qltb input_value (1 # 2) then target_zoom
  else std_clamp (target_zoom + zoom * step) ZOOM_MIN_LEVEL ZOOM_MAX_LEVEL.

(** [zoom_out_cmd(input_value)] *)
Definition zoom_out_cmd (step zoom target_zoom input_value : Q) : Q :=
  if Qltb input_value (1 # 2) then target_zoom
  else std_clamp (target_zoom - zoom * step) ZOOM_MIN_LEVEL ZOOM_MAX_LEVEL.

(** *** The timeline *)

(** [ANIM_EDITOR::TIMELINE_PADDING] and [ANIM_EDITOR::TIMELINE_HEIGHT] *)
Definition TIMELINE_PADDING : Q := 6.
Definition TIMELINE_HEIGHT : Q := 48.

(** [get_cursor_timeline_time()]; [valid_frame] is
    [cur_anim_i.valid_frame()], [duration] is
    [cur_anim_i.cur_anim->get_duration()]. *)
Definition get_cursor_timeline_time (valid_frame : bool) (duration : Q)
    (canvas_tl canvas_br mouse : Point) : Q :=
  if negb valid_frame then 0
  else
    let anim_x1 := px canvas_tl + TIMELINE_PADDING in
    let anim_w := (px canvas_br - TIMELINE_PADDING) - anim_x1 in
    let mouse_x := std_clamp (px mouse - anim_x1) 0 anim_w in
    duration * (mouse_x / anim_w).

(** [is_cursor_in_timeline()]; [in_animation_state] is
    [state == EDITOR_STATE_ANIMATION]. *)
Definition is_cursor_in_timeline (in_animation_state : bool)
    (canvas_tl canvas_br mouse : Point) : bool :=
  in_animation_state &&
  Qleb (px canvas_tl) (px mouse) && Qleb (px mouse) (px canvas_br) &&
  Qleb (py canvas_br - TIMELINE_HEIGHT) (py mouse) &&
  Qleb (py mouse) (py canvas_br).

(** *** Vocabulary of the statements about the database *)

(** No two sprites have the same name. *)
Definition sprite_names_distinct (db : AnimationDatabase) : Prop :=
  NoDup (spr_name <$> sprites db).

(** Every frame names a sprite of the database. *)
Definition frames_resolve (db : AnimationDatabase) : Prop :=
  Forall (fun a =>
            Forall (fun f => sprite_name f ∈ (spr_name <$> sprites db))
              (frames a))
    (animations db).

(** The frame number [fi] of the animation number [ai]. *)
Definition frame_at (db : AnimationDatabase) (ai fi : nat) : option Frame :=
  animations db !! ai ≫= (fun a => frames a !! fi).

(** The sprite number [j] is called [n]. *)
Definition sprite_called (db : AnimationDatabase) (j : nat) (n : string)
  : Prop :=
  spr_name <$> sprites db !! j = Some n.

(** The position the comparator gives a hitbox whose body part exists. *)
Definition part_pos (parts : list BodyPart) (h : Hitbox) : nat :=
  last_pos_from parts (body_part_name h) 0 0.

(** The hitboxes [hs] are in the order of their body parts. *)
Definition in_part_order (parts : list BodyPart) (hs : list Hitbox) : Prop :=
  StronglySorted (fun h1 h2 => (part_pos parts h1 <= part_pos parts h2)%nat)
    hs.

(** What [update_hitboxes] leaves in a sprite that had the hitboxes
    [before]: hitboxes of existing body parts only, one at least for every
    body part, in body part order, each of them one of [before] or the
    default hitbox of its body part. *)
Definition hitboxes_updated (parts : list BodyPart) (height radius : Q)
    (before after : list Hitbox) : Prop :=
  Forall (fun h => name_found parts (body_part_name h) = true) after /\
  Forall (fun b => exists h, h ∈ after /\ body_part_name h = bp_name b)
    parts /\
  in_part_order parts after /\
  Forall (fun h => h ∈ before \/
                   h = new_hitbox (body_part_name h) height radius) after /\
  Forall (fun h => name_found parts (body_part_name h) = true -> h ∈ after)
    before.

(** No two body parts have the same name. *)
Definition part_names_distinct (db : AnimationDatabase) : Prop :=
  NoDup (bp_name <$> body_parts db).

(** Every sprite has exactly one hitbox per body part, in body part
    order. *)
Definition hitboxes_match (db : AnimationDatabase) : Prop :=
  Forall (fun s => body_part_name <$> spr_hitboxes s =
                   bp_name <$> body_parts db) (sprites db).

(** [s'] is [s] with nothing changed but names of body parts in its
    hitboxes. *)
Definition same_but_part_names (s s' : Sprite) : Prop :=
  set_spr_hitboxes s' (spr_hitboxes s) = s /\
  Forall2 (fun h h' => set_body_part_name h' (body_part_name h) = h)
    (spr_hitboxes s) (spr_hitboxes s').

End AnimEditor.
(* ===================================================================== *)
(** ** The flood fill of the sprite bitmap picker *)
(* ===================================================================== *)

Module FloodFill.

Local Open Scope Q_scope.

(** [ANIM_EDITOR::FLOOD_FILL_ALPHA_THRESHOLD] *)
Definition FLOOD_FILL_ALPHA_THRESHOLD : Q := 8 # 1000.

(** A pixel: [(x, y)]. *)
Definition IntPoint : Type := nat * nat.

(** The outcome of a call: the selection when the function returns; no
    result when it reads outside the bitmap or the selection array; no
    result when the fuel given to the loop runs out. *)
Inductive FillResult :=
| Selection (sel : list bool)
| ReadsOutside
| NoFuel.

(** What the function reads of the locked bitmap: [al_get_pixel(bmp, x,
    y).a], [al_get_bitmap_width(bmp)] and [al_get_bitmap_height(bmp)]. *)
Record Bitmap := mkBitmap {
  alpha : nat -> nat -> Q;
  bmp_w : nat;
  bmp_h : nat
}.

(** [y * bmp_w + x] *)
Definition pixel_index (bmp : Bitmap) (x y : nat) : nat :=
  (y * bmp_w bmp + x)%nat.

(** [selection_pixels[y * bmp_w + x]] *)
Definition selected (bmp : Bitmap) (sel : list bool) (x y : nat) : bool :=
  default false (sel !! pixel_index bmp x y).

(** [al_get_pixel(bmp, x, y).a < FLOOD_FILL_ALPHA_THRESHOLD] *)
Definition transparent (bmp : Bitmap) (x y : nat) : bool :=
  Qltb (alpha bmp x y) FLOOD_FILL_ALPHA_THRESHOLD.

(** The loop that goes left from [offset.x = x]: the columns it adds. *)
Fixpoint scan_left (bmp : Bitmap) (sel : list bool) (y x : nat)
  : list IntPoint :=
  match x with
  | O => []
  | S x' =>
      if selected bmp sel x' y then []
      else if transparent bmp x' y then []
      else (x', y) :: scan_left bmp sel y x'
  end.

(** The loop that goes right from [offset.x = x]; [k] is
    [bmp_w - 1 - x], the number of steps before [offset.x] is
    [bmp_w - 1]. *)
Fixpoint scan_right (bmp : Bitmap) (k : nat) (sel : list bool) (y x : nat)
  : list IntPoint :=
  match k with
  | O => []
  | S k' =>
      if selected bmp sel (S x) y then []
      else if transparent bmp (S x) y then []
      else (S x, y) :: scan_right bmp k' sel y (S x)
  end.

(** [columns] when the two scans from the pixel [(x, y)] are done. *)
Definition columns (bmp : Bitmap) (sel : list bool) (x y : nat)
  : list IntPoint :=
  ((x, y) :: scan_left bmp sel y x ++
   scan_right bmp (bmp_w bmp - 1 - x) sel y x)%list.

(** The body of the loop over [columns]: the pixel is marked, and the
    pixels above and below are queued when they are to be looked at. *)
Definition mark_column (bmp : Bitmap) (st : list bool * list IntPoint)
    (col : IntPoint) : list bool * list IntPoint :=
  let '(sel, queue) := st in
  let '(cx, cy) := col in
  let sel1 := <[pixel_index bmp cx cy := true]> sel in
  let queue1 :=
    if (0 <? cy)%nat && negb (selected bmp sel1 cx (cy - 1)) &&
       negb (transparent bmp cx (cy - 1))
    then (queue ++ [(cx, (cy - 1)%nat)])%list else queue in
  let queue2 :=
    if (cy <? bmp_h bmp - 1)%nat && negb (selected bmp sel1 cx (cy + 1)) &&
       negb (transparent bmp cx (cy + 1))
    then (queue1 ++ [(cx, (cy + 1)%nat)])%list else queue1 in
  (sel1, queue2).

(** The loop over [pixels_left]; one unit of fuel per pixel taken from
    the queue. *)
Fixpoint fill_loop (bmp : Bitmap) (fuel : nat) (sel : list bool)
    (queue : list IntPoint) : option (list bool) :=
  match queue with
  | [] => Some sel
  | (x, y) :: rest =>
      match fuel with
      | O => None
      | S fuel' =>
          if selected bmp sel x y || transparent bmp x y
          then fill_loop bmp fuel' sel rest
          else
            let '(sel', queue') :=
              fold_left (mark_column bmp) (columns bmp sel x y) (sel, rest) in
            fill_loop bmp fuel' sel' queue'
      end
  end.

(** [sprite_bmp_flood_fill(bmp, selection_pixels, x, y)].  The guards let
    [x = bmp_w] and [y = bmp_h] through.  The pixel looked at is then
    outside the bitmap, where [al_get_pixel] gives a transparent colour:
    the call returns with the selection as it was, unless the entry of the
    selection array that is read first lies outside the array. *)
Definition sprite_bmp_flood_fill (bmp : Bitmap) (fuel : nat)
    (sel : list bool) (x y : Z) : FillResult :=
  if (x <? 0)%Z || (Z.of_nat (bmp_w bmp) <? x)%Z then Selection sel
  else if (y <? 0)%Z || (Z.of_nat (bmp_h bmp) <? y)%Z then Selection sel
  else if (x =? Z.of_nat (bmp_w bmp))%Z || (y =? Z.of_nat (bmp_h bmp))%Z
  then
    if bool_decide
         (is_Some (sel !! pixel_index bmp (Z.to_nat x) (Z.to_nat y)))
    then Selection sel else ReadsOutside
  else if selected bmp sel (Z.to_nat x) (Z.to_nat y) then Selection sel
  else if transparent bmp (Z.to_nat x) (Z.to_nat y) then Selection sel
  else
    match fill_loop bmp fuel sel [(Z.to_nat x, Z.to_nat y)] with
    | Some sel' => Selection sel'
    | None => NoFuel
    end.

(** A pixel of the bitmap. *)
Definition in_bitmap (bmp : Bitmap) (p : IntPoint) : Prop :=
  (fst p < bmp_w bmp)%nat /\ (snd p < bmp_h bmp)%nat.

(** A pixel that may be marked: in the bitmap, not transparent. *)
Definition markable (bmp : Bitmap) (c : IntPoint) : Prop :=
  in_bitmap bmp c /\ transparent bmp (fst c) (snd c) = false.

(** The entry [i] of the selection is that of a pixel of the bitmap that
    is not transparent. *)
Definition opaque_pixel (bmp : Bitmap) (i : nat) : Prop :=
  exists x y, in_bitmap bmp (x, y) /\ i = pixel_index bmp x y /\
              transparent bmp x y = false.

(** [sel'] is [sel] with more entries selected, all of them pixels of the
    bitmap that are not transparent. *)
Definition grown (bmp : Bitmap) (sel sel' : list bool) : Prop :=
  length sel' = length sel /\
  (forall i, sel !! i = Some true -> sel' !! i = Some true) /\
  (forall i, sel' !! i = Some true ->
     sel !! i = Some true \/ opaque_pixel bmp i).

(** The number of entries not selected. *)
Definition unselected (sel : list bool) : nat :=
  length (List.filter negb sel).

(** Fuel that is enough for any selection of the bitmap. *)
Definition enough_fuel (bmp : Bitmap) : nat :=
  (2 + (2 * bmp_w bmp + 1) * (bmp_w bmp * bmp_h bmp))%nat.

End FloodFill.


(* ===================================================================== *)
(** ** A concrete world to run the functions on *)
(* ===================================================================== *)

Module Examples.

Local Open Scope Q_scope.

(** Distance along the axes; it is the straight-line distance for the
    mobs below, which all sit on the x axis. *)
Definition axis_dist (p q : Point) : Q :=
  Qabs (px p - px q) + Qabs (py p - py q).

(** Direction from [p] to [q] for points on the x axis. *)
Definition axis_angle (p q : Point) : Q :=
  if Qltb (px q) (px p) then 3141593 # 1000000 else 0.

(** Collaborators with circle-only geometry, for a given script runtime
    and a given [Mob::tick]. *)
Definition with_runtime
    (run : MobEvent -> nat -> Payload -> GameplayState -> GameplayState)
    (tick : nat -> Q -> GameplayState -> GameplayState) : Collaborators := {|
  dist := axis_dist;
  get_angle := axis_angle;
  get_angle_smallest_dif := fun a b => Qabs (a - b);
  rectangles_intersect := fun _ _ _ _ _ _ => (false, 0, 0);
  circle_intersects_rectangle := fun _ _ _ _ _ => (false, 0, 0);
  TAU := 6283186 # 1000000;
  get_distance_between :=
    fun a b d => Qmax 0 (d - (radius a + radius b));
  can_hunt := fun _ _ => true;
  can_hurt := fun _ _ => true;
  is_resistant_to_hazards := fun _ _ => false;
  is_mob_in_reach := fun r d a => Qleb d (reach_radius_1 r);
  task_range := fun _ => 20;
  carry_is_full := fun ci => (carry_n_spots ci <=? cur_n_carriers ci)%nat;
  MOB_FLAG_INTANGIBLE := 1;
  MOB_FLAG_UNPUSHABLE := 128;
  INACTIVE_LOGIC_FLAG_TICKS := 1;
  INACTIVE_LOGIC_FLAG_INTERACTIONS := 2;
  PUSH_SOFTLY_AMOUNT := 60;
  PUSH_THROTTLE_TIMEOUT := 1;
  PUSH_THROTTLE_FACTOR := 1;
  PIKMIN_STATE_IDLING := 4;
  PIKMIN_STATE_IDLING_H := 5;
  LEADER_STATE_ACTIVE := 1;
  idle_bump_range := 50;
  AREA_CELL_SIZE := 128;
  run_event := run;
  mob_tick := tick
|}.

(** Handlers and a [Mob::tick] that do nothing. *)
Definition quiet : Collaborators :=
  with_runtime (fun _ _ _ gs => gs) (fun _ _ gs => gs).

Definition every_event : list MOB_EV_TYPE :=
  [ MOB_EV_TOUCHED_OBJECT; MOB_EV_TOUCHED_OPPONENT;
    MOB_EV_OBJECT_IN_REACH; MOB_EV_OPPONENT_IN_REACH;
    MOB_EV_NEAR_CARRIABLE_OBJECT; MOB_EV_NEAR_TOOL; MOB_EV_NEAR_GROUP_TASK;
    MOB_EV_TOUCHED_ACTIVE_LEADER ].

(** A type with states 0 to 5, each handling every touch, reach and
    proximity event; it pushes with its body. *)
Definition plain_type (cat : MOB_CATEGORY) (with_hitboxes : bool) : MobType :=
  mkMobType cat 0 true true with_hitboxes false
    (map (fun i => mkMobState i every_event) [0; 1; 2; 3; 4; 5]%Z)
    [mkReach 0 100 0 100].

(** A circular mob of radius 5 and height 10 standing at [(x, 0)]. *)
Definition plain_mob (ty : MobType) (st : nat) (x : Q) (fl : Z)
    (alive : Q) (active : bool) : Mob :=
  mkMob ty ClassOther st (mkPoint x 0) 0 10 5 (mkPoint 0 0) 0 1 0 fl alive
    active false None 100 5 50 (Some 0%nat) false 0 0 None None None
    (Some (mkSprite [mkHitbox HITBOX_TYPE_NORMAL (mkPoint 0 0) 0 10 5 [] 0]))
    (mkHoldInfo None 0) [] [] 0 [].

Definition world (l : list Mob) : GameplayState :=
  mkGameplay l [] [] None (1 # 60) [[true; true]; [true; false]]
    (mkPoint 0 0) (mkPoint 0 0, mkPoint 0 0).

Definition enemy : MobType := plain_type MOB_CATEGORY_ENEMIES false.
Definition pikmin : MobType := plain_type MOB_CATEGORY_PIKMIN false.

(** Two overlapping enemies, three units apart. *)
Definition two_enemies : GameplayState :=
  world [plain_mob enemy 0 0 0 5 true; plain_mob enemy 0 3 0 5 true].

(** The same, the second one intangible. *)
Definition enemy_and_ghost : GameplayState :=
  world [plain_mob enemy 0 0 0 5 true; plain_mob enemy 0 3 1 5 true].

(** Pikmin and enemy types that push with their hitboxes. *)
Definition hitbox_pikmin : MobType := plain_type MOB_CATEGORY_PIKMIN true.
Definition hitbox_enemy : MobType := plain_type MOB_CATEGORY_ENEMIES true.

(** An idling Pikmin at [(x, 0)] (state 4 has the idling id). *)
Definition idle_pikmin (x : Q) : Mob := plain_mob pikmin 4 x 0 5 true.

(** An enemy at [(x, 0)] that has been alive for [alive] seconds. *)
Definition enemy_aged (x alive : Q) : Mob := plain_mob enemy 0 x 0 alive true.

(** Every handler call moves the mob it runs on to state 1. *)
Definition switching : Collaborators :=
  with_runtime
    (fun _ m _ gs =>
       match mobs_all gs !! m with
       | Some mp => write_mob gs m (set_cur_state mp 1)
       | None => gs
       end)
    (fun _ _ gs => gs).

(** An enemy at the origin with three others 25, 15 and 20 units away:
    their edges are 15, 5 and 10 units from its edge. *)
Definition one_and_three : GameplayState :=
  world [plain_mob enemy 0 0 0 5 true; plain_mob enemy 0 25 0 5 true;
         plain_mob enemy 0 15 0 5 true; plain_mob enemy 0 20 0 5 true].

(** A type whose single state handles the object-in-reach event only. *)
Definition watcher : MobType :=
  mkMobType MOB_CATEGORY_ENEMIES 0 true true false false
    [mkMobState 0 [MOB_EV_OBJECT_IN_REACH]] [mkReach 0 100 0 100].

(** A circular mob of type [ty] and radius [r] at [(x, 0)], with no
    sprite, whose physical span is its radius and whose interaction span
    is [reach]. *)
Definition round_mob (ty : MobType) (x r reach : Q) : Mob :=
  mkMob ty ClassOther 0 (mkPoint x 0) 0 10 r (mkPoint 0 0) 0 1 0 0 5
    true false None reach r 50 (Some 0%nat) false 0 0 None None None
    None (mkHoldInfo None 0) [] [] 0 [].


(** A mob of type [ty] at [(x, y)], child of the mob with index [p] when
    given. *)
Definition mob_at (ty : MobType) (x y : Q) (p : option nat) : Mob :=
  mkMob ty ClassOther 0 (mkPoint x y) 0 10 5 (mkPoint 0 0) 0 1 0 0 5
    false false None 100 5 50 (Some 0%nat) false 0 0 None None p
    None (mkHoldInfo None 0) [] [] 0 [].

Definition enemy_at (x y : Q) (p : option nat) : Mob := mob_at enemy x y p.

Definition leader : MobType := plain_type MOB_CATEGORY_LEADERS false.



(** A mob in the inactive cell (1, 1), its child outside the grid, and
    that child's child in the active cell (0, 0). *)
Definition chain_of_three : GameplayState :=
  world [enemy_at 200 200 None; enemy_at 900 10 (Some 0%nat);
         enemy_at 10 10 (Some 1%nat)].

(** A [Mob::tick] that marks the mob for deletion and spawns a new enemy
    far away, appended to the mob list. *)
Definition spawning : Collaborators :=
  with_runtime
    (fun _ _ _ gs => gs)
    (fun m _ gs =>
       match mobs_all gs !! m with
       | Some mp =>
           set_mobs gs
             (<[m := set_to_delete mp true]> (mobs_all gs) ++
              [plain_mob enemy 0 5000 0 0 true])
       | None => gs
       end).

(** A 4 by 4 grid of inactive cells of 128 units, an enemy at (300, 10),
    a Pikmin at (300, 300) and a leader at (10, 10), the camera looking at
    the cell (3, 0). *)
Definition grid_world : GameplayState :=
  mkGameplay
    [enemy_at 300 10 None; mob_at pikmin 300 300 None;
     mob_at leader 10 10 None]
    [1%nat] [2%nat] (Some 2%nat) (1 # 60)
    (replicate 4 (replicate 4 false))
    (mkPoint 0 0) (mkPoint 400 0, mkPoint 500 100).

End Examples.

(* ===================================================================== *)
(** ** A concrete pair of mobs with hitbox handlers *)
(* ===================================================================== *)

Module Arena.
Import Examples.

Local Open Scope Q_scope.

Definition hitbox_events : list MOB_EV_TYPE :=
  [ MOB_EV_HITBOX_TOUCH_A_N; MOB_EV_HITBOX_TOUCH_N_A;
    MOB_EV_HITBOX_TOUCH_N_N; MOB_EV_HITBOX_TOUCH_EAT;
    MOB_EV_TOUCHED_HAZARD ].

(** An enemy type whose single state handles every hitbox event. *)
Definition fighter : MobType :=
  mkMobType MOB_CATEGORY_ENEMIES 0 true true false false
    [mkMobState 0 hitbox_events] [].

(** A body hitbox, a bite hitbox carrying the hazards 7 and 8, and a
    disabled one, all at the centre of the mob. *)
Definition fighter_sprite : Sprite :=
  mkSprite
    [ mkHitbox HITBOX_TYPE_NORMAL (mkPoint 0 0) 0 10 5 [] 0;
      mkHitbox HITBOX_TYPE_ATTACK (mkPoint 0 0) 0 10 5 [7%nat; 8%nat] 1;
      mkHitbox HITBOX_TYPE_DISABLED (mkPoint 0 0) 0 10 5 [] 2 ].

(** A fighter at [(x, 0)] that can chomp one mob by its body part 0. *)
Definition fighter_at (x : Q) : Mob :=
  mkMob fighter ClassOther 0 (mkPoint x 0) 0 10 5 (mkPoint 0 0) 0 1 0 0 5
    true false None 100 5 50 None false 0 0 None None None
    (Some fighter_sprite) (mkHoldInfo None 0) [] [] 1 [0%nat].

(** Two fighters three units apart. *)
Definition duel : GameplayState := world [fighter_at 0; fighter_at 3].

(** An enemy type whose single state handles the hazard event and no
    hitbox touch event. *)
Definition wary : MobType :=
  mkMobType MOB_CATEGORY_ENEMIES 0 true true false false
    [mkMobState 0 [MOB_EV_TOUCHED_HAZARD]] [].

Definition wary_at (x : Q) : Mob :=
  mkMob wary ClassOther 0 (mkPoint x 0) 0 10 5 (mkPoint 0 0) 0 1 0 0 5
    true false None 100 5 50 None false 0 0 None None None
    (Some fighter_sprite) (mkHoldInfo None 0) [] [] 1 [0%nat].

(** A wary mob standing in the bite of a fighter. *)
Definition ambush : GameplayState := world [wary_at 0; fighter_at 3].

(** The 4 by 4 grid of [grid_world] with no Pikmin and no leader, and an
    enemy in the camera box. *)
Definition watched : GameplayState :=
  mkGameplay [enemy_at 450 50 None] [] [] None (1 # 60)
    (replicate 4 (replicate 4 false))
    (mkPoint 0 0) (mkPoint 400 0, mkPoint 500 100).

End Arena.
(* ===================================================================== *)
(** ** A small data file, animation database and bitmap *)
(* ===================================================================== *)

Module Workshop.

Local Open Scope Q_scope.

(** The lines of a data file with no sub-node, in which [name] is set
    twice. *)
Definition settings : list DataFile.text :=
  list_ascii_of_string <$>
    [ "name = a"; "  // a comment"; "name=b"; "size = 3" ]%string.

(** The same file with the size in a sub-node, and a line after a stray
    closing brace. *)
Definition nested_settings : list DataFile.text :=
  list_ascii_of_string <$>
    [ "name = a"; "box {"; "  size = 3"; "}"; "}"; "late = 1" ]%string.

Definition part_hitbox (n : string) : AnimEditor.Hitbox :=
  AnimEditor.mkHitbox n (mkPoint 0 0) 0 128 32.

(** A sprite with a hitbox for the body and one for the head. *)
Definition puppet_sprite (n : string) : AnimEditor.Sprite :=
  AnimEditor.mkSprite n (mkPoint 1 1) (mkPoint 0 0) (mkPoint 0 0)
    (mkPoint 5 5) [part_hitbox "body"; part_hitbox "head"].

(** A database with two animations over three sprites. *)
Definition puppet : AnimEditor.AnimationDatabase :=
  AnimEditor.mkDb
    [ AnimEditor.mkAnimation "walk"
        [ AnimEditor.mkFrame "walk_1" (1 # 10);
          AnimEditor.mkFrame "walk_2" (1 # 10) ];
      AnimEditor.mkAnimation "idle" [ AnimEditor.mkFrame "idle" 1 ] ]
    [ puppet_sprite "walk_1"; puppet_sprite "walk_2"; puppet_sprite "idle" ]
    [ AnimEditor.mkBodyPart "body"; AnimEditor.mkBodyPart "head" ].

(** A bitmap of 3 by 2 pixels whose right column is transparent. *)
Definition strip : FloodFill.Bitmap :=
  FloodFill.mkBitmap (fun x _ => if (x <? 2)%nat then 1 else 0) 3 2.

End Workshop.


(* ===================================================================== *)
(** ** Comparisons on rationals *)
(* ===================================================================== *)

Module NumFacts.

Lemma Qleb_le a b : Qleb a b = true <-> (a <= b)%Q.
Proof. apply Qle_bool_iff. Qed.

Lemma Qleb_gt a b : Qleb a b = false <-> (b < a)%Q.
Proof.
  unfold Qleb. split; intros E.
  - apply Qnot_le_lt. intros L. apply Qle_bool_iff in L. congruence.
  - destruct (Qle_bool a b) eqn:L; [|done].
    apply Qle_bool_iff in L. exfalso. eapply Qlt_not_le; eauto.
Qed.

Lemma Qltb_lt a b : Qltb a b = true <-> (a < b)%Q.
Proof. unfold Qltb. rewrite negb_true_iff. apply Qleb_gt. Qed.

Lemma Qltb_ge a b : Qltb a b = false <-> (b <= a)%Q.
Proof. unfold Qltb. rewrite negb_false_iff. apply Qle_bool_iff. Qed.

Lemma Qeqb_eq a b : Qeqb a b = true <-> (a == b)%Q.
Proof. apply Qeq_bool_iff. Qed.

End NumFacts.

Import NumFacts.

(* ===================================================================== *)
(** ** Facts about the resolver's log and the mobs it leaves alone *)
(* ===================================================================== *)

Module ResolverFacts.
Import Resolver ResolverSpec.
Section WithCollaborators.
Context `{C : Collaborators}.

Local Open Scope Q_scope.

Lemma extends_touch_free_refl s : extends_touch_free s s.
Proof. exists []. split; [by rewrite app_nil_r | constructor]. Qed.

Lemma extends_touch_free_trans s1 s2 s3 :
  extends_touch_free s1 s2 -> extends_touch_free s2 s3 ->
  extends_touch_free s1 s3.
Proof.
  intros (e1 & H1 & F1) (e2 & H2 & F2). exists (e1 ++ e2). split.
  - rewrite H2, H1. by rewrite app_assoc.
  - by apply Forall_app.
Qed.

Lemma raise_log ev m p s : snd (raise ev m p s) = snd s ++ [mkRaised ev m p].
Proof. reflexivity. Qed.

Lemma raise_extends ev m p s :
  ev_type ev <> MOB_EV_TOUCHED_OBJECT ->
  ev_type ev <> MOB_EV_TOUCHED_OPPONENT ->
  extends_touch_free s (raise ev m p s).
Proof.
  intros H1 H2. exists [mkRaised ev m p]. split; [done|].
  constructor; [|constructor]. unfold is_touch_call. simpl.
  rewrite !bool_decide_eq_false_2; done.
Qed.

Lemma get_event_type mp t ev : get_event mp t = Some ev -> ev_type ev = t.
Proof.
  unfold get_event. destruct (states (mob_type mp) !! fsm_cur_state mp); [|done].
  case_bool_decide; [|done]. by intros [= <-].
Qed.

Lemma get_event_now_type gs m t ev :
  get_event_now gs m t = Some ev -> ev_type ev = t.
Proof.
  unfold get_event_now. destruct (mobs_all gs !! m); [|done].
  apply get_event_type.
Qed.

Ltac typed_tac :=
  constructor; simpl; intros ? ?;
  first [ by simplify_eq
        | eauto using get_event_now_type, th_an, th_na, th_nn, th_eat, th_haz ].

Lemma hitbox_an_block_inv s0 m m2 h1 h2 h1p h2p st :
  hitbox_inv s0 st -> hitbox_inv s0 (hitbox_an_block m m2 h1 h2 h1p h2p st).
Proof.
  intros [E T]. unfold hitbox_an_block.
  destruct (hl_an_ev st) as [ev|] eqn:Hev; [|done].
  destruct (_ && _); [|done].
  pose proof (th_an _ T _ Hev) as Ht.
  split; simpl.
  - eapply extends_touch_free_trans; [exact E|].
    apply raise_extends; rewrite Ht; done.
  - typed_tac.
Qed.

Lemma hitbox_nn_block_inv s0 m m2 h1 h2 h1p h2p st :
  hitbox_inv s0 st -> hitbox_inv s0 (hitbox_nn_block m m2 h1 h2 h1p h2p st).
Proof.
  intros [E T]. unfold hitbox_nn_block.
  destruct (hl_nn_ev st) as [ev|] eqn:Hev; [|done].
  destruct (_ && _); [|done].
  pose proof (th_nn _ T _ Hev) as Ht.
  split; simpl.
  - eapply extends_touch_free_trans; [exact E|].
    apply raise_extends; rewrite Ht; done.
  - typed_tac.
Qed.

Lemma hitbox_eat_block_inv s0 m m2 h2 h1p h2p das m2p st :
  hitbox_inv s0 st ->
  hitbox_inv s0 (hitbox_eat_block m m2 h2 h1p h2p das m2p st).
Proof.
  intros [E T]. unfold hitbox_eat_block.
  destruct (hl_eat_ev st) as [ev|] eqn:Hev; [|done].
  destruct (_ && _); [|done].
  pose proof (th_eat _ T _ Hev) as Ht.
  split; simpl.
  - eapply extends_touch_free_trans; [exact E|].
    apply raise_extends; rewrite Ht; done.
  - typed_tac.
Qed.

Lemma raise_hazards_extends ev m m2 h1 h2 hz s :
  ev_type ev = MOB_EV_TOUCHED_HAZARD ->
  extends_touch_free s
    (fold_left (fun acc x => raise ev m (PayloadHazard x m2 h1 h2) acc) hz s).
Proof.
  intros Ht. revert s. induction hz as [|x hz IH]; intros s; simpl.
  - apply extends_touch_free_refl.
  - eapply extends_touch_free_trans; [|apply IH].
    apply raise_extends; rewrite Ht; done.
Qed.

Lemma hitbox_haz_block_inv s0 m m2 h1 h2 h1p h2p das st :
  hitbox_inv s0 st ->
  hitbox_inv s0 (hitbox_haz_block m m2 h1 h2 h1p h2p das st).
Proof.
  intros [E T]. unfold hitbox_haz_block.
  destruct (hl_haz_ev st) as [ev|] eqn:Hev; [|done].
  destruct (_ && _); [|done].
  pose proof (th_haz _ T _ Hev) as Ht.
  split; simpl.
  - eapply extends_touch_free_trans; [exact E|].
    by apply raise_hazards_extends.
  - typed_tac.
Qed.

Lemma hitbox_na_block_inv s0 m m2 h1 h2 h1p h2p das st :
  hitbox_inv s0 st ->
  hitbox_inv s0 (hitbox_na_block m m2 h1 h2 h1p h2p das st).
Proof.
  intros [E T]. unfold hitbox_na_block.
  destruct (hl_na_ev st) as [ev|] eqn:Hev; [|done].
  destruct (_ && _); [|done].
  pose proof (th_na _ T _ Hev) as Ht.
  split; simpl.
  - eapply extends_touch_free_trans; [exact E|].
    apply raise_extends; rewrite Ht; done.
  - typed_tac.
Qed.

Lemma hitbox_damage_blocks_inv s0 m m2 h1 h2 h1p h2p st :
  hitbox_inv s0 st ->
  hitbox_inv s0 (hitbox_damage_blocks m m2 h1 h2 h1p h2p st).
Proof.
  intros I. unfold hitbox_damage_blocks.
  destruct (mobs_all _ !! m); [|done].
  destruct (mobs_all _ !! m2); [|done].
  destruct (_ && _); [done|].
  by apply hitbox_na_block_inv, hitbox_haz_block_inv, hitbox_eat_block_inv.
Qed.

Lemma hitbox_inner_step_inv s0 m m2 h1 h1p st h2e :
  hitbox_inv s0 st -> hitbox_inv s0 (hitbox_inner_step m m2 h1 h1p st h2e).
Proof.
  intros I. unfold hitbox_inner_step. destruct h2e as [h2 h2p].
  case_bool_decide; [done|].
  destruct (mobs_all _ !! m); [|done].
  destruct (mobs_all _ !! m2); [|done].
  destruct (hitboxes_collide _ _ _ _ _ _ _ _); [|done].
  by apply hitbox_damage_blocks_inv, hitbox_nn_block_inv, hitbox_an_block_inv.
Qed.

Lemma fold_left_inv {A B} (P : A -> Prop) (f : A -> B -> A) l a :
  (forall a b, P a -> P (f a b)) -> P a -> P (fold_left f l a).
Proof.
  intros Hf. revert a. induction l as [|b l IH]; intros a Ha; simpl; auto.
Qed.

Lemma hitbox_outer_step_inv s0 m m2 s2 st h1e :
  hitbox_inv s0 st -> hitbox_inv s0 (hitbox_outer_step m m2 s2 st h1e).
Proof.
  intros I. unfold hitbox_outer_step. destruct h1e as [h1 h1p].
  case_bool_decide; [done|].
  apply fold_left_inv; [|done].
  intros. by apply hitbox_inner_step_inv.
Qed.

(** The hitbox section only appends calls of hitbox events to the log. *)
Lemma hitbox_section_touch_free m m2 s :
  extends_touch_free s (hitbox_section m m2 s).
Proof.
  unfold hitbox_section.
  destruct (mobs_all (fst s) !! m) as [mp|]; [|apply extends_touch_free_refl].
  destruct (mobs_all (fst s) !! m2) as [m2p|]; [|apply extends_touch_free_refl].
  destruct (cur_sprite mp) as [s1|]; [|apply extends_touch_free_refl].
  destruct (cur_sprite m2p) as [s2|]; [|apply extends_touch_free_refl].
  destruct (_ && _); [|apply extends_touch_free_refl].
  match goal with
  | |- extends_touch_free _ (hl_rs (fold_left ?f ?l ?a)) =>
      assert (hitbox_inv s (fold_left f l a)) as [E _]; [|exact E]
  end.
  apply fold_left_inv.
  - intros. by apply hitbox_outer_step_inv.
  - split; [apply extends_touch_free_refl|].
    constructor; simpl; intros ? ?; eauto using get_event_type.
Qed.

(** The push section touches nothing but the two push members. *)
Lemma set_push_get_event mp a g t : get_event (set_push mp a g) t = get_event mp t.
Proof. reflexivity. Qed.

Lemma push_section_cases mp m2p m m2 d dt :
  push_section mp m2p m m2 d dt = mp \/
  exists a g, push_section mp m2p m m2 d dt = set_push mp a g.
Proof.
  unfold push_section. destruct (push_gate _ _ _ _); [|by left].
  destruct (compute_push _ _ _ _ _ _) as [a g].
  destruct (Qltb _ _); [right; eauto | by left].
Qed.

End WithCollaborators.
End ResolverFacts.

(* ===================================================================== *)
(** ** Touch events and intangible mobs *)
(* ===================================================================== *)

Module TouchProps.
Import Resolver ResolverSpec ResolverFacts.
Section WithCollaborators.
Context `{C : Collaborators}.

Local Open Scope Q_scope.

Lemma write_mob_same gs m mp :
  mobs_all gs !! m = Some mp -> write_mob gs m mp = gs.
Proof.
  intros H. unfold write_mob, set_mobs. rewrite list_insert_id by done.
  by destruct gs.
Qed.

Lemma write_mob_lookup_eq gs m mp mp' :
  mobs_all gs !! m = Some mp -> mobs_all (write_mob gs m mp') !! m = Some mp'.
Proof.
  intros H. simpl. apply list_lookup_insert_eq. by eapply lookup_lt_Some.
Qed.

Lemma write_mob_lookup_ne gs m m2 mp' :
  m <> m2 -> mobs_all (write_mob gs m mp') !! m2 = mobs_all gs !! m2.
Proof. intros H. simpl. by apply list_lookup_insert_ne. Qed.

Lemma push_section_get_event mp m2p m m2 d dt t :
  get_event (push_section mp m2p m m2 d dt) t = get_event mp t.
Proof.
  destruct (push_section_cases mp m2p m m2 d dt) as [->|(a & g & ->)]; done.
Qed.

Lemma push_section_z_touch mp m2p m m2 d dt x :
  z_touch (push_section mp m2p m m2 d dt) x = z_touch mp x.
Proof.
  destruct (push_section_cases mp m2p m m2 d dt) as [->|(a & g & ->)]; done.
Qed.

Lemma push_section_xy_collision mp m2p m m2 d dt x d' :
  xy_collision (push_section mp m2p m m2 d dt) x d' = xy_collision mp x d'.
Proof.
  destruct (push_section_cases mp m2p m m2 d dt) as [->|(a & g & ->)]; done.
Qed.

(** The touch section, on a pair that overlaps and whose second mob is
    tangible. *)
Lemma touch_section_overlapping gs log m m2 d m2p mp0 :
  m <> m2 ->
  mobs_all gs !! m = Some mp0 ->
  mobs_all gs !! m2 = Some m2p ->
  let mp := push_section mp0 m2p m m2 d (delta_t gs) in
  z_touch mp0 m2p = true ->
  xy_collision mp0 m2p d = true ->
  is_intangible m2p = false ->
  snd (touch_section m m2 d (write_mob gs m mp, log)) =
    log ++ touch_object_call mp0 m m2 ++ touch_opponent_call gs mp0 m2p m m2 d.
Proof.
  intros Hne Hm Hm2 mp1 Hz Hxy Hint.
  unfold touch_section. cbn [fst snd].
  rewrite (write_mob_lookup_eq _ _ _ _ Hm), write_mob_lookup_ne, Hm2 by done.
  subst mp1. rewrite !push_section_get_event, push_section_z_touch,
    push_section_xy_collision, Hz, Hxy, Hint. cbn [negb andb].
  unfold touch_object_call, touch_opponent_call, after_touch_object.
  destruct (get_event mp0 MOB_EV_TOUCHED_OBJECT) as [ob|] eqn:Hob;
    destruct (get_event mp0 MOB_EV_TOUCHED_OPPONENT) as [op|] eqn:Hop;
    cbn [bool_decide is_Some orb].
  - rewrite bool_decide_eq_true_2 by eauto. cbn [orb].
    cbn [raise fst snd].
    destruct (can_hunt_now _ _ _); cbn [raise fst snd];
      rewrite <- ?app_assoc; done.
  - rewrite bool_decide_eq_false_2 by (intros [? ?]; done).
    rewrite bool_decide_eq_true_2 by eauto. cbn [orb raise fst snd].
    by rewrite app_nil_r.
  - rewrite bool_decide_eq_true_2 by eauto. cbn [orb].
    destruct (can_hunt_now _ _ _); cbn [raise fst snd app]; [done|].
    by rewrite app_nil_r.
  - rewrite !bool_decide_eq_false_2 by (intros [? ?]; done).
    cbn [orb app snd]. by rewrite app_nil_r.
Qed.

(** The touch section does nothing when the second mob is intangible. *)
Lemma touch_section_intangible m m2 d s m2p :
  mobs_all (fst s) !! m2 = Some m2p ->
  is_intangible m2p = true ->
  touch_section m m2 d s = s.
Proof.
  intros Hm2 Hint. unfold touch_section.
  destruct (mobs_all (fst s) !! m) as [mp|]; [|done].
  rewrite Hm2, Hint. cbn [negb]. rewrite andb_false_r. cbn [andb].
  by destruct (_ || _).
Qed.

(** No push is computed from an intangible mob. *)
Lemma push_section_intangible mp m2p m m2 d dt :
  is_intangible m2p = true -> push_section mp m2p m m2 d dt = mp.
Proof.
  intros Hint. unfold push_section, push_gate, ok_to_push.
  unfold is_intangible in Hint. rewrite Hint, orb_true_r. done.
Qed.

End WithCollaborators.
End TouchProps.

(* ===================================================================== *)
(** ** Claims on touch events *)
(* ===================================================================== *)

Module TouchClaims.
Import Resolver ResolverSpec ResolverFacts TouchProps.

Local Open Scope Q_scope.

(** C2, as amended.  For a pair handed to [process_mob_touches] whose
    shapes overlap in XY at overlapping height ranges (a height of 0
    matching any height) and whose second mob is not intangible: when the
    push computation reads the sprite of a second mob that pushes with its
    hitboxes and has none, the call does not return and no handler is
    called; otherwise it returns, and the handler calls logged are
    exactly: the on-touch-object handler of the first mob's state if it
    has one, then the on-touch-opponent handler if it has one and
    [can_hunt] holds once the object handler has run, then calls of hitbox
    events only.  The statement holds in whatever state the function is
    called, so on every tick of a lasting overlap. *)
Theorem C2_touch_events_on_tangible_overlap `{C : Collaborators}
    (s : RS) (m m2 : nat) (d : Q) (mp m2p : Mob) :
  m <> m2 ->
  mobs_all (fst s) !! m = Some mp ->
  mobs_all (fst s) !! m2 = Some m2p ->
  z_touch mp m2p = true ->
  xy_collision mp m2p d = true ->
  is_intangible m2p = false ->
  (reads_null_sprite mp m2p m m2 = true ->
   process_mob_touches_run m m2 d s = None) /\
  (reads_null_sprite mp m2p m m2 = false ->
   exists s' hitbox_calls,
     process_mob_touches_run m m2 d s = Some s' /\
     snd s' =
       snd s ++ (touch_object_call mp m m2 ++
                 touch_opponent_call (fst s) mp m2p m m2 d) ++ hitbox_calls
     /\ touch_free hitbox_calls).
Proof.
  intros Hne Hm Hm2 Hz Hxy Hint.
  unfold process_mob_touches_run. rewrite Hm, Hm2.
  split; [by intros ->|]. intros ->.
  unfold process_mob_touches. rewrite Hm, Hm2.
  destruct (hitbox_section_touch_free m m2
    (touch_section m m2 d
       (write_mob (fst s) m (push_section mp m2p m m2 d (delta_t (fst s))),
        snd s))) as (extra & Hlog & Hfree).
  eexists _, extra. split; [reflexivity|]. split; [|done].
  rewrite Hlog, (touch_section_overlapping (fst s) (snd s) m m2 d m2p mp)
    by done.
  by rewrite <- !app_assoc.
Qed.

Lemma C2_touch_events_on_tangible_overlap_witness :
  let mp := Examples.plain_mob Examples.enemy 0 0 0 5 true in
  let m2p := Examples.plain_mob Examples.enemy 0 3 0 5 true in
  let s : RS := (Examples.two_enemies, []) in
  (reads_null_sprite (C := Examples.quiet) mp m2p 0 1 = true ->
   process_mob_touches_run (C := Examples.quiet) 0 1 3 s = None) /\
  (reads_null_sprite (C := Examples.quiet) mp m2p 0 1 = false ->
   exists s' hitbox_calls,
     process_mob_touches_run (C := Examples.quiet) 0 1 3 s = Some s' /\
     snd s' =
       snd s ++ (touch_object_call mp 0 1 ++
                 touch_opponent_call (C := Examples.quiet) (fst s) mp m2p
                   0 1 3) ++ hitbox_calls
     /\ touch_free hitbox_calls).
Proof.
  apply (C2_touch_events_on_tangible_overlap (C := Examples.quiet)
           (Examples.two_enemies, []) 0 1 3
           (Examples.plain_mob Examples.enemy 0 0 0 5 true)
           (Examples.plain_mob Examples.enemy 0 3 0 5 true)).
  - lia.
  - reflexivity.
  - reflexivity.
  - vm_compute; reflexivity.
  - vm_compute; reflexivity.
  - vm_compute; reflexivity.
Defined.

(** An enemy overlapped by one that pushes with its hitboxes and has no
    sprite data: the push computation is entered and reads the missing
    sprite. *)
Example pusher_without_sprite :
  let mp := Examples.plain_mob Examples.enemy 0 0 0 5 true in
  let m2p := Examples.round_mob Examples.hitbox_enemy 3 5 100 in
  reads_null_sprite (C := Examples.quiet) mp m2p 0 1 = true /\
  process_mob_touches_run (C := Examples.quiet) 0 1 3
    (Examples.world [mp; m2p], []) = None.
Proof. vm_compute. split; reflexivity. Qed.

(** C2 as stated fails: two circles three units apart with radii of 5, at
    the same height, the first one handling both touch events and allowed
    to hunt the second; the second is intangible, and no handler is
    called. *)
Lemma C2_counterexample_intangible :
  let mp := Examples.plain_mob Examples.enemy 0 0 0 5 true in
  let m2p := Examples.plain_mob Examples.enemy 0 3 1 5 true in
  mobs_all Examples.enemy_and_ghost !! 0%nat = Some mp /\
  mobs_all Examples.enemy_and_ghost !! 1%nat = Some m2p /\
  z_touch mp m2p = true /\
  xy_collision (C := Examples.quiet) mp m2p 3 = true /\
  is_Some (get_event mp MOB_EV_TOUCHED_OBJECT) /\
  is_Some (get_event mp MOB_EV_TOUCHED_OPPONENT) /\
  can_hunt (Collaborators := Examples.quiet) mp m2p = true /\
  snd (process_mob_touches (C := Examples.quiet) 0 1 3
         (Examples.enemy_and_ghost, [])) = [].
Proof.
  vm_compute. repeat split; eauto.
Qed.

(** C10.  When the second mob of a pair handed to [process_mob_touches] is
    intangible, the push section leaves the first mob as it is, the touch
    section calls no handler, and whatever the function logs is a call of
    a hitbox event, never of a touch event. *)
Theorem C10_intangible_no_touch_no_push `{C : Collaborators}
    (s : RS) (m m2 : nat) (d : Q) (mp m2p : Mob) :
  mobs_all (fst s) !! m = Some mp ->
  mobs_all (fst s) !! m2 = Some m2p ->
  is_intangible m2p = true ->
  push_section mp m2p m m2 d (delta_t (fst s)) = mp /\
  process_mob_touches m m2 d s = hitbox_section m m2 s /\
  exists calls,
    snd (process_mob_touches m m2 d s) = snd s ++ calls /\ touch_free calls.
Proof.
  intros Hm Hm2 Hint.
  assert (process_mob_touches m m2 d s = hitbox_section m m2 s) as Heq.
  { unfold process_mob_touches. rewrite Hm, Hm2.
    rewrite push_section_intangible, write_mob_same by done.
    rewrite (touch_section_intangible m m2 d (fst s, snd s) m2p) by done.
    by destruct s. }
  split; [by apply push_section_intangible|]. split; [done|].
  rewrite Heq. apply hitbox_section_touch_free.
Qed.

Lemma C10_intangible_no_touch_no_push_witness :
  let mp := Examples.plain_mob Examples.enemy 0 0 0 5 true in
  let m2p := Examples.plain_mob Examples.enemy 0 3 1 5 true in
  let s := (Examples.enemy_and_ghost, []) in
  push_section (C := Examples.quiet) mp m2p 0 1 3 (delta_t (fst s)) = mp /\
  process_mob_touches (C := Examples.quiet) 0 1 3 s =
    hitbox_section (C := Examples.quiet) 0 1 s /\
  exists calls,
    snd (process_mob_touches (C := Examples.quiet) 0 1 3 s) = snd s ++ calls
    /\ touch_free calls.
Proof.
  apply (C10_intangible_no_touch_no_push (C := Examples.quiet)
           (Examples.enemy_and_ghost, []) 0 1 3); reflexivity.
Defined.

End TouchClaims.

(* ===================================================================== *)
(** ** Claims on the push *)
(* ===================================================================== *)

Module PushClaims.
Import Resolver ResolverSpec ResolverFacts.

Local Open Scope Q_scope.

Lemma both_idle_pikmin_sym `{C : Collaborators} (a b : Mob) :
  both_idle_pikmin a b = both_idle_pikmin b a.
Proof.
  unfold both_idle_pikmin.
  destruct (bool_decide (category_id (mob_type a) = _)),
    (bool_decide (category_id (mob_type b) = _)),
    (is_in_state a PIKMIN_STATE_IDLING || is_in_state a PIKMIN_STATE_IDLING_H),
    (is_in_state b PIKMIN_STATE_IDLING || is_in_state b PIKMIN_STATE_IDLING_H);
    reflexivity.
Qed.

(** The push computed for a colliding pair of idle Pikmin by a body
    pusher. *)
Lemma idle_pikmin_push `{C : Collaborators} (mp m2p : Mob) (m m2 : nat)
    (d dt : Q) :
  both_idle_pikmin mp m2p = true ->
  pushes_with_hitboxes (mob_type m2p) = false ->
  fst (fst (body_collision mp m2p d)) = true ->
  compute_push mp m2p m m2 d dt =
    (1 # 10, snd (body_collision mp m2p d) + (1 # 10) * index_jitter m m2).
Proof.
  intros Hidle Hhb Hxy. unfold compute_push, body_push. rewrite Hhb.
  destruct (body_collision mp m2p d) as [[xy a] g]. simpl in Hxy.
  rewrite Hxy, Hidle. reflexivity.
Qed.

Lemma body_collision_circles_same_pos `{C : Collaborators} (a b : Mob) (d : Q) :
  is_rectangular a = false -> is_rectangular b = false ->
  pos a = pos b ->
  fst (fst (body_collision a b d)) = true ->
  snd (body_collision a b d) = get_angle (pos a) (pos a).
Proof.
  intros Ha Hb Hp. unfold body_collision. rewrite Ha, Hb. simpl.
  destruct (Qleb d _); simpl; [|done]. by rewrite Hp.
Qed.

(** C6, as amended.  Take two mobs of the Pikmin category, both in the
    idling or the held-idling state, neither of a type that pushes with
    its hitboxes, whose bodies collide, the one with index [hi] above the
    one with index [lo].  The push computed for each from the other has
    magnitude exactly 0.1, whatever the overlap; the angle computed for
    the higher-indexed mob is the collision angle plus 0.1, the angle for
    the lower-indexed mob is the collision angle unchanged; and when both
    are circles at one position the two angles differ by exactly 0.1. *)
Theorem C6_idle_pikmin_reduced_jittered_push `{C : Collaborators}
    (hp lp : Mob) (hi lo : nat) (d dt : Q) :
  (lo < hi)%nat ->
  both_idle_pikmin hp lp = true ->
  pushes_with_hitboxes (mob_type hp) = false ->
  pushes_with_hitboxes (mob_type lp) = false ->
  fst (fst (body_collision hp lp d)) = true ->
  fst (fst (body_collision lp hp d)) = true ->
  fst (compute_push hp lp hi lo d dt) = 1 # 10 /\
  fst (compute_push lp hp lo hi d dt) = 1 # 10 /\
  snd (compute_push hp lp hi lo d dt) == snd (body_collision hp lp d) + (1 # 10) /\
  snd (compute_push lp hp lo hi d dt) == snd (body_collision lp hp d) /\
  (is_rectangular hp = false -> is_rectangular lp = false ->
   pos hp = pos lp ->
   snd (compute_push hp lp hi lo d dt) - snd (compute_push lp hp lo hi d dt)
     == 1 # 10).
Proof.
  intros Hlt Hidle Hh Hl Hc1 Hc2.
  pose proof Hidle as Hidle'. rewrite both_idle_pikmin_sym in Hidle'.
  rewrite (idle_pikmin_push hp lp hi lo d dt) by done.
  rewrite (idle_pikmin_push lp hp lo hi d dt) by done.
  unfold index_jitter.
  replace (lo <? hi)%nat with true by (symmetry; apply Nat.ltb_lt; lia).
  replace (hi <? lo)%nat with false by (symmetry; apply Nat.ltb_ge; lia).
  cbn [fst snd].
  split; [reflexivity|]. split; [reflexivity|].
  split; [ring|]. split; [ring|].
  intros Hr1 Hr2 Hp.
  {
    rewrite (body_collision_circles_same_pos hp lp d) by done.
    rewrite (body_collision_circles_same_pos lp hp d) by done.
    rewrite Hp. ring. }
Qed.

Lemma C6_idle_pikmin_reduced_jittered_push_witness :
  let hp := Examples.idle_pikmin 0 in
  let lp := Examples.idle_pikmin 0 in
  fst (compute_push (C := Examples.quiet) hp lp 1 0 0 (1 # 60)) = 1 # 10 /\
  fst (compute_push (C := Examples.quiet) lp hp 0 1 0 (1 # 60)) = 1 # 10 /\
  snd (compute_push (C := Examples.quiet) hp lp 1 0 0 (1 # 60))
    == snd (body_collision (C := Examples.quiet) hp lp 0) + (1 # 10) /\
  snd (compute_push (C := Examples.quiet) lp hp 0 1 0 (1 # 60))
    == snd (body_collision (C := Examples.quiet) lp hp 0) /\
  (is_rectangular hp = false -> is_rectangular lp = false ->
   pos hp = pos lp ->
   snd (compute_push (C := Examples.quiet) hp lp 1 0 0 (1 # 60)) -
   snd (compute_push (C := Examples.quiet) lp hp 0 1 0 (1 # 60)) == 1 # 10).
Proof.
  apply (C6_idle_pikmin_reduced_jittered_push (C := Examples.quiet)
           (Examples.idle_pikmin 0) (Examples.idle_pikmin 0) 1 0 0 (1 # 60)).
  - lia.
  - vm_compute; reflexivity.
  - reflexivity.
  - reflexivity.
  - vm_compute; reflexivity.
  - vm_compute; reflexivity.
Defined.

(** C6 as stated fails in two ways.  Two idle Pikmin at one position whose
    type pushes with its hitboxes pass the push gate and get the full
    overlap of 10 as push amount, with no jitter on either angle.  Two
    mobs of one category other than Pikmin (enemies), in the state that
    has the idling id and at one position, get the full overlap of 10 as
    well. *)
Lemma C6_counterexample_hitbox_pushers_and_other_category :
  let hb := Examples.plain_mob Examples.hitbox_pikmin 4 0 0 5 true in
  let en := Examples.plain_mob Examples.enemy 4 0 0 5 true in
  (both_idle_pikmin (C := Examples.quiet) hb hb = true /\
   push_gate (C := Examples.quiet) hb hb 1 0 = true /\
   push_gate (C := Examples.quiet) hb hb 0 1 = true /\
   compute_push (C := Examples.quiet) hb hb 1 0 0 (1 # 60) = (10, 0) /\
   compute_push (C := Examples.quiet) hb hb 0 1 0 (1 # 60) = (10, 0)) /\
  (category_id (mob_type en) = MOB_CATEGORY_ENEMIES /\
   is_in_state en (PIKMIN_STATE_IDLING (Collaborators := Examples.quiet)) = true /\
   push_gate (C := Examples.quiet) en en 1 0 = true /\
   compute_push (C := Examples.quiet) en en 1 0 0 (1 # 60) = (10, 0)).
Proof.
  vm_compute. repeat split.
Qed.

(** C7, as amended.  When the pusher's type pushes with its body (not
    with its hitboxes), the bodies collide, the two mobs are not both idle
    Pikmin, and either has been alive for less than
    [PUSH_THROTTLE_TIMEOUT], the computed push amount is the collision
    amount (capped first for a soft pusher) multiplied by
    [min(time_alive, time_alive2) / PUSH_THROTTLE_TIMEOUT *
    PUSH_THROTTLE_FACTOR]: a factor proportional to the smaller of the two
    ages. *)
Theorem C7_push_throttled_by_min_age `{C : Collaborators}
    (mp m2p : Mob) (m m2 : nat) (d dt : Q) :
  pushes_with_hitboxes (mob_type m2p) = false ->
  fst (fst (body_collision mp m2p d)) = true ->
  both_idle_pikmin mp m2p = false ->
  ((time_alive mp < PUSH_THROTTLE_TIMEOUT) \/
   (time_alive m2p < PUSH_THROTTLE_TIMEOUT)) ->
  ~ PUSH_THROTTLE_TIMEOUT == 0 ->
  let amount :=
    if pushes_softly (mob_type m2p)
    then Qmin (snd (fst (body_collision mp m2p d))) (PUSH_SOFTLY_AMOUNT * dt)
    else snd (fst (body_collision mp m2p d)) in
  fst (compute_push mp m2p m m2 d dt) =
    amount * (Qmin (time_alive mp) (time_alive m2p) / PUSH_THROTTLE_TIMEOUT *
              PUSH_THROTTLE_FACTOR)
  /\ fst (compute_push mp m2p m m2 d dt) ==
       (amount * PUSH_THROTTLE_FACTOR / PUSH_THROTTLE_TIMEOUT) *
       Qmin (time_alive mp) (time_alive m2p).
Proof.
  intros Hhb Hxy Hidle Hyoung Hnz amount.
  assert (fst (compute_push mp m2p m m2 d dt) =
    amount * (Qmin (time_alive mp) (time_alive m2p) / PUSH_THROTTLE_TIMEOUT *
              PUSH_THROTTLE_FACTOR)) as E.
  { subst amount. unfold compute_push, body_push. rewrite Hhb.
    destruct (body_collision mp m2p d) as [[xy a] g]. simpl in Hxy.
    rewrite Hxy, Hidle. cbn [fst snd].
    assert (Qltb (time_alive mp) PUSH_THROTTLE_TIMEOUT ||
            Qltb (time_alive m2p) PUSH_THROTTLE_TIMEOUT = true) as ->.
    { apply orb_true_iff. destruct Hyoung as [H|H]; [left|right];
        by apply Qltb_lt. }
    reflexivity. }
  split; [exact E|]. rewrite E. field. exact Hnz.
Qed.

Lemma C7_push_throttled_by_min_age_witness :
  let mp := Examples.enemy_aged 0 (1 # 4) in
  let m2p := Examples.enemy_aged 3 5 in
  let amount :=
    if pushes_softly (mob_type m2p)
    then Qmin (snd (fst (body_collision (C := Examples.quiet) mp m2p 3)))
           (PUSH_SOFTLY_AMOUNT (Collaborators := Examples.quiet) * (1 # 60))
    else snd (fst (body_collision (C := Examples.quiet) mp m2p 3)) in
  fst (compute_push (C := Examples.quiet) mp m2p 0 1 3 (1 # 60)) =
    amount * (Qmin (time_alive mp) (time_alive m2p) /
              PUSH_THROTTLE_TIMEOUT (Collaborators := Examples.quiet) *
              PUSH_THROTTLE_FACTOR (Collaborators := Examples.quiet))
  /\ fst (compute_push (C := Examples.quiet) mp m2p 0 1 3 (1 # 60)) ==
       (amount * PUSH_THROTTLE_FACTOR (Collaborators := Examples.quiet) /
        PUSH_THROTTLE_TIMEOUT (Collaborators := Examples.quiet)) *
       Qmin (time_alive mp) (time_alive m2p).
Proof.
  apply (C7_push_throttled_by_min_age (C := Examples.quiet)
           (Examples.enemy_aged 0 (1 # 4)) (Examples.enemy_aged 3 5)
           0 1 3 (1 # 60)).
  - reflexivity.
  - vm_compute; reflexivity.
  - vm_compute; reflexivity.
  - left. vm_compute; reflexivity.
  - vm_compute. discriminate.
Defined.

(** C7 as stated fails: an enemy whose type pushes with its hitboxes,
    spawned this very tick (age 0) on top of another enemy that is not an
    idle Pikmin, passes the push gate and pushes it by the full hitbox
    overlap of 10; scaling by the smaller age would give 0. *)
Lemma C7_counterexample_hitbox_pusher :
  let mp := Examples.plain_mob Examples.enemy 0 0 0 5 true in
  let m2p := Examples.plain_mob Examples.hitbox_enemy 0 0 0 0 true in
  (time_alive m2p < PUSH_THROTTLE_TIMEOUT (Collaborators := Examples.quiet)) /\
  both_idle_pikmin (C := Examples.quiet) mp m2p = false /\
  push_gate (C := Examples.quiet) mp m2p 0 1 = true /\
  Qmin (time_alive mp) (time_alive m2p) == 0 /\
  compute_push (C := Examples.quiet) mp m2p 0 1 0 (1 # 60) = (10, 0).
Proof.
  vm_compute. repeat split.
Qed.

End PushClaims.

(* ===================================================================== *)
(** ** Claims on the culls *)
(* ===================================================================== *)

Module CullClaims.
Import Resolver ResolverSpec ResolverFacts Walk.

Local Open Scope Q_scope.

(** The broad phase, exactly as coded: the sum compared with the distance
    is the acting mob's interaction span plus the candidate's physical
    span. *)
Lemma too_far_iff (mp m2p : Mob) (d_between : Q) :
  too_far mp m2p d_between = true <->
  interaction_span mp + physical_span m2p < d_between.
Proof. apply Qltb_lt. Qed.

Lemma pair_step_skipped `{C : Collaborators} (m m2 : nat) (c : Collect)
    (mp m2p : Mob) :
  mobs_all (fst (fst c)) !! m = Some mp ->
  mobs_all (fst (fst c)) !! m2 = Some m2p ->
  pair_skipped mp m2p m m2 = true ->
  pair_step m c m2 = c.
Proof. intros Hm Hm2 Hs. unfold pair_step. by rewrite Hm, Hm2, Hs. Qed.

(** The loop body for a candidate that no test at its top passes over. *)
Lemma pair_step_processed `{C : Collaborators} (m m2 : nat) (c : Collect)
    (mp m2p : Mob) :
  mobs_all (fst (fst c)) !! m = Some mp ->
  mobs_all (fst (fst c)) !! m2 = Some m2p ->
  pair_skipped mp m2p m m2 = false ->
  pair_step m c m2 =
    queue_section m m2 (dist (pos mp) (pos m2p))
      (get_distance_between mp m2p (dist (pos mp) (pos m2p)))
      (if Qleb (dist (pos mp) (pos m2p)) (physical_span mp + physical_span m2p)
       then process_mob_touches m m2 (dist (pos mp) (pos m2p)) (fst c)
       else fst c, snd c).
Proof. intros Hm Hm2 Hs. unfold pair_step. by rewrite Hm, Hm2, Hs. Qed.

(** C3, as amended.  The distance the broad phase measures is the one
    [get_distance_between] returns for the pair, and the sum it is
    compared with is the interaction span of the acting mob plus the
    physical span of the candidate.  When the distance exceeds the sum,
    the loop body leaves the state, the log and the queue of pending
    events as they were: no touch, reach, miscellaneous or hitbox
    processing happens.  When it does not, a candidate that is another
    mob, passes the activity test, and is neither marked for deletion nor
    stored inside a mob is processed.  A distance above the sum of the two
    interaction spans rejects the pair when the candidate's interaction
    span is at least its physical span. *)
Theorem C3_broad_phase_reject `{C : Collaborators}
    (m m2 : nat) (c : Collect) (mp m2p : Mob) :
  mobs_all (fst (fst c)) !! m = Some mp ->
  mobs_all (fst (fst c)) !! m2 = Some m2p ->
  let d := dist (pos mp) (pos m2p) in
  let d_between := get_distance_between mp m2p d in
  (interaction_span mp + physical_span m2p < d_between ->
   pair_step m c m2 = c) /\
  (d_between <= interaction_span mp + physical_span m2p ->
   m <> m2 -> candidate_culled mp m2p = false ->
   to_delete m2p = false -> is_stored_inside_mob m2p = false ->
   pair_step m c m2 =
     queue_section m m2 d d_between
       (if Qleb d (physical_span mp + physical_span m2p)
        then process_mob_touches m m2 d (fst c) else fst c, snd c)) /\
  (physical_span m2p <= interaction_span m2p ->
   interaction_span mp + interaction_span m2p < d_between ->
   pair_step m c m2 = c).
Proof.
  intros Hm Hm2 d d_between.
  assert (interaction_span mp + physical_span m2p < d_between ->
          pair_step m c m2 = c) as Hfar.
  { intros Hlt. eapply pair_step_skipped; eauto.
    unfold pair_skipped. fold d. fold d_between.
    apply too_far_iff in Hlt. rewrite Hlt. by rewrite !orb_true_r. }
  split; [exact Hfar|]. split.
  - intros Hle Hne Hcull Hdel Hst.
    apply pair_step_processed; [done|done|].
    unfold pair_skipped. fold d. fold d_between.
    rewrite Hcull, Hdel, Hst.
    replace (m =? m2)%nat with false by (symmetry; by apply Nat.eqb_neq).
    simpl. apply Qltb_ge. exact Hle.
  - intros Hspan Hlt. apply Hfar.
    eapply Qle_lt_trans; [|exact Hlt]. apply Qplus_le_r. exact Hspan.
Qed.

Lemma C3_broad_phase_reject_witness :
  let mp := Examples.plain_mob Examples.enemy 0 0 0 5 true in
  let m2p := Examples.plain_mob Examples.enemy 0 300 0 5 true in
  let c : Collect := ((Examples.world [mp; m2p], []), []) in
  let d := dist (Collaborators := Examples.quiet) (pos mp) (pos m2p) in
  let d_between :=
    get_distance_between (Collaborators := Examples.quiet) mp m2p d in
  (interaction_span mp + physical_span m2p < d_between ->
   pair_step (C := Examples.quiet) 0 c 1 = c) /\
  (d_between <= interaction_span mp + physical_span m2p ->
   0%nat <> 1%nat ->
   candidate_culled (C := Examples.quiet) mp m2p = false ->
   to_delete m2p = false -> is_stored_inside_mob m2p = false ->
   pair_step (C := Examples.quiet) 0 c 1 =
     queue_section (C := Examples.quiet) 0 1 d d_between
       (if Qleb d (physical_span mp + physical_span m2p)
        then process_mob_touches (C := Examples.quiet) 0 1 d (fst c)
        else fst c, snd c)) /\
  (physical_span m2p <= interaction_span m2p ->
   interaction_span mp + interaction_span m2p < d_between ->
   pair_step (C := Examples.quiet) 0 c 1 = c).
Proof.
  apply (C3_broad_phase_reject (C := Examples.quiet) 0 1
           ((Examples.world
               [Examples.plain_mob Examples.enemy 0 0 0 5 true;
                Examples.plain_mob Examples.enemy 0 300 0 5 true], []), []));
    reflexivity.
Defined.

(** C3 as stated fails for the straight-line distance.  Two mobs of radius
    60 whose interaction spans are 100 stand 210 units apart, which is
    more than the sum of the spans.  The distance the broad phase measures
    is the one between their edges, 90, which is within the 160 it is
    compared with: the pair is processed, and an in-reach event is queued
    for it. *)
Lemma C3_counterexample_straight_line_distance :
  let mp := Examples.round_mob Examples.watcher 0 60 100 in
  let m2p := Examples.round_mob Examples.enemy 210 60 100 in
  let c : Collect := ((Examples.world [mp; m2p], []), []) in
  interaction_span mp + interaction_span m2p <
    dist (Collaborators := Examples.quiet) (pos mp) (pos m2p) /\
  snd (pair_step (C := Examples.quiet) 0 c 1) =
    [mkPending 90 (Some (mkMobEvent 0 MOB_EV_OBJECT_IN_REACH)) 1].
Proof. split; vm_compute; reflexivity. Qed.

(** C4, as amended.  The activity flags are consulted in two places, each
    with the age of the acting mob only.  In the mob loop, the mob [m]
    about to be ticked is passed over exactly when it has been alive for
    more than 0.1 seconds, is inactive and is of a type that does not
    keep ticking while inactive; its turn then changes nothing (no tick,
    no interaction processing), and otherwise it is ticked and, unless
    stored inside a mob, its interactions are processed.  In the loop over
    the candidates, [m2] is passed over by the activity test exactly when
    [m] has been alive for more than 0.1 seconds and [m2] is inactive and
    of a type that does not keep interacting while inactive; the pair is
    then left alone, and otherwise it is processed unless one of the other
    tests rejects it.  While [m] is at most 0.1 seconds old neither test
    passes anything over. *)
Theorem C4_activity_cull_exact `{C : Collaborators}
    (dt : Q) (m : nat) (rest : list nat) (w : WalkState) (mp : Mob)
    (c : Collect) (m2 : nat) (mq m2p : Mob) :
  mobs_all (fst (fst w)) !! m = Some mp ->
  mobs_all (fst (fst c)) !! m = Some mq ->
  mobs_all (fst (fst c)) !! m2 = Some m2p ->
  ((tick_culled mp = true <->
    1 # 10 < time_alive mp /\ is_active mp = false /\
    has_flag (inactive_logic (mob_type mp)) INACTIVE_LOGIC_FLAG_TICKS = false)
   /\ (tick_culled mp = true -> tick_loop dt (m :: rest) w = tick_loop dt rest w)
   /\ (tick_culled mp = false ->
       tick_loop dt (m :: rest) w =
         match mobs_all (mob_tick m dt (fst (fst w))) !! m with
         | None => None
         | Some mp1 =>
             tick_loop dt rest
               (if is_stored_inside_mob mp1
                then (mob_tick m dt (fst (fst w)), snd (fst w))
                else process_mob_interactions m
                       (mob_tick m dt (fst (fst w)), snd (fst w)),
                snd w ++ [StepTick m])
         end)
   /\ (time_alive mp <= 1 # 10 -> tick_culled mp = false))
  /\
  ((candidate_culled mq m2p = true <->
    1 # 10 < time_alive mq /\ is_active m2p = false /\
    has_flag (inactive_logic (mob_type m2p)) INACTIVE_LOGIC_FLAG_INTERACTIONS
      = false)
   /\ (candidate_culled mq m2p = true -> pair_step m c m2 = c)
   /\ (candidate_culled mq m2p = false ->
       m <> m2 -> to_delete m2p = false -> is_stored_inside_mob m2p = false ->
       too_far mq m2p
         (get_distance_between mq m2p (dist (pos mq) (pos m2p))) = false ->
       pair_step m c m2 =
         queue_section m m2 (dist (pos mq) (pos m2p))
           (get_distance_between mq m2p (dist (pos mq) (pos m2p)))
           (if Qleb (dist (pos mq) (pos m2p))
                 (physical_span mq + physical_span m2p)
            then process_mob_touches m m2 (dist (pos mq) (pos m2p)) (fst c)
            else fst c, snd c))
   /\ (time_alive mq <= 1 # 10 -> candidate_culled mq m2p = false)).
Proof.
  intros Hw Hm Hm2.
  assert (tick_culled mp = true <->
    1 # 10 < time_alive mp /\ is_active mp = false /\
    has_flag (inactive_logic (mob_type mp)) INACTIVE_LOGIC_FLAG_TICKS = false)
    as Htick.
  { unfold tick_culled.
    rewrite !andb_true_iff, !negb_true_iff, Qltb_lt. tauto. }
  assert (candidate_culled mq m2p = true <->
    1 # 10 < time_alive mq /\ is_active m2p = false /\
    has_flag (inactive_logic (mob_type m2p)) INACTIVE_LOGIC_FLAG_INTERACTIONS
      = false) as Hcand.
  { unfold candidate_culled.
    rewrite !andb_true_iff, !negb_true_iff, Qltb_lt. tauto. }
  split.
  - split; [exact Htick|]. split; [|split].
    + intros Hc. cbn [tick_loop]. by rewrite Hw, Hc.
    + intros Hc. cbn [tick_loop]. by rewrite Hw, Hc.
    + intros Hyoung. apply not_true_is_false. intros Hc.
      apply Htick in Hc as [Hold _]. eapply Qlt_not_le; eauto.
  - split; [exact Hcand|]. split; [|split].
    + intros Hc. eapply pair_step_skipped; eauto.
      unfold pair_skipped. rewrite Hc. by rewrite orb_true_r.
    + intros Hc Hne Hdel Hst Hfar.
      apply pair_step_processed; [done|done|].
      unfold pair_skipped. rewrite Hc, Hdel, Hst, Hfar.
      replace (m =? m2)%nat with false by (symmetry; by apply Nat.eqb_neq).
      reflexivity.
    + intros Hyoung. apply not_true_is_false. intros Hc.
      apply Hcand in Hc as [Hold _]. eapply Qlt_not_le; eauto.
Qed.

Lemma C4_activity_cull_exact_witness :
  let C := Examples.quiet in
  let dt := 1 # 60 in
  let m := 0%nat in
  let m2 := 1%nat in
  let rest := [1%nat] in
  let mp := Examples.plain_mob Examples.enemy 0 0 0 5 false in
  let m2p := Examples.plain_mob Examples.enemy 0 3 0 5 false in
  let gs := Examples.world [mp; m2p] in
  let w : WalkState := ((gs, []), []) in
  let c : Collect := ((gs, []), []) in
  ((tick_culled mp = true <->
    1 # 10 < time_alive mp /\ is_active mp = false /\
    has_flag (inactive_logic (mob_type mp)) INACTIVE_LOGIC_FLAG_TICKS = false)
   /\ (tick_culled mp = true -> tick_loop dt (m :: rest) w = tick_loop dt rest w)
   /\ (tick_culled mp = false ->
       tick_loop dt (m :: rest) w =
         match mobs_all (mob_tick m dt (fst (fst w))) !! m with
         | None => None
         | Some mp1 =>
             tick_loop dt rest
               (if is_stored_inside_mob mp1
                then (mob_tick m dt (fst (fst w)), snd (fst w))
                else process_mob_interactions m
                       (mob_tick m dt (fst (fst w)), snd (fst w)),
                snd w ++ [StepTick m])
         end)
   /\ (time_alive mp <= 1 # 10 -> tick_culled mp = false))
  /\
  ((candidate_culled mp m2p = true <->
    1 # 10 < time_alive mp /\ is_active m2p = false /\
    has_flag (inactive_logic (mob_type m2p)) INACTIVE_LOGIC_FLAG_INTERACTIONS
      = false)
   /\ (candidate_culled mp m2p = true -> pair_step m c m2 = c)
   /\ (candidate_culled mp m2p = false ->
       m <> m2 -> to_delete m2p = false -> is_stored_inside_mob m2p = false ->
       too_far mp m2p
         (get_distance_between mp m2p (dist (pos mp) (pos m2p))) = false ->
       pair_step m c m2 =
         queue_section m m2 (dist (pos mp) (pos m2p))
           (get_distance_between mp m2p (dist (pos mp) (pos m2p)))
           (if Qleb (dist (pos mp) (pos m2p))
                 (physical_span mp + physical_span m2p)
            then process_mob_touches m m2 (dist (pos mp) (pos m2p)) (fst c)
            else fst c, snd c))
   /\ (time_alive mp <= 1 # 10 -> candidate_culled mp m2p = false)).
Proof.
  apply (C4_activity_cull_exact (C := Examples.quiet) (1 # 60) 0 [1%nat]
           ((Examples.world
               [Examples.plain_mob Examples.enemy 0 0 0 5 false;
                Examples.plain_mob Examples.enemy 0 3 0 5 false], []), [])
           (Examples.plain_mob Examples.enemy 0 0 0 5 false)
           ((Examples.world
               [Examples.plain_mob Examples.enemy 0 0 0 5 false;
                Examples.plain_mob Examples.enemy 0 3 0 5 false], []), [])
           1
           (Examples.plain_mob Examples.enemy 0 0 0 5 false)
           (Examples.plain_mob Examples.enemy 0 3 0 5 false));
    reflexivity.
Defined.

(** C4 as stated fails in two ways, with types that do not opt out.
    First, the acting mob is active, the candidate is not, both are 5
    seconds old: the pair is passed over although one of the two is
    active.  Second, the acting mob is 5 seconds old and active, the
    candidate is inactive and was spawned this tick (age 0): the pair is
    passed over although one of the two is within the grace period. *)
Lemma C4_counterexample_one_sided_cull :
  let old_active := Examples.plain_mob Examples.enemy 0 0 0 5 true in
  let old_inactive := Examples.plain_mob Examples.enemy 0 3 0 5 false in
  let new_inactive := Examples.plain_mob Examples.enemy 0 3 0 0 false in
  (is_active old_active = true /\
   candidate_culled (C := Examples.quiet) old_active old_inactive = true /\
   pair_step (C := Examples.quiet) 0
     ((Examples.world [old_active; old_inactive], []), []) 1
   = ((Examples.world [old_active; old_inactive], []), [])) /\
  (time_alive new_inactive <= 1 # 10 /\
   candidate_culled (C := Examples.quiet) old_active new_inactive = true /\
   pair_step (C := Examples.quiet) 0
     ((Examples.world [old_active; new_inactive], []), []) 1
   = ((Examples.world [old_active; new_inactive], []), [])).
Proof.
  split; (split; [|split]); try reflexivity.
  vm_compute. discriminate.
Qed.

(** Two enemies that are five seconds old and inactive: the mob loop
    passes both over, and nothing is ticked or logged. *)
Example inactive_mobs_are_not_ticked :
  walk_mobs (C := Examples.quiet) (1 # 60)
    (Examples.world
       [Examples.plain_mob Examples.enemy 0 0 0 5 false;
        Examples.plain_mob Examples.enemy 0 3 0 5 false], [])
  = Some ((Examples.world
             [Examples.plain_mob Examples.enemy 0 0 0 5 false;
              Examples.plain_mob Examples.enemy 0 3 0 5 false], []), []).
Proof. vm_compute. reflexivity. Qed.

End CullClaims.

(* ===================================================================== *)
(** ** Claims on the queue of pending events *)
(* ===================================================================== *)

Module QueueClaims.
Import Resolver ResolverSpec ResolverFacts.

Local Open Scope Q_scope.

Section Sorting.
Context {A : Type} (key : A -> Q).

Lemma sort_insert_perm (x : A) (l : list A) :
  sort_insert (lt_by key) x l ≡ₚ x :: l.
Proof.
  induction l as [|y l IH]; simpl; [done|].
  destruct (lt_by key y x); [|done].
  rewrite IH. apply Permutation_swap.
Qed.

Lemma std_sort_perm (l : list A) : std_sort (lt_by key) l ≡ₚ l.
Proof.
  induction l as [|x l IH]; simpl; [done|].
  unfold std_sort in *. simpl. rewrite sort_insert_perm. by rewrite IH.
Qed.



End Sorting.






Section Queue.
Context `{C : Collaborators}.







End Queue.




(** Three candidates whose edges are 15, 5 and 10 units away, queued in
    index order, are served closest first. *)
Example three_candidates_closest_first :
  map r_payload
    (snd (process_mob_interactions (C := Examples.quiet) 0
            (Examples.one_and_three, [])))
  = [PayloadMob 2; PayloadMob 2; PayloadMob 3; PayloadMob 3;
     PayloadMob 1; PayloadMob 1].
Proof. vm_compute. reflexivity. Qed.

(** When the first handler call changes the state of the acting mob, the
    five events behind it are dropped. *)
Example three_candidates_cut_after_state_change :
  map (fun r => (ev_type (r_event r), r_payload r))
    (snd (process_mob_interactions (C := Examples.switching) 0
            (Examples.one_and_three, [])))
  = [(MOB_EV_OBJECT_IN_REACH, PayloadMob 2)].
Proof. vm_compute. reflexivity. Qed.

End QueueClaims.

(* ===================================================================== *)
(** ** Claims on the activity flags *)
(* ===================================================================== *)

Module ActivityClaims.
Import Activity ResolverFacts.

Section WithCollaborators.
Context `{C : Collaborators}.

Lemma raised_from_refl a : raised_from a a.
Proof. by left. Qed.

Lemma raised_from_trans a b c :
  raised_from a b -> raised_from b c -> raised_from a c.
Proof.
  intros [->| ->] [->| ->]; first [by left | by right].
Qed.

Lemma raised_from_parent a b : raised_from a b -> parent_m b = parent_m a.
Proof. by intros [->| ->]. Qed.

Lemma raised_from_active a b :
  raised_from a b -> is_active a = true -> is_active b = true.
Proof. by intros [->| ->]. Qed.

Lemma all_raised_from_refl l : all_raised_from l l.
Proof. apply Forall2_same_length_lookup_2; [done|]. intros i a b H1 H2.
  rewrite H1 in H2. injection H2 as ->. apply raised_from_refl. Qed.

Lemma all_raised_from_trans l1 l2 l3 :
  all_raised_from l1 l2 -> all_raised_from l2 l3 -> all_raised_from l1 l3.
Proof.
  intros H12 H23. apply Forall2_same_length_lookup_2.
  - rewrite (Forall2_length _ _ _ H12). apply (Forall2_length _ _ _ H23).
  - intros i a c Ha Hc.
    destruct (Forall2_lookup_l _ _ _ _ _ H12 Ha) as (b & Hb & Hab).
    destruct (Forall2_lookup_l _ _ _ _ _ H23 Hb) as (c' & Hc' & Hbc).
    rewrite Hc in Hc'. injection Hc' as <-. by eapply raised_from_trans.
Qed.

Lemma all_raised_from_length l l' :
  all_raised_from l l' -> length l = length l'.
Proof. apply Forall2_length. Qed.

Lemma activate_raised l i : all_raised_from l (activate l i).
Proof.
  unfold activate. destruct (l !! i) as [mp|] eqn:Hi;
    [|apply all_raised_from_refl].
  apply Forall2_same_length_lookup_2; [by rewrite length_insert|].
  intros j a b Ha Hb. destruct (decide (i = j)) as [->|Hne].
  - rewrite list_lookup_insert_eq in Hb by (by eapply lookup_lt_Some).
    rewrite Hi in Ha. injection Ha as <-. injection Hb as <-. by right.
  - rewrite list_lookup_insert_ne in Hb by done.
    rewrite Ha in Hb. injection Hb as ->. by left.
Qed.

Lemma child_to_parent_raised l c : all_raised_from l (child_to_parent l c).
Proof.
  unfold child_to_parent. destruct (l !! c) as [cp|];
    [|apply all_raised_from_refl].
  destruct (parent_m cp); [|apply all_raised_from_refl].
  destruct (is_active cp); [apply activate_raised|apply all_raised_from_refl].
Qed.

Lemma parent_to_child_raised l c : all_raised_from l (parent_to_child l c).
Proof.
  unfold parent_to_child. destruct (l !! c) as [cp|];
    [|apply all_raised_from_refl].
  destruct (parent_m cp ≫= _) as [pp|]; [|apply all_raised_from_refl].
  destruct (is_active pp); [apply activate_raised|apply all_raised_from_refl].
Qed.

Lemma fold_raised (f : list Mob -> nat -> list Mob) ord l :
  (forall l c, all_raised_from l (f l c)) ->
  all_raised_from l (fold_left f ord l).
Proof.
  intros Hf. revert l. induction ord as [|c ord IH]; intros l; simpl.
  - apply all_raised_from_refl.
  - eapply all_raised_from_trans; [apply Hf | apply IH].
Qed.

Lemma raised_lookup l l' i a :
  all_raised_from l l' -> l !! i = Some a ->
  exists b, l' !! i = Some b /\ raised_from a b.
Proof. intros H Ha. by eapply Forall2_lookup_l. Qed.

Lemma raised_lookup_back l l' i b :
  all_raised_from l l' -> l' !! i = Some b ->
  exists a, l !! i = Some a /\ raised_from a b.
Proof. intros H Hb. by eapply Forall2_lookup_r. Qed.

Lemma raised_keeps_active l l' i a :
  all_raised_from l l' -> l !! i = Some a -> is_active a = true ->
  exists b, l' !! i = Some b /\ is_active b = true /\
            parent_m b = parent_m a.
Proof.
  intros H Ha Hact. destruct (raised_lookup _ _ _ _ H Ha) as (b & Hb & Hr).
  exists b. split; [done|]. split.
  - by eapply raised_from_active.
  - by apply raised_from_parent.
Qed.







Lemma assign_cell_flags_lookup gs i mp :
  mobs_all gs !! i = Some mp ->
  assign_cell_flags gs !! i = Some (set_is_active mp (cell_flag gs mp)).
Proof.
  intros H. unfold assign_cell_flags. by rewrite list_lookup_fmap, H.
Qed.









Lemma close_kin_kin l i j : close_kin l i j -> kin l i j.
Proof.
  unfold kin. intros [->|[H|[H|(p & Hi & Hj)]]].
  - reflexivity.
  - by apply rtsc_lr.
  - by apply rtsc_rl.
  - etrans; [by apply rtsc_lr | by apply rtsc_rl].
Qed.












End WithCollaborators.




(** A grandparent in an inactive cell, its child outside the grid, and
    that child's child in an active cell.  When the set of child mobs is
    traversed with the middle mob first, the middle mob is raised by its
    child after its own turn to raise the grandparent has passed: it ends
    up active and its parent does not.  Traversed the other way round,
    all three end up active. *)
Example chain_of_three_depends_on_order :
  let gs := Examples.chain_of_three in
  traversal_of_children [1%nat; 2%nat] gs /\
  traversal_of_children [2%nat; 1%nat] gs /\
  map (cell_flag (C := Examples.quiet) gs) (mobs_all gs)
    = [false; false; true] /\
  map is_active
    (mobs_all (update_mob_is_active_flag (C := Examples.quiet)
                 [1%nat; 2%nat] gs)) = [false; true; true] /\
  map is_active
    (mobs_all (update_mob_is_active_flag (C := Examples.quiet)
                 [2%nat; 1%nat] gs)) = [true; true; true].
Proof.
  split; [vm_compute; reflexivity|].
  split; [vm_compute; apply perm_swap|].
  vm_compute. repeat split; reflexivity.
Qed.

(** The grid of the example after [update_area_active_cells] (columns
    first): the 2 by 2 block around the leader, the 3 by 3 block around
    the Pikmin and the camera's cell are active; the enemy in the cell
    (2, 0) is left inactive by [update_mob_is_active_flag]. *)
Example grid_after_update :
  let gs := update_area_active_cells (C := Examples.quiet) Examples.grid_world in
  area_active_cells gs =
    [[true; true; false; false]; [true; true; true; true];
     [false; true; true; true]; [true; true; true; true]] /\
  map is_active
    (mobs_all (update_mob_is_active_flag (C := Examples.quiet) [] gs))
  = [false; true; true].
Proof. vm_compute. split; reflexivity. Qed.

End ActivityClaims.

(* ===================================================================== *)
(** ** Claims on the mob walk *)
(* ===================================================================== *)

Module WalkClaims.
Import Resolver ResolverSpec ResolverFacts Walk.

Section AppendOnly.
Context `{C : Collaborators}.
Hypothesis Hrun : append_only_handlers.

Lemma no_shrink_refl gs : no_shrink gs gs.
Proof. unfold no_shrink. lia. Qed.

Lemma no_shrink_trans g1 g2 g3 :
  no_shrink g1 g2 -> no_shrink g2 g3 -> no_shrink g1 g3.
Proof. unfold no_shrink. lia. Qed.

Lemma write_mob_length gs i mp :
  length (mobs_all (write_mob gs i mp)) = length (mobs_all gs).
Proof. simpl. apply length_insert. Qed.

Lemma raise_no_shrink ev m p s : no_shrink (fst s) (fst (raise ev m p s)).
Proof using Hrun. apply Hrun. Qed.

Create HintDb walk.
Local Hint Resolve no_shrink_refl raise_no_shrink : walk.

Ltac chain := eapply no_shrink_trans; [eassumption|]; eauto with walk.

Lemma touch_section_no_shrink m m2 d s :
  no_shrink (fst s) (fst (touch_section m m2 d s)).
Proof using Hrun.
  unfold touch_section.
  destruct (mobs_all (fst s) !! m) as [mp|]; [|auto with walk].
  destruct (mobs_all (fst s) !! m2) as [m2p|]; [|auto with walk].
  destruct (_ || _); [|auto with walk].
  destruct (_ && _); [|auto with walk].
  destruct (get_event mp MOB_EV_TOUCHED_OBJECT) as [ob|];
    destruct (get_event mp MOB_EV_TOUCHED_OPPONENT) as [op|];
    try destruct (can_hunt_now _ _ _); auto with walk.
  eapply no_shrink_trans; apply raise_no_shrink.
Qed.

Lemma hitbox_an_block_no_shrink gs m m2 h1 h2 h1p h2p st :
  hl_no_shrink gs st -> hl_no_shrink gs (hitbox_an_block m m2 h1 h2 h1p h2p st).
Proof using Hrun.
  unfold hl_no_shrink, hitbox_an_block. intros H.
  destruct (hl_an_ev st); [|done]. destruct (_ && _); [|done].
  simpl. chain.
Qed.

Lemma hitbox_nn_block_no_shrink gs m m2 h1 h2 h1p h2p st :
  hl_no_shrink gs st -> hl_no_shrink gs (hitbox_nn_block m m2 h1 h2 h1p h2p st).
Proof using Hrun.
  unfold hl_no_shrink, hitbox_nn_block. intros H.
  destruct (hl_nn_ev st); [|done]. destruct (_ && _); [|done].
  simpl. chain.
Qed.

Lemma hitbox_eat_block_no_shrink gs m m2 h2 h1p h2p das m2p st :
  hl_no_shrink gs st ->
  hl_no_shrink gs (hitbox_eat_block m m2 h2 h1p h2p das m2p st).
Proof using Hrun.
  unfold hl_no_shrink, hitbox_eat_block. intros H.
  destruct (hl_eat_ev st); [|done]. destruct (_ && _); [|done].
  simpl. chain.
Qed.

Lemma raise_hazards_no_shrink ev m m2 h1 h2 hz s :
  no_shrink (fst s)
    (fst (fold_left (fun acc x => raise ev m (PayloadHazard x m2 h1 h2) acc)
            hz s)).
Proof using Hrun.
  revert s. induction hz as [|x hz IH]; intros s; simpl; [auto with walk|].
  eapply no_shrink_trans; [|apply IH]. apply raise_no_shrink.
Qed.

Lemma hitbox_haz_block_no_shrink gs m m2 h1 h2 h1p h2p das st :
  hl_no_shrink gs st ->
  hl_no_shrink gs (hitbox_haz_block m m2 h1 h2 h1p h2p das st).
Proof using Hrun.
  unfold hl_no_shrink, hitbox_haz_block. intros H.
  destruct (hl_haz_ev st); [|done]. destruct (_ && _); [|done].
  simpl. eapply no_shrink_trans; [exact H|]. apply raise_hazards_no_shrink.
Qed.

Lemma hitbox_na_block_no_shrink gs m m2 h1 h2 h1p h2p das st :
  hl_no_shrink gs st ->
  hl_no_shrink gs (hitbox_na_block m m2 h1 h2 h1p h2p das st).
Proof using Hrun.
  unfold hl_no_shrink, hitbox_na_block. intros H.
  destruct (hl_na_ev st); [|done]. destruct (_ && _); [|done].
  simpl. chain.
Qed.

Lemma hitbox_inner_step_no_shrink gs m m2 h1 h1p st h2e :
  hl_no_shrink gs st -> hl_no_shrink gs (hitbox_inner_step m m2 h1 h1p st h2e).
Proof using Hrun.
  intros H. unfold hitbox_inner_step. destruct h2e as [h2 h2p].
  case_bool_decide; [done|].
  destruct (mobs_all _ !! m); [|done].
  destruct (mobs_all _ !! m2); [|done].
  destruct (hitboxes_collide _ _ _ _ _ _ _ _); [|done].
  unfold hitbox_damage_blocks.
  pose proof (hitbox_nn_block_no_shrink gs m m2 h1 h2 h1p h2p _
                (hitbox_an_block_no_shrink gs m m2 h1 h2 h1p h2p _ H)) as H2.
  destruct (mobs_all _ !! m); [|done].
  destruct (mobs_all _ !! m2); [|done].
  destruct (_ && _); [done|].
  by apply hitbox_na_block_no_shrink, hitbox_haz_block_no_shrink,
    hitbox_eat_block_no_shrink.
Qed.

Lemma hitbox_section_no_shrink m m2 s :
  no_shrink (fst s) (fst (hitbox_section m m2 s)).
Proof using Hrun.
  unfold hitbox_section.
  destruct (mobs_all (fst s) !! m) as [mp|]; [|auto with walk].
  destruct (mobs_all (fst s) !! m2) as [m2p|]; [|auto with walk].
  destruct (cur_sprite mp) as [s1|]; [|auto with walk].
  destruct (cur_sprite m2p) as [s2|]; [|auto with walk].
  destruct (_ && _); [|auto with walk].
  apply (fold_left_inv (hl_no_shrink (fst s))).
  - intros st [h1 h1p] Hst. unfold hitbox_outer_step.
    case_bool_decide; [done|].
    apply (fold_left_inv (hl_no_shrink (fst s))); [|done].
    intros. by apply hitbox_inner_step_no_shrink.
  - apply no_shrink_refl.
Qed.

Lemma process_mob_touches_no_shrink m m2 d s :
  no_shrink (fst s) (fst (process_mob_touches m m2 d s)).
Proof using Hrun.
  unfold process_mob_touches.
  destruct (mobs_all (fst s) !! m) as [mp|]; [|auto with walk].
  destruct (mobs_all (fst s) !! m2) as [m2p|]; [|auto with walk].
  eapply no_shrink_trans; [|apply hitbox_section_no_shrink].
  eapply no_shrink_trans; [|apply touch_section_no_shrink].
  unfold no_shrink. cbn [fst]. by rewrite write_mob_length.
Qed.

Lemma queue_section_state m m2 d d_between (c : Collect) :
  fst (queue_section m m2 d d_between c) = fst c.
Proof.
  unfold queue_section.
  destruct (_ !! m); [|done].
  by destruct (_ !! m2).
Qed.

Lemma pair_step_no_shrink m (c : Collect) m2 :
  no_shrink (fst (fst c)) (fst (fst (pair_step m c m2))).
Proof using Hrun.
  unfold pair_step.
  destruct (_ !! m) as [mp|]; [|auto with walk].
  destruct (_ !! m2) as [m2p|]; [|auto with walk].
  destruct (pair_skipped _ _ _ _); [auto with walk|].
  rewrite queue_section_state. cbn [fst].
  destruct (Qleb _ _); auto using process_mob_touches_no_shrink with walk.
Qed.

Lemma collect_pending_no_shrink m s :
  no_shrink (fst s) (fst (fst (collect_pending m s))).
Proof using Hrun.
  unfold collect_pending.
  apply (fold_left_inv (fun c => no_shrink (fst s) (fst (fst c)))).
  - intros c m2 Hc. eapply no_shrink_trans; [exact Hc|].
    apply pair_step_no_shrink.
  - apply no_shrink_refl.
Qed.

Lemma dispatch_pending_no_shrink m sb evs s :
  no_shrink (fst s) (fst (dispatch_pending m sb evs s)).
Proof using Hrun.
  revert s. induction evs as [|e evs IH]; intros s; simpl; [auto with walk|].
  case_bool_decide; [|auto with walk].
  eapply no_shrink_trans; [|apply IH].
  unfold run_pending. destruct (pe_event_ptr e); auto with walk.
Qed.

Lemma process_mob_interactions_no_shrink m s :
  no_shrink (fst s) (fst (process_mob_interactions m s)).
Proof using Hrun.
  unfold process_mob_interactions.
  eapply no_shrink_trans; [apply collect_pending_no_shrink|].
  apply dispatch_pending_no_shrink.
Qed.

Hypothesis Htick : append_only_tick.

(** The first loop never reads [mobs.all] out of bounds, erases nothing,
    and ticks a sublist of the indices it was given. *)
Lemma tick_loop_spec dt ms (w : WalkState) :
  Forall (fun m => (m < length (mobs_all (fst (fst w))))%nat) ms ->
  exists w' ticked,
    tick_loop dt ms w = Some w' /\
    no_shrink (fst (fst w)) (fst (fst w')) /\
    snd w' = snd w ++ map StepTick ticked /\
    sublist ticked ms.
Proof using Hrun Htick.
  revert w. induction ms as [|m ms IH]; intros w Hall.
  - exists w, []. simpl. rewrite app_nil_r. repeat split; auto with walk.
  - apply Forall_cons in Hall as [Hm Hall]. cbn [tick_loop].
    destruct (lookup_lt_is_Some_2 _ _ Hm) as [mp Hmp]. rewrite Hmp.
    destruct (tick_culled mp).
    + destruct (IH w Hall) as (w' & ticked & Hrun' & Hns & Hlog & Hsub).
      exists w', ticked. repeat split; try done. by apply sublist_cons.
    + pose proof (Htick m dt (fst (fst w))) as Hgrow.
      assert (m < length (mobs_all (mob_tick m dt (fst (fst w)))))%nat as Hm1
        by (unfold no_shrink in Hgrow; lia).
      destruct (lookup_lt_is_Some_2 _ _ Hm1) as [mp1 Hmp1]. rewrite Hmp1.
      set (rs := if is_stored_inside_mob mp1
                 then (mob_tick m dt (fst (fst w)), snd (fst w))
                 else process_mob_interactions m
                        (mob_tick m dt (fst (fst w)), snd (fst w))).
      assert (no_shrink (fst (fst w)) (fst rs)) as Hrs.
      { subst rs. destruct (is_stored_inside_mob mp1); [exact Hgrow|].
        eapply no_shrink_trans; [exact Hgrow|].
        apply (process_mob_interactions_no_shrink m (_, _)). }
      destruct (IH (rs, snd w ++ [StepTick m])) as
        (w' & ticked & Hrun' & Hns & Hlog & Hsub).
      { cbn [fst]. eapply Forall_impl; [exact Hall|]. simpl.
        intros x Hx. unfold no_shrink in Hrs. lia. }
      exists w', (m :: ticked). split; [exact Hrun'|]. split.
      * eapply no_shrink_trans; [exact Hrs|exact Hns].
      * split; [|by apply sublist_skip].
        rewrite Hlog. cbn [snd map]. by rewrite <- app_assoc.
Qed.

End AppendOnly.

(** The sweep erases the mobs marked for deletion among the [k] it looks
    at, and nothing else. *)
Lemma sweep_spec (k : nat) (before rest : list Mob) (log : list Walk.Step) :
  (k <= length rest)%nat ->
  exists deleted,
    sweep k (length before) (before ++ rest) log =
      Some (before ++ List.filter kept (take k rest) ++ drop k rest,
            log ++ map StepDelete deleted).
Proof.
  revert before rest log. induction k as [|k IH]; intros before rest log Hk.
  - exists []. simpl. by rewrite drop_0, app_nil_r.
  - destruct rest as [|mp rest]; [simpl in Hk; lia|]. simpl in Hk.
    cbn [sweep]. rewrite list_lookup_middle by done.
    destruct (to_delete mp) eqn:Hdel.
    + unfold delete_mob. rewrite delete_middle.
      destruct (IH before rest (log ++ [StepDelete (length before)]))
        as (deleted & Hs); [lia|].
      exists (length before :: deleted). rewrite Hs.
      cbn [take drop List.filter map]. unfold kept at 2. rewrite Hdel.
      cbn [negb]. by rewrite <- app_assoc.
    + destruct (IH (before ++ [mp]) rest log) as (deleted & Hs); [lia|].
      exists deleted. rewrite length_app in Hs. simpl in Hs.
      rewrite Nat.add_1_r, <- app_assoc in Hs. simpl in Hs.
      rewrite Hs. cbn [take drop List.filter]. unfold kept at 2.
      rewrite Hdel. cbn [negb]. by rewrite <- !app_assoc.
Qed.

(** C9.  Suppose the script runtime and [Mob::tick] may append to the mob
    list but never erase from it.  Then the walk over the mobs reads no
    index out of bounds and erases nothing; the mobs it ticks are, in
    ascending order, some of the indices below the list size captured at
    loop start, so a mob appended during the walk is not ticked in it;
    every erasure happens in the sweep, after the last tick; and the sweep
    leaves the mobs not marked for deletion among those present at loop
    start, followed by the mobs appended during the walk. *)
Theorem C9_deferred_deletion_and_spawn `{C : Collaborators}
    (dt : Q) (s : RS) :
  append_only_handlers -> append_only_tick ->
  let n_mobs := length (mobs_all (fst s)) in
  exists w ticked deleted,
    tick_loop dt (seq 0 n_mobs) (s, []) = Some w /\
    no_shrink (fst s) (fst (fst w)) /\
    sublist ticked (seq 0 n_mobs) /\
    Forall (fun m => (m < n_mobs)%nat) ticked /\
    walk_mobs dt s =
      Some ((set_mobs (fst (fst w))
               (List.filter kept (take n_mobs (mobs_all (fst (fst w)))) ++
                drop n_mobs (mobs_all (fst (fst w)))),
             snd (fst w)),
            map StepTick ticked ++ map StepDelete deleted).
Proof.
  intros Hrun Htick n_mobs.
  destruct (tick_loop_spec Hrun Htick dt (seq 0 n_mobs) (s, []))
    as (w & ticked & Hloop & Hns & Hlog & Hsub).
  { apply Forall_forall. intros m Hm. apply list_elem_of_In, in_seq in Hm.
    cbn [fst]. subst n_mobs. lia. }
  cbn [fst snd] in Hns, Hlog. simpl in Hlog.
  destruct (sweep_spec n_mobs [] (mobs_all (fst (fst w))) (snd w))
    as (deleted & Hsweep).
  { unfold no_shrink in Hns. subst n_mobs. lia. }
  simpl in Hsweep.
  exists w, ticked, deleted.
  split; [exact Hloop|]. split; [exact Hns|]. split; [exact Hsub|]. split.
  - apply Forall_forall. intros m Hm.
    pose proof (elem_of_sublist _ _ _ Hm Hsub) as Hm'.
    apply list_elem_of_In, in_seq in Hm'. lia.
  - unfold walk_mobs. fold n_mobs. rewrite Hloop, Hsweep. by rewrite Hlog.
Qed.

Lemma C9_deferred_deletion_and_spawn_witness :
  let s : RS := (Examples.two_enemies, []) in
  let n_mobs := length (mobs_all (fst s)) in
  exists w ticked deleted,
    tick_loop (C := Examples.spawning) (1 # 60) (seq 0 n_mobs) (s, [])
      = Some w /\
    no_shrink (fst s) (fst (fst w)) /\
    sublist ticked (seq 0 n_mobs) /\
    Forall (fun m => (m < n_mobs)%nat) ticked /\
    walk_mobs (C := Examples.spawning) (1 # 60) s =
      Some ((set_mobs (fst (fst w))
               (List.filter kept (take n_mobs (mobs_all (fst (fst w)))) ++
                drop n_mobs (mobs_all (fst (fst w)))),
             snd (fst w)),
            map StepTick ticked ++ map StepDelete deleted).
Proof.
  apply (C9_deferred_deletion_and_spawn (C := Examples.spawning) (1 # 60)
           (Examples.two_enemies, [])).
  - intros ev m p gs. unfold no_shrink. simpl. lia.
  - intros m dt gs. unfold no_shrink. simpl.
    destruct (mobs_all gs !! m); simpl; [|lia].
    rewrite length_app, length_insert. lia.
Defined.

(** The walk of the example: both mobs present at loop start are ticked,
    each spawns a mob and marks itself; the two spawned mobs are not
    ticked, and the sweep erases the two marked ones. *)
Example walk_with_spawns :
  (fun r => (map to_delete (mobs_all (fst (fst r))), snd r)) <$>
    walk_mobs (C := Examples.spawning) (1 # 60) (Examples.two_enemies, [])
  = Some ([false; false],
          [StepTick 0; StepTick 1; StepDelete 0; StepDelete 0]).
Proof. vm_compute. reflexivity. Qed.

End WalkClaims.

(* ===================================================================== *)
(** ** The flukeweed script *)
(* ===================================================================== *)

Module ScriptClaims.
Import Script.

Local Open Scope string_scope.








Arguments parse_number : simpl never.
Arguments i2s : simpl never.
Arguments get_var : simpl never.
Arguments compare_operands : simpl never.












Opaque run_event.






Transparent run_event.





(** The intervals at the three powers the scenario names. *)
Example pull_interval_at_3_4_5 :
  (map (fun p =>
          sm_timer (run_event flukeweed 2 "on_timer" ""
                      (mkScriptMob 2 ∅ 0%Q 100%Q 100%Q p false)))
       [3; 4; 5]%Z
   = [15 # 10; 125 # 100; 1]%Q).
Proof. vm_compute. reflexivity. Qed.

(** A message received while capturing is what a later message in idling
    acts on: [goal_reached] received in capturing, then any message in
    idling, and the mob is pulled. *)
Example goal_reached_stored_while_capturing :
  let fresh := default (mkScriptMob 0 ∅ 0%Q 0%Q 0%Q 0 false)
                 (spawn flukeweed 2 100%Q 100%Q 4) in
  let told :=
    run_event flukeweed 2 "on_receive_message" "goal_reached" fresh in
  let idle := tick_timer flukeweed 2 (1 # 10)%Q told in
  state_name flukeweed idle = "idling" /\
  state_name flukeweed
    (run_event flukeweed 2 "on_receive_message" "goal_lost" idle) = "pulled".
Proof. vm_compute. split; reflexivity. Qed.

End ScriptClaims.

(* ===================================================================== *)
(** ** The handler calls of the resolver *)
(* ===================================================================== *)

Module CallFacts.
Import Resolver ResolverSpec ResolverFacts CallSpec.
Section WithCollaborators.
Context `{C : Collaborators}.

Local Open Scope Q_scope.

Lemma extends_with_refl G (s : RS) : extends_with G s s.
Proof. exists []. split; [by rewrite app_nil_r | constructor]. Qed.

Lemma extends_with_trans G (s1 s2 s3 : RS) :
  extends_with G s1 s2 -> extends_with G s2 s3 -> extends_with G s1 s3.
Proof.
  intros (e1 & H1 & F1) (e2 & H2 & F2). exists (e1 ++ e2). split.
  - rewrite H2, H1. by rewrite app_assoc.
  - by apply Forall_app.
Qed.

Lemma extends_with_raise (G : Raised -> Prop) ev m p (s : RS) :
  G (mkRaised ev m p) -> extends_with G s (raise ev m p s).
Proof. intros HG. exists [mkRaised ev m p]. split; [done|]. by constructor. Qed.

Lemma extends_with_impl (G G' : Raised -> Prop) (s s' : RS) :
  (forall r, G r -> G' r) -> extends_with G s s' -> extends_with G' s s'.
Proof.
  intros HI (e & H & F). exists e. split; [done|].
  eapply Forall_impl; eauto.
Qed.

Lemma extends_with_same_log G (s s1 s' : RS) :
  snd s1 = snd s -> extends_with G s1 s' -> extends_with G s s'.
Proof. intros E (e & H & F). exists e. by rewrite <- E. Qed.

Lemma calls_of_type_app t l1 l2 :
  calls_of_type t (l1 ++ l2) = (calls_of_type t l1 ++ calls_of_type t l2)%list.
Proof. apply List.filter_app. Qed.

Lemma calls_of_type_one t r :
  length (calls_of_type t [r]) =
  if bool_decide (ev_type (r_event r) = t) then 1%nat else 0%nat.
Proof. unfold calls_of_type. simpl. by case_bool_decide. Qed.

Lemma log_ok_snoc G extra rep rep' r :
  log_ok G extra rep -> G r ->
  (forall t, t ∈ once_events ->
     if bool_decide (ev_type (r_event r) = t)
     then rep t = false /\ rep' t = true
     else rep' t = rep t) ->
  log_ok G (extra ++ [r]) rep'.
Proof.
  intros [HG Hc] Hr Hrep. split.
  - apply Forall_app. split; [done | by constructor].
  - rewrite Forall_forall in Hc. apply Forall_forall. intros t Ht.
    specialize (Hc t Ht). specialize (Hrep t Ht).
    rewrite calls_of_type_app, length_app, calls_of_type_one.
    case_bool_decide.
    + destruct Hrep as [E1 E2]. rewrite E1 in Hc. rewrite E2. simpl in *. lia.
    + rewrite Hrep. lia.
Qed.

Lemma is_normal_type h : is_normal h = true -> h_type h = HITBOX_TYPE_NORMAL.
Proof. unfold is_normal. by intros ?%bool_decide_eq_true. Qed.

Lemma is_attack_type h : is_attack h = true -> h_type h = HITBOX_TYPE_ATTACK.
Proof. unfold is_attack. by intros ?%bool_decide_eq_true. Qed.

Ltac retyped :=
  constructor; simpl; intros ? ?;
  first [ by simplify_eq
        | eauto using get_event_now_type, th_an, th_na, th_nn, th_eat, th_haz ].

Ltac flags_after Ht :=
  let t := fresh "t" in let Hin := fresh "Hin" in
  intros t Hin; simpl; rewrite Ht;
  unfold once_events in Hin;
  repeat (apply elem_of_cons in Hin as [->|Hin]);
  try (by apply elem_of_nil in Hin);
  (case_bool_decide; [try done; by simplify_eq | try done; by simplify_eq]).

Lemma hitbox_an_block_log s1 s2 m m2 s0 h1 h2 h1p h2p st :
  hitboxes s1 !! h1 = Some h1p -> hitboxes s2 !! h2 = Some h2p ->
  hitbox_log_inv s1 s2 m m2 s0 st ->
  hitbox_log_inv s1 s2 m m2 s0 (hitbox_an_block m m2 h1 h2 h1p h2p st).
Proof.
  intros L1 L2 I. pose proof I as [T (extra & E & Hok)].
  unfold hitbox_an_block.
  destruct (hl_an_ev st) as [ev|] eqn:Hev; [|done].
  destruct (_ && _) eqn:Hc; [|done].
  apply andb_true_iff in Hc as [Hc N2]. apply andb_true_iff in Hc as [R A1].
  apply negb_true_iff in R.
  pose proof (th_an _ T _ Hev) as Ht.
  split; [retyped|]. eexists. split.
  { simpl. rewrite E, <- app_assoc. reflexivity. }
  eapply log_ok_snoc; [exact Hok | |].
  - split; [done|]. simpl. rewrite Ht. split; [done|].
    split; eexists; eauto using is_normal_type, is_attack_type.
  - flags_after Ht.
Qed.

Lemma hitbox_nn_block_log s1 s2 m m2 s0 h1 h2 h1p h2p st :
  hitboxes s1 !! h1 = Some h1p -> hitboxes s2 !! h2 = Some h2p ->
  hitbox_log_inv s1 s2 m m2 s0 st ->
  hitbox_log_inv s1 s2 m m2 s0 (hitbox_nn_block m m2 h1 h2 h1p h2p st).
Proof.
  intros L1 L2 I. pose proof I as [T (extra & E & Hok)].
  unfold hitbox_nn_block.
  destruct (hl_nn_ev st) as [ev|] eqn:Hev; [|done].
  destruct (_ && _) eqn:Hc; [|done].
  apply andb_true_iff in Hc as [Hc N2]. apply andb_true_iff in Hc as [R N1].
  apply negb_true_iff in R.
  pose proof (th_nn _ T _ Hev) as Ht.
  split; [retyped|]. eexists. split.
  { simpl. rewrite E, <- app_assoc. reflexivity. }
  eapply log_ok_snoc; [exact Hok | |].
  - split; [done|]. simpl. rewrite Ht. split; [done|].
    split; eexists; eauto using is_normal_type.
  - flags_after Ht.
Qed.

Lemma hitbox_eat_block_log s1 s2 m m2 s0 h2 h1p h2p das m2p st :
  hitboxes s2 !! h2 = Some h2p -> h_type h2p <> HITBOX_TYPE_DISABLED ->
  hitbox_log_inv s1 s2 m m2 s0 st ->
  hitbox_log_inv s1 s2 m m2 s0 (hitbox_eat_block m m2 h2 h1p h2p das m2p st).
Proof.
  intros L2 En I. pose proof I as [T (extra & E & Hok)].
  unfold hitbox_eat_block.
  destruct (hl_eat_ev st) as [ev|] eqn:Hev; [|done].
  destruct (_ && _) eqn:Hc; [|done].
  repeat (apply andb_true_iff in Hc as [Hc ?]).
  apply negb_true_iff in Hc.
  pose proof (th_eat _ T _ Hev) as Ht.
  split; [retyped|]. eexists. split.
  { simpl. rewrite E, <- app_assoc. reflexivity. }
  eapply log_ok_snoc; [exact Hok | |].
  - split; [done|]. simpl. split; [done|]. split; [done|]. by exists h2p.
  - flags_after Ht.
Qed.

Lemma hitbox_na_block_log s1 s2 m m2 s0 h1 h2 h1p h2p das st :
  hitboxes s1 !! h1 = Some h1p -> hitboxes s2 !! h2 = Some h2p ->
  hitbox_log_inv s1 s2 m m2 s0 st ->
  hitbox_log_inv s1 s2 m m2 s0 (hitbox_na_block m m2 h1 h2 h1p h2p das st).
Proof.
  intros L1 L2 I. pose proof I as [T (extra & E & Hok)].
  unfold hitbox_na_block.
  destruct (hl_na_ev st) as [ev|] eqn:Hev; [|done].
  destruct (_ && _) eqn:Hc; [|done].
  repeat (apply andb_true_iff in Hc as [Hc ?]).
  apply negb_true_iff in Hc.
  pose proof (th_na _ T _ Hev) as Ht.
  split; [retyped|]. eexists. split.
  { simpl. rewrite E, <- app_assoc. reflexivity. }
  eapply log_ok_snoc; [exact Hok | |].
  - split; [done|]. simpl. rewrite Ht. split; [done|].
    split; eexists; eauto using is_normal_type, is_attack_type.
  - flags_after Ht.
Qed.

(** The calls of the hazard loop, for the hazards [hz] still to go. *)
Lemma raise_hazards_log s1 s2 m m2 h1 h2 h1p h2p ev hz extra rep (s s0 : RS) :
  hitboxes s1 !! h1 = Some h1p -> h_type h1p = HITBOX_TYPE_NORMAL ->
  hitboxes s2 !! h2 = Some h2p -> h_type h2p = HITBOX_TYPE_ATTACK ->
  ev_type ev = MOB_EV_TOUCHED_HAZARD ->
  (forall x, x ∈ hz -> x ∈ h_hazards h2p) ->
  snd s = snd s0 ++ extra ->
  log_ok (hitbox_call_ok s1 s2 m m2) extra rep ->
  exists extra',
    snd (fold_left (fun acc x => raise ev m (PayloadHazard x m2 h1 h2) acc)
           hz s) = snd s0 ++ extra' /\
    log_ok (hitbox_call_ok s1 s2 m m2) extra' rep.
Proof.
  intros L1 N1 L2 A2 Ht. revert s extra.
  induction hz as [|x hz IH]; intros s extra Hin E Hok; simpl.
  - eauto.
  - eapply IH.
    + intros y Hy. apply Hin. by right.
    + simpl. rewrite E, <- app_assoc. reflexivity.
    + eapply log_ok_snoc; [exact Hok | |].
      * split; [done|]. simpl. split; [done|]. split; [done|].
        split; [by exists h1p|]. exists h2p. split; [done|]. split; [done|].
        apply Hin. by left.
      * flags_after Ht.
Qed.

Lemma hitbox_haz_block_log s1 s2 m m2 s0 h1 h2 h1p h2p das st :
  hitboxes s1 !! h1 = Some h1p -> hitboxes s2 !! h2 = Some h2p ->
  hitbox_log_inv s1 s2 m m2 s0 st ->
  hitbox_log_inv s1 s2 m m2 s0 (hitbox_haz_block m m2 h1 h2 h1p h2p das st).
Proof.
  intros L1 L2 I. pose proof I as [T (extra & E & Hok)].
  unfold hitbox_haz_block.
  destruct (hl_haz_ev st) as [ev|] eqn:Hev; [|done].
  destruct (_ && _) eqn:Hc; [|done].
  repeat (apply andb_true_iff in Hc as [Hc ?]).
  pose proof (th_haz _ T _ Hev) as Ht.
  split; [retyped|].
  destruct (raise_hazards_log s1 s2 m m2 h1 h2 h1p h2p ev (h_hazards h2p)
              extra (reported st) (hl_rs st) s0)
    as (extra' & E' & Hok'); eauto using is_normal_type, is_attack_type.
  exists extra'. split; [exact E'|].
  destruct Hok' as [F1 F2]. split; [done|].
  eapply Forall_impl; [exact F2|]. intros t Hle. simpl in *.
  destruct t; simpl in *; try done.
  destruct (hl_reported_haz st); simpl in *; lia.
Qed.

Lemma hitbox_damage_blocks_log s1 s2 m m2 s0 h1 h2 h1p h2p st :
  hitboxes s1 !! h1 = Some h1p -> hitboxes s2 !! h2 = Some h2p ->
  h_type h2p <> HITBOX_TYPE_DISABLED ->
  hitbox_log_inv s1 s2 m m2 s0 st ->
  hitbox_log_inv s1 s2 m m2 s0 (hitbox_damage_blocks m m2 h1 h2 h1p h2p st).
Proof.
  intros L1 L2 En I. unfold hitbox_damage_blocks.
  destruct (mobs_all _ !! m); [|done].
  destruct (mobs_all _ !! m2); [|done].
  destruct (_ && _); [done|].
  eapply hitbox_na_block_log, hitbox_haz_block_log, hitbox_eat_block_log; eauto.
Qed.

Lemma hitbox_inner_step_log s1 s2 m m2 s0 h1 h1p st h2e :
  hitboxes s1 !! h1 = Some h1p -> hitboxes s2 !! h2e.1 = Some h2e.2 ->
  hitbox_log_inv s1 s2 m m2 s0 st ->
  hitbox_log_inv s1 s2 m m2 s0 (hitbox_inner_step m m2 h1 h1p st h2e).
Proof.
  intros L1 L2 I. unfold hitbox_inner_step. destruct h2e as [h2 h2p].
  simpl in L2. case_bool_decide as En; [done|].
  destruct (mobs_all _ !! m); [|done].
  destruct (mobs_all _ !! m2); [|done].
  destruct (hitboxes_collide _ _ _ _ _ _ _ _); [|done].
  eapply hitbox_damage_blocks_log, hitbox_nn_block_log, hitbox_an_block_log;
    eauto.
Qed.

(** A loop body that keeps [P] on the elements of the list keeps it over
    the loop. *)
Lemma fold_left_inv_elem {A B} (P : A -> Prop) (f : A -> B -> A) l a :
  (forall a b, b ∈ l -> P a -> P (f a b)) -> P a -> P (fold_left f l a).
Proof.
  revert a. induction l as [|b l IH]; intros a Hf Ha; simpl; [done|].
  apply IH.
  - intros a' b' Hb. apply Hf. by right.
  - apply Hf; [by left | done].
Qed.

Lemma elem_of_imap_pair {A} (l : list A) (i : nat) (x : A) :
  (i, x) ∈ imap pair l -> l !! i = Some x.
Proof.
  intros H. apply elem_of_lookup_imap in H as (j & y & E & L).
  by simplify_eq.
Qed.

Lemma hitbox_outer_step_log s1 s2 m m2 s0 st h1e :
  hitboxes s1 !! h1e.1 = Some h1e.2 ->
  hitbox_log_inv s1 s2 m m2 s0 st ->
  hitbox_log_inv s1 s2 m m2 s0 (hitbox_outer_step m m2 s2 st h1e).
Proof.
  intros L1 I. unfold hitbox_outer_step. destruct h1e as [h1 h1p].
  simpl in L1. case_bool_decide; [done|].
  apply fold_left_inv_elem; [|done].
  intros st' [h2 h2p] Hin I'. apply hitbox_inner_step_log; [done| |done].
  by apply elem_of_imap_pair.
Qed.

(** The calls of the hitbox section: all of them are hitbox calls of the
    pair, and each event of [once_events] is reported at most once. *)
Lemma hitbox_section_log m m2 (s : RS) mp m2p s1 s2 :
  mobs_all (fst s) !! m = Some mp -> mobs_all (fst s) !! m2 = Some m2p ->
  cur_sprite mp = Some s1 -> cur_sprite m2p = Some s2 ->
  exists extra,
    snd (hitbox_section m m2 s) = snd s ++ extra /\
    Forall (hitbox_call_ok s1 s2 m m2) extra /\
    Forall (fun t => (length (calls_of_type t extra) <= 1)%nat) once_events.
Proof.
  intros Lm Lm2 S1 S2. unfold hitbox_section. rewrite Lm, Lm2, S1, S2.
  assert (exists extra : list Raised, snd s = snd s ++ extra /\
            Forall (hitbox_call_ok s1 s2 m m2) extra /\
            Forall (fun t => (length (calls_of_type t extra) <= 1)%nat)
              once_events) as Hnone.
  { exists []. split; [by rewrite app_nil_r|]. split; [constructor|].
    apply Forall_forall. intros; simpl; lia. }
  destruct (_ && _); [|exact Hnone].
  match goal with
  | |- context [hl_rs (fold_left ?f ?l ?a)] =>
      assert (hitbox_log_inv s1 s2 m m2 s (fold_left f l a))
        as [_ (extra & E & F1 & F2)]
  end.
  { apply fold_left_inv_elem.
    - intros st [h1 h1p] Hin I. apply hitbox_outer_step_log; [|done].
      by apply elem_of_imap_pair.
    - split.
      + constructor; simpl; intros ? ?; eauto using get_event_type.
      + exists []. simpl. split; [by rewrite app_nil_r|].
        split; [constructor|]. apply Forall_forall. intros; simpl; lia. }
  exists extra. split; [exact E|]. split; [exact F1|].
  eapply Forall_impl; [exact F2|]. intros t Hle. simpl in Hle.
  destruct (reported _ t); simpl in Hle; lia.
Qed.

Lemma hitbox_call_pair s1 s2 m m2 r :
  hitbox_call_ok s1 s2 m m2 r -> pair_call m m2 r.
Proof.
  intros [Hm Hp]. split; [done|].
  destruct (r_payload r); simpl; [done | | |]; by destruct Hp as [-> _].
Qed.

Lemma hitbox_section_pair m m2 (s : RS) :
  extends_with (pair_call m m2) s (hitbox_section m m2 s).
Proof.
  destruct (mobs_all (fst s) !! m) as [mp|] eqn:Lm;
    [|unfold hitbox_section; rewrite Lm; apply extends_with_refl].
  destruct (mobs_all (fst s) !! m2) as [m2p|] eqn:Lm2;
    [|unfold hitbox_section; rewrite Lm, Lm2; apply extends_with_refl].
  destruct (cur_sprite mp) as [s1|] eqn:S1;
    [|unfold hitbox_section; rewrite Lm, Lm2, S1; apply extends_with_refl].
  destruct (cur_sprite m2p) as [s2|] eqn:S2;
    [|unfold hitbox_section; rewrite Lm, Lm2, S1, S2;
      apply extends_with_refl].
  destruct (hitbox_section_log m m2 s mp m2p s1 s2) as (extra & E & F & _);
    try done.
  exists extra. split; [done|].
  eapply Forall_impl; [exact F|]. apply hitbox_call_pair.
Qed.

Lemma touch_section_pair m m2 d (s : RS) :
  extends_with (pair_call m m2) s (touch_section m m2 d s).
Proof.
  unfold touch_section.
  destruct (mobs_all (fst s) !! m) as [mp|]; [|apply extends_with_refl].
  destruct (mobs_all (fst s) !! m2) as [m2p|]; [|apply extends_with_refl].
  destruct (_ || _); [|apply extends_with_refl].
  destruct (_ && _); [|apply extends_with_refl].
  set (s1 := match get_event mp MOB_EV_TOUCHED_OBJECT with
             | Some ev => raise ev m (PayloadMob m2) s
             | None => s
             end).
  assert (extends_with (pair_call m m2) s s1) as H1.
  { subst s1. destruct (get_event mp MOB_EV_TOUCHED_OBJECT);
      [by apply extends_with_raise | apply extends_with_refl]. }
  destruct (get_event mp MOB_EV_TOUCHED_OPPONENT); [|done].
  destruct (can_hunt_now _ _ _); [|done].
  eapply extends_with_trans; [exact H1|]. by apply extends_with_raise.
Qed.

Lemma process_mob_touches_pair m m2 d (s : RS) :
  extends_with (pair_call m m2) s (process_mob_touches m m2 d s).
Proof.
  unfold process_mob_touches.
  destruct (mobs_all (fst s) !! m) as [mp|]; [|apply extends_with_refl].
  destruct (mobs_all (fst s) !! m2) as [m2p|]; [|apply extends_with_refl].
  eapply extends_with_same_log;
    [|eapply extends_with_trans;
       [apply touch_section_pair | apply hitbox_section_pair]].
  done.
Qed.

(** What the queueing functions append for the candidate [m2]. *)
Lemma process_mob_reaches_queue (Q : PendingIntermobEvent -> Prop)
    mp m2p m2 d pending :
  (forall e, queued_for m2 e -> Q e) -> Forall Q pending ->
  Forall Q (process_mob_reaches mp m2p m2 d pending).
Proof.
  intros HQ F. unfold process_mob_reaches.
  destruct (_ && _); [done|].
  destruct (_ ≫= _); [|done].
  destruct (is_mob_in_reach _ _ _); [|done].
  assert (Forall Q
            (if bool_decide (is_Some (get_event mp MOB_EV_OBJECT_IN_REACH))
             then (pending ++
                   [mkPending d (get_event mp MOB_EV_OBJECT_IN_REACH) m2])%list
             else pending)) as F1.
  { case_bool_decide as Hs; [|done]. destruct Hs as [ev Hev].
    apply Forall_app. split; [done|]. constructor; [|constructor].
    apply HQ. split; [done|]. exists ev. split; [done|].
    rewrite (get_event_type _ _ _ Hev). unfold queued_events. repeat first [ apply list_elem_of_here | apply list_elem_of_further ]. }
  destruct (_ && _) eqn:Hc; [|done].
  apply andb_true_iff in Hc as [Hs _]. apply bool_decide_eq_true in Hs.
  destruct Hs as [ev Hev].
  apply Forall_app. split; [done|]. constructor; [|constructor].
  apply HQ. split; [done|]. exists ev. split; [done|].
  rewrite (get_event_type _ _ _ Hev). unfold queued_events. repeat first [ apply list_elem_of_here | apply list_elem_of_further ].
Qed.

Lemma queued_for_intro m2 d ev t mp :
  get_event mp t = Some ev -> t ∈ queued_events ->
  queued_for m2 (mkPending d (Some ev) m2).
Proof.
  intros Hev Ht. split; [done|]. exists ev. split; [done|].
  by rewrite (get_event_type _ _ _ Hev).
Qed.

Ltac queue_snoc HQ Hev :=
  apply Forall_app; split; [done|]; constructor; [|constructor];
  apply HQ; eapply queued_for_intro; [exact Hev|];
  unfold queued_events; repeat first [ apply list_elem_of_here | apply list_elem_of_further ].

Lemma process_mob_misc_interactions_queue (Q : PendingIntermobEvent -> Prop)
    gs mp m2p m m2 d d_between pending :
  (forall e, queued_for m2 e -> Q e) -> Forall Q pending ->
  Forall Q
    (process_mob_misc_interactions gs mp m2p m m2 d d_between pending).
Proof.
  intros HQ F. unfold process_mob_misc_interactions.
  assert (Forall Q (near_carriable mp m2p m2 d_between pending)) as F1.
  { unfold near_carriable.
    destruct (get_event mp MOB_EV_NEAR_CARRIABLE_OBJECT) eqn:Hev; [|done].
    destruct (carry_info m2p); [|done].
    destruct (_ && _); [|done]. queue_snoc HQ Hev. }
  assert (Forall Q (near_tool mp m2p m m2 d_between
                      (near_carriable mp m2p m2 d_between pending))) as F2.
  { unfold near_tool.
    destruct (get_event mp MOB_EV_NEAR_TOOL) eqn:Hev; [|done].
    destruct (mob_class m2p) as [[r|]| |]; try done.
    - destruct (Qleb _ _); [|done]. case_bool_decide; [|done].
      queue_snoc HQ Hev.
    - destruct (Qleb _ _); [|done]. queue_snoc HQ Hev. }
  assert (Forall Q (near_group_task mp m2p m2 d_between
                      (near_tool mp m2p m m2 d_between
                         (near_carriable mp m2p m2 d_between pending))))
    as F3.
  { unfold near_group_task at 1.
    destruct (get_event mp MOB_EV_NEAR_GROUP_TASK) eqn:Hev; [|done].
    destruct (mob_class m2p); try done.
    destruct (_ && _); [|done]. queue_snoc HQ Hev. }
  unfold touched_active_leader.
  destruct (get_event mp MOB_EV_TOUCHED_ACTIVE_LEADER) eqn:Hev; [|done].
  destruct (_ && _); [|done]. queue_snoc HQ Hev.
Qed.

Lemma queue_section_queue (Q : PendingIntermobEvent -> Prop)
    m m2 d d_between (c : Collect) :
  (forall e, queued_for m2 e -> Q e) -> Forall Q (snd c) ->
  fst (queue_section m m2 d d_between c) = fst c /\
  Forall Q (snd (queue_section m m2 d d_between c)).
Proof.
  intros HQ F. unfold queue_section.
  destruct (mobs_all _ !! m); [|done].
  destruct (mobs_all _ !! m2); [|done].
  simpl. split; [done|].
  apply process_mob_misc_interactions_queue; [done|].
  destruct (_ && _); [|done].
  by apply process_mob_reaches_queue.
Qed.

Lemma pair_call_ok m m2 n r :
  m2 <> m -> (m2 < n)%nat -> pair_call m m2 r -> call_ok m n r.
Proof. intros Hne Hlt [Hm Hp]. unfold call_ok. by rewrite Hp. Qed.

Lemma pair_step_inv m n s0 (c : Collect) m2 :
  (m2 < n)%nat -> collect_inv m n s0 c -> collect_inv m n s0 (pair_step m c m2).
Proof.
  intros Hlt [E F]. unfold pair_step.
  destruct (mobs_all _ !! m) as [mp|]; [|done].
  destruct (mobs_all _ !! m2) as [m2p|]; [|done].
  destruct (pair_skipped mp m2p m m2) eqn:Hsk; [done|].
  assert (m2 <> m) as Hne.
  { unfold pair_skipped in Hsk. repeat (apply orb_false_iff in Hsk as [Hsk _]).
    apply Nat.eqb_neq in Hsk. done. }
  match goal with
  | |- collect_inv _ _ _ (queue_section _ _ ?d ?db (?rs1, _)) =>
      assert (extends_with (call_ok m n) s0 rs1) as E1;
      [|destruct (queue_section_queue (queued_ok m n) m m2 d db (rs1, snd c))
          as [Efst Fq]]
  end.
  - destruct (Qleb _ _); [|done].
    eapply extends_with_trans; [exact E|].
    eapply extends_with_impl; [|apply process_mob_touches_pair].
    intros r. by apply pair_call_ok.
  - intros e He. by exists m2.
  - done.
  - split; [by rewrite Efst | done].
Qed.

Lemma collect_pending_inv m (s : RS) :
  collect_inv m (length (mobs_all (fst s))) s (collect_pending m s).
Proof.
  unfold collect_pending. apply fold_left_inv_elem.
  - intros c m2 Hin. apply pair_step_inv.
    apply elem_of_seq in Hin. lia.
  - split; [apply extends_with_refl | constructor].
Qed.

Lemma dispatch_pending_calls m n sb evs (s : RS) :
  Forall (queued_ok m n) evs ->
  extends_with (call_ok m n) s (dispatch_pending m sb evs s).
Proof.
  intros F. revert s. induction F as [|e evs He F IH]; intros s; simpl.
  - apply extends_with_refl.
  - case_bool_decide; [|apply extends_with_refl].
    eapply extends_with_trans; [|apply IH].
    unfold run_pending. destruct (pe_event_ptr e); [|apply extends_with_refl].
    apply extends_with_raise.
    destruct He as (m2 & Hne & Hlt & Hm2 & _).
    unfold call_ok. simpl. by rewrite Hm2.
Qed.

End WithCollaborators.
End CallFacts.
(* ===================================================================== *)
(** ** What the resolver calls, and how often *)
(* ===================================================================== *)

Module CallProps.
Import Resolver ResolverSpec ResolverFacts CallSpec CallFacts.

Local Open Scope Q_scope.

Ltac in_list :=
  solve [ repeat first [ apply list_elem_of_here | apply list_elem_of_further ] ].

Ltac not_in_list :=
  let H := fresh in
  intros H; repeat (apply elem_of_cons in H as [H|H]; [done|]);
  by apply elem_of_nil in H.

Lemma calls_of_type_none t (l : list Raised) :
  Forall (fun r => ev_type (r_event r) <> t) l -> calls_of_type t l = [].
Proof.
  induction 1 as [|r l Hr _ IH]; [done|].
  unfold calls_of_type in *. simpl. rewrite bool_decide_eq_false_2; done.
Qed.

Lemma hitbox_call_event s1 s2 m m2 r :
  hitbox_call_ok s1 s2 m m2 r ->
  ev_type (r_event r) ∈
    [ MOB_EV_HITBOX_TOUCH_A_N; MOB_EV_HITBOX_TOUCH_N_A;
      MOB_EV_HITBOX_TOUCH_N_N; MOB_EV_HITBOX_TOUCH_EAT;
      MOB_EV_TOUCHED_HAZARD ].
Proof.
  intros [_ H]. destruct (r_payload r); [done | | |].
  - destruct H as [_ H]. destruct (ev_type (r_event r)); try done; in_list.
  - destruct H as (_ & E & _). rewrite E. in_list.
  - destruct H as (_ & E & _). rewrite E. in_list.
Qed.

(** The calls of the touch section: touch calls, at most one per event
    type. *)
Lemma touch_section_counts `{C : Collaborators} m m2 d (s : RS) :
  exists extra, snd (touch_section m m2 d s) = snd s ++ extra /\
    Forall (fun r => is_touch_call r = true) extra /\
    forall t, (length (calls_of_type t extra) <= 1)%nat.
Proof.
  assert (exists extra : list Raised, snd s = snd s ++ extra /\
            Forall (fun r => is_touch_call r = true) extra /\
            forall t, (length (calls_of_type t extra) <= 1)%nat) as Hnone.
  { exists []. split; [by rewrite app_nil_r|]. split; [constructor|].
    intros; simpl; lia. }
  unfold touch_section.
  destruct (mobs_all (fst s) !! m) as [mp|]; [|exact Hnone].
  destruct (mobs_all (fst s) !! m2) as [m2p|]; [|exact Hnone].
  destruct (_ || _); [|exact Hnone].
  destruct (_ && _); [|exact Hnone].
  destruct (get_event mp MOB_EV_TOUCHED_OBJECT) as [ob|] eqn:Hob;
    destruct (get_event mp MOB_EV_TOUCHED_OPPONENT) as [op|] eqn:Hop;
    try exact Hnone;
    try (apply get_event_type in Hob); try (apply get_event_type in Hop).
  - destruct (can_hunt_now _ _ _).
    + exists [mkRaised ob m (PayloadMob m2); mkRaised op m (PayloadMob m2)].
      split; [simpl; by rewrite <- app_assoc|]. split.
      * repeat constructor; unfold is_touch_call; simpl;
          rewrite ?Hob, ?Hop; done.
      * intros t. unfold calls_of_type. simpl. rewrite Hob, Hop.
        repeat case_bool_decide; simplify_eq; simpl; lia.
    + exists [mkRaised ob m (PayloadMob m2)]. split; [done|]. split.
      * repeat constructor; unfold is_touch_call; simpl; rewrite Hob; done.
      * intros t. rewrite calls_of_type_one. case_bool_decide; lia.
  - exists [mkRaised ob m (PayloadMob m2)]. split; [done|]. split.
    + repeat constructor; unfold is_touch_call; simpl; rewrite Hob; done.
    + intros t. rewrite calls_of_type_one. case_bool_decide; lia.
  - destruct (can_hunt_now _ _ _); [|exact Hnone].
    exists [mkRaised op m (PayloadMob m2)]. split; [done|]. split.
    + repeat constructor; unfold is_touch_call; simpl; rewrite Hop; done.
    + intros t. rewrite calls_of_type_one. case_bool_decide; lia.
Qed.

(** The calls of the hitbox section, whatever the mobs are. *)
Lemma hitbox_section_counts `{C : Collaborators} m m2 (s : RS) :
  exists extra, snd (hitbox_section m m2 s) = snd s ++ extra /\
    Forall (fun r => ev_type (r_event r) ∈
              [ MOB_EV_HITBOX_TOUCH_A_N; MOB_EV_HITBOX_TOUCH_N_A;
                MOB_EV_HITBOX_TOUCH_N_N; MOB_EV_HITBOX_TOUCH_EAT;
                MOB_EV_TOUCHED_HAZARD ]) extra /\
    Forall (fun t => (length (calls_of_type t extra) <= 1)%nat) once_events.
Proof.
  assert (exists extra : list Raised, snd s = snd s ++ extra /\
    Forall (fun r => ev_type (r_event r) ∈
              [ MOB_EV_HITBOX_TOUCH_A_N; MOB_EV_HITBOX_TOUCH_N_A;
                MOB_EV_HITBOX_TOUCH_N_N; MOB_EV_HITBOX_TOUCH_EAT;
                MOB_EV_TOUCHED_HAZARD ]) extra /\
    Forall (fun t => (length (calls_of_type t extra) <= 1)%nat) once_events)
    as Hnone.
  { exists []. split; [by rewrite app_nil_r|]. split; [constructor|].
    apply Forall_forall. intros; simpl; lia. }
  destruct (mobs_all (fst s) !! m) as [mp|] eqn:Lm;
    [|unfold hitbox_section; rewrite Lm; exact Hnone].
  destruct (mobs_all (fst s) !! m2) as [m2p|] eqn:Lm2;
    [|unfold hitbox_section; rewrite Lm, Lm2; exact Hnone].
  destruct (cur_sprite mp) as [s1|] eqn:S1;
    [|unfold hitbox_section; rewrite Lm, Lm2, S1; exact Hnone].
  destruct (cur_sprite m2p) as [s2|] eqn:S2;
    [|unfold hitbox_section; rewrite Lm, Lm2, S1, S2; exact Hnone].
  destruct (hitbox_section_log m m2 s mp m2p s1 s2) as (extra & E & F & F');
    try done.
  exists extra. split; [done|]. split; [|done].
  eapply Forall_impl; [exact F|]. apply hitbox_call_event.
Qed.

(** X1.  One call of [process_mob_touches] runs every handler at most
    once, the hazard handler apart (it is run once per hazard of the
    attack hitbox): of each of the two touch events and of the attack-on-
    normal, normal-on-attack, normal-on-normal and eat events, the log
    gains at most one call, however many hitbox pairs collide. *)
Theorem process_mob_touches_reports_once `{C : Collaborators}
    (m m2 : nat) (d : Q) (s : RS) :
  exists extra,
    snd (process_mob_touches m m2 d s) = snd s ++ extra /\
    forall t, t = MOB_EV_TOUCHED_HAZARD \/
              (length (calls_of_type t extra) <= 1)%nat.
Proof.
  unfold process_mob_touches.
  destruct (mobs_all (fst s) !! m) as [mp|];
    [|exists []; split; [by rewrite app_nil_r | intros; right; simpl; lia]].
  destruct (mobs_all (fst s) !! m2) as [m2p|];
    [|exists []; split; [by rewrite app_nil_r | intros; right; simpl; lia]].
  set (s1 := (write_mob (fst s) m
                (push_section mp m2p m m2 d (delta_t (fst s))), snd s)).
  destruct (touch_section_counts m m2 d s1) as (e1 & E1 & T1 & N1).
  destruct (hitbox_section_counts m m2 (touch_section m m2 d s1))
    as (e2 & E2 & T2 & N2).
  exists (e1 ++ e2)%list. split.
  { rewrite E2, E1. simpl. by rewrite app_assoc. }
  intros t. rewrite calls_of_type_app, length_app.
  assert (forall t', is_touch_call (mkRaised (mkMobEvent 0 t') 0 (PayloadMob 0))
                     = false ->
                     calls_of_type t' e1 = []) as Z1.
  { intros t' Ht'. apply calls_of_type_none.
    eapply Forall_impl; [exact T1|]. intros r Hr E.
    unfold is_touch_call in *. simpl in *. rewrite E in Hr. congruence. }
  assert (forall t', t' ∉ [ MOB_EV_HITBOX_TOUCH_A_N; MOB_EV_HITBOX_TOUCH_N_A;
                MOB_EV_HITBOX_TOUCH_N_N; MOB_EV_HITBOX_TOUCH_EAT;
                MOB_EV_TOUCHED_HAZARD ] -> calls_of_type t' e2 = []) as Z2.
  { intros t' Ht'. apply calls_of_type_none.
    eapply Forall_impl; [exact T2|]. intros r Hr E. simpl in Hr. by rewrite E in Hr. }
  rewrite Forall_forall in N2. specialize (N1 t).
  destruct t; try (by left); right;
    first [ rewrite Z2 by not_in_list; simpl; lia
          | rewrite Z1 by done; simpl; apply N2; unfold once_events; in_list ].
Qed.

(** X2.  Every call made by the hitbox loops for the pair [(m, m2)] runs
    on [m], is about [m2], and names hitboxes of the sprites the two mobs
    have when the loops start that are of the types its event stands for:
    an attack and a normal hitbox for attack-on-normal, two normal ones
    for normal-on-normal, a normal and an attack hitbox for
    normal-on-attack and for a hazard (which is one of the hazards of that
    attack hitbox), and a hitbox that is not disabled for an eat event.  A
    disabled hitbox is never named. *)
Theorem hitbox_calls_name_matching_hitboxes `{C : Collaborators}
    (m m2 : nat) (s : RS) (mp m2p : Mob) (s1 s2 : Sprite) :
  mobs_all (fst s) !! m = Some mp ->
  mobs_all (fst s) !! m2 = Some m2p ->
  cur_sprite mp = Some s1 ->
  cur_sprite m2p = Some s2 ->
  exists extra,
    snd (hitbox_section m m2 s) = snd s ++ extra /\
    Forall (hitbox_call_ok s1 s2 m m2) extra.
Proof.
  intros Lm Lm2 S1 S2.
  destruct (hitbox_section_log m m2 s mp m2p s1 s2) as (extra & E & F & _);
    try done.
  by exists extra.
Qed.

Lemma hitbox_calls_name_matching_hitboxes_witness :
  let s : RS := (Arena.duel, []) in
  exists extra,
    snd (hitbox_section (C := Examples.quiet) 0 1 s) = snd s ++ extra /\
    Forall (hitbox_call_ok Arena.fighter_sprite Arena.fighter_sprite 0 1)
      extra.
Proof.
  apply (hitbox_calls_name_matching_hitboxes (C := Examples.quiet) 0 1
           (Arena.duel, []) (Arena.fighter_at 0) (Arena.fighter_at 3));
    reflexivity.
Defined.

(** The two fighters of [Arena.duel] collide with every enabled hitbox:
    the first one is told of a normal-on-normal touch, of being eaten by
    the bite hitbox, of the two hazards of that hitbox and of a
    normal-on-attack touch, and of its own attack landing, once each. *)
Example duel_calls :
  map (fun r => (ev_type (r_event r), r_payload r))
    (snd (hitbox_section (C := Examples.quiet) 0 1 (Arena.duel, []))) =
  [ (MOB_EV_HITBOX_TOUCH_N_N, PayloadHitboxes 1 0 0);
    (MOB_EV_HITBOX_TOUCH_EAT, PayloadEat 1 0);
    (MOB_EV_TOUCHED_HAZARD, PayloadHazard 7 1 0 1);
    (MOB_EV_TOUCHED_HAZARD, PayloadHazard 8 1 0 1);
    (MOB_EV_HITBOX_TOUCH_N_A, PayloadHitboxes 1 0 1);
    (MOB_EV_HITBOX_TOUCH_A_N, PayloadHitboxes 1 1 0) ].
Proof. vm_compute. reflexivity. Qed.

(** X3.  Every handler that [process_mob_interactions] runs for the mob
    [m], in the touch section, in the hitbox loops or from the queue, is a
    handler of [m] itself, and the mob it is told about is another mob:
    one of the candidates [0 .. n_mobs - 1] other than [m]. *)
Theorem process_mob_interactions_calls `{C : Collaborators}
    (m : nat) (s : RS) :
  exists extra,
    snd (process_mob_interactions m s) = snd s ++ extra /\
    Forall (call_ok m (length (mobs_all (fst s)))) extra.
Proof.
  unfold process_mob_interactions.
  destruct (collect_pending_inv m s) as [E F].
  eapply extends_with_trans; [exact E|].
  apply dispatch_pending_calls.
  apply Forall_forall. intros e He. rewrite Forall_forall in F. apply F.
  eapply elem_of_Permutation_proper; [|exact He]. symmetry.
  apply (QueueClaims.std_sort_perm (sort_key _ m)).
Qed.

(** X4.  Every entry of the queue that the loop over the candidates
    builds has a handler pointer that is not null, the handler of a reach
    or proximity event, and stands for a candidate other than [m]: the
    null test of the dispatch loop never fires. *)
Theorem collect_pending_queue `{C : Collaborators} (m : nat) (s : RS) :
  Forall (queued_ok m (length (mobs_all (fst s)))) (snd (collect_pending m s)).
Proof. by destruct (collect_pending_inv m s) as [_ F]. Qed.

End CallProps.
(* ===================================================================== *)
(** ** The push *)
(* ===================================================================== *)

Module PushProps.
Import Resolver ResolverFacts PushSpec.

Local Open Scope Q_scope.

Section WithCollaborators.
Context `{C : Collaborators}.

Lemma overlap_abs mp m2p h :
  dist (pos mp) (hitbox_world_pos m2p h) < radius mp + h_radius h ->
  Qabs (dist (pos mp) (hitbox_world_pos m2p h) - radius mp - h_radius h)
  == hitbox_overlap mp m2p h.
Proof.
  intros Hlt. unfold hitbox_overlap.
  rewrite Qabs_neg by lra. lra.
Qed.

Lemma hitbox_push_step_deepest mp m2p hs acc h :
  deepest_overlap mp m2p hs acc ->
  deepest_overlap mp m2p (hs ++ [h]) (hitbox_push_step mp m2p acc h).
Proof.
  intros [Hmax Hwho]. unfold hitbox_push_step.
  assert (forall x, x ∈ (hs ++ [h])%list -> x ∈ hs \/ x = h) as Hsplit.
  { intros x Hx. apply elem_of_app in Hx as [Hx|Hx]; [by left|].
    right. by apply list_elem_of_singleton in Hx. }
  assert (~ hitbox_overlaps mp m2p h ->
          deepest_overlap mp m2p (hs ++ [h]) acc) as Hskip.
  { intros Hno. split.
    - intros x Hx Ho. destruct (Hsplit x Hx) as [Hin | ->]; [eauto | done].
    - destruct Hwho as [[E Hnone] | (w & Hw & Ho & Ea & Eg)].
      + left. split; [done|]. intros x Hx.
        destruct (Hsplit x Hx) as [Hin | ->]; eauto.
      + right. exists w. split; [|done]. apply elem_of_app. by left. }
  case_bool_decide as Hty.
  { apply Hskip. intros [Hen _]. done. }
  destruct (Qltb _ _) eqn:Hlt.
  2:{ apply Hskip. intros [_ Ho]. apply Qltb_ge in Hlt. lra. }
  apply Qltb_lt in Hlt. pose proof (overlap_abs mp m2p h Hlt) as Habs.
  assert (hitbox_overlaps mp m2p h) as Hh by done.
  destruct (_ || _) eqn:Hnew.
  - split.
    + intros x Hx Ho. simpl. rewrite Habs.
      destruct (Hsplit x Hx) as [Hin | ->]; [|lra].
      specialize (Hmax x Hin Ho).
      apply orb_true_iff in Hnew as [Hz|Hl].
      * apply Qeqb_eq in Hz. destruct Ho as [_ Ho]. unfold hitbox_overlap in *.
        lra.
      * apply Qltb_lt in Hl. rewrite Habs in Hl. lra.
    + right. exists h. split; [apply elem_of_app; right; by left|].
      split; [done|]. split; [exact Habs | done].
  - apply orb_false_iff in Hnew as [Hz Hl]. apply Qltb_ge in Hl.
    rewrite Habs in Hl. split.
    + intros x Hx Ho. destruct (Hsplit x Hx) as [Hin | ->]; [eauto | done].
    + destruct Hwho as [[E Hnone] | (w & Hw & Ho & Ea & Eg)].
      * rewrite E in Hz. simpl in Hz. done.
      * right. exists w. split; [|done]. apply elem_of_app. by left.
Qed.

Lemma hitbox_push_fold_deepest mp m2p hs done_hs acc :
  deepest_overlap mp m2p done_hs acc ->
  deepest_overlap mp m2p (done_hs ++ hs)
    (fold_left (hitbox_push_step mp m2p) hs acc).
Proof.
  revert done_hs acc. induction hs as [|h hs IH]; intros done_hs acc Hd; simpl.
  - by rewrite app_nil_r.
  - replace (done_hs ++ h :: hs)%list with ((done_hs ++ [h]) ++ hs)%list
      by (by rewrite <- app_assoc).
    apply IH. by apply hitbox_push_step_deepest.
Qed.

End WithCollaborators.

(** X5.  When the other mob pushes with its hitboxes, the push the loop
    over its hitboxes computes is the deepest overlap: no enabled hitbox
    reaches further into the circle of the pushed mob than the amount
    found, and either no enabled hitbox reaches into it and the push is
    [(0, 0)], or the amount is the overlap of one of them and the angle
    points from that hitbox to the pushed mob. *)
Theorem hitbox_push_deepest `{C : Collaborators} (mp m2p : Mob) (s2 : Sprite) :
  cur_sprite m2p = Some s2 ->
  deepest_overlap mp m2p (hitboxes s2) (hitbox_push mp m2p).
Proof.
  intros Hs. unfold hitbox_push. rewrite Hs.
  apply (hitbox_push_fold_deepest mp m2p (hitboxes s2) []).
  split.
  - intros h Hh. by apply elem_of_nil in Hh.
  - left. split; [done|]. intros h Hh. by apply elem_of_nil in Hh.
Qed.

Lemma hitbox_push_deepest_witness :
  deepest_overlap (C := Examples.quiet) (Arena.fighter_at 0)
    (Arena.fighter_at 3) (hitboxes Arena.fighter_sprite)
    (hitbox_push (C := Examples.quiet) (Arena.fighter_at 0)
       (Arena.fighter_at 3)).
Proof.
  apply (hitbox_push_deepest (C := Examples.quiet) (Arena.fighter_at 0)
           (Arena.fighter_at 3) Arena.fighter_sprite).
  reflexivity.
Defined.

(** X6.  The push section writes nothing but the two push members of the
    mob, and it only ever raises the stored amount: the mob comes out
    either as it went in, or with a strictly larger [push_amount]. *)
Theorem push_section_raises_push `{C : Collaborators}
    (mp m2p : Mob) (m m2 : nat) (d dt : Q) :
  let mp' := push_section mp m2p m m2 d dt in
  set_push mp' (push_amount mp) (push_angle mp) = mp /\
  (mp' = mp \/ push_amount mp < push_amount mp').
Proof.
  intros mp'. subst mp'. unfold push_section.
  assert (set_push mp (push_amount mp) (push_angle mp) = mp) as Hid
    by (by destruct mp).
  destruct (push_gate _ _ _ _); [|by split; [|left]].
  destruct (compute_push _ _ _ _ _ _) as [a g].
  destruct (Qltb _ _) eqn:Hlt; [|by split; [|left]].
  apply Qltb_lt in Hlt. split; [by destruct mp | by right].
Qed.

(** X7.  The vertical test of the push is at least as strict as that of
    the touch events: whenever the push computation is entered for a pair,
    the pair also passes [z_touch]. *)
Theorem push_gate_z_touch `{C : Collaborators}
    (mp m2p : Mob) (m m2 : nat) :
  push_gate mp m2p m m2 = true -> z_touch mp m2p = true.
Proof.
  unfold push_gate, z_touch. intros H.
  apply andb_true_iff in H as [H _]. apply andb_true_iff in H as [_ H].
  destruct (Qeqb (height mp) 0) eqn:H1; [done|].
  destruct (Qeqb (height m2p) 0) eqn:H2; [done|]. simpl.
  rewrite !orb_false_r in H. apply andb_true_iff in H as [Ha Hb].
  apply Qltb_lt in Ha, Hb.
  apply negb_true_iff, orb_false_iff. split; apply Qltb_ge; lra.
Qed.

Lemma push_gate_z_touch_witness :
  z_touch (Examples.enemy_aged 0 5) (Examples.enemy_aged 3 5) = true.
Proof.
  apply (push_gate_z_touch (C := Examples.quiet) (Examples.enemy_aged 0 5)
           (Examples.enemy_aged 3 5) 0 1).
  reflexivity.
Defined.

End PushProps.
(* ===================================================================== *)
(** ** What the resolver itself writes *)
(* ===================================================================== *)

Module FrameProps.
Import Resolver ResolverFacts TouchProps FrameSpec.
Local Open Scope Q_scope.

Section Quiet.
Context `{C : Collaborators}.
Hypothesis Hquiet : quiet_handlers.

Lemma raise_state ev m p s : fst (raise ev m p s) = fst s.
Proof using Hquiet. apply Hquiet. Qed.

Lemma touch_section_state m m2 d s : fst (touch_section m m2 d s) = fst s.
Proof using Hquiet.
  unfold touch_section.
  destruct (mobs_all (fst s) !! m) as [mp|]; [|done].
  destruct (mobs_all (fst s) !! m2) as [m2p|]; [|done].
  destruct (_ || _); [|done].
  destruct (_ && _); [|done].
  destruct (get_event mp MOB_EV_TOUCHED_OBJECT) as [ob|];
    destruct (get_event mp MOB_EV_TOUCHED_OPPONENT) as [op|];
    try destruct (can_hunt_now _ _ _); by rewrite ?raise_state.
Qed.

Lemma raise_hazards_state ev m m2 h1 h2 hz s :
  fst (fold_left (fun acc x => raise ev m (PayloadHazard x m2 h1 h2) acc) hz s)
  = fst s.
Proof using Hquiet.
  revert s. induction hz as [|x hz IH]; intros s; simpl; [done|].
  by rewrite IH, raise_state.
Qed.

Lemma hitbox_inner_step_state gs m m2 h1 h1p st h2e :
  fst (hl_rs st) = gs ->
  fst (hl_rs (hitbox_inner_step m m2 h1 h1p st h2e)) = gs.
Proof using Hquiet.
  intros Hst. destruct h2e as [h2 h2p]. unfold hitbox_inner_step.
  case_bool_decide; [done|].
  destruct (_ !! m) as [mp|]; [|done].
  destruct (_ !! m2) as [m2p|]; [|done].
  destruct (hitboxes_collide _ _ _ _ _ _ _ _); [|done].
  set (st1 := hitbox_an_block m m2 h1 h2 h1p h2p st).
  assert (fst (hl_rs st1) = gs) as H1.
  { subst st1. unfold hitbox_an_block. destruct (hl_an_ev st); [|done].
    destruct (_ && _); [|done]. cbn [hl_rs]. by rewrite raise_state. }
  set (st2 := hitbox_nn_block m m2 h1 h2 h1p h2p st1).
  assert (fst (hl_rs st2) = gs) as H2.
  { subst st2. unfold hitbox_nn_block. destruct (hl_nn_ev st1); [|done].
    destruct (_ && _); [|done]. cbn [hl_rs]. by rewrite raise_state. }
  clearbody st2. clear H1 st1 Hst.
  unfold hitbox_damage_blocks.
  destruct (_ !! m) as [mp'|]; [|done].
  destruct (_ !! m2) as [m2p'|]; [|done].
  destruct (_ && _); [done|].
  set (das := existsb _ _). clearbody das.
  set (st3 := hitbox_eat_block m m2 h2 h1p h2p das m2p' st2).
  assert (fst (hl_rs st3) = gs) as H3.
  { subst st3. unfold hitbox_eat_block. destruct (hl_eat_ev st2); [|done].
    destruct (_ && _); [|done]. cbn [hl_rs]. by rewrite raise_state. }
  clearbody st3.
  set (st4 := hitbox_haz_block m m2 h1 h2 h1p h2p das st3).
  assert (fst (hl_rs st4) = gs) as H4.
  { subst st4. unfold hitbox_haz_block. destruct (hl_haz_ev st3); [|done].
    destruct (_ && _); [|done]. cbn [hl_rs]. by rewrite raise_hazards_state. }
  clearbody st4.
  unfold hitbox_na_block. destruct (hl_na_ev st4); [|done].
  destruct (_ && _); [|done]. cbn [hl_rs]. by rewrite raise_state.
Qed.

Lemma hitbox_section_state m m2 s : fst (hitbox_section m m2 s) = fst s.
Proof using Hquiet.
  unfold hitbox_section.
  destruct (mobs_all (fst s) !! m) as [mp|]; [|done].
  destruct (mobs_all (fst s) !! m2) as [m2p|]; [|done].
  destruct (cur_sprite mp) as [s1|]; [|done].
  destruct (cur_sprite m2p) as [s2|]; [|done].
  destruct (_ && _); [|done].
  apply (fold_left_inv (fun st => fst (hl_rs st) = fst s)); [|done].
  intros st [h1 h1p] Hst. unfold hitbox_outer_step.
  case_bool_decide; [done|].
  apply (fold_left_inv (fun st => fst (hl_rs st) = fst s)); [|done].
  intros. by apply hitbox_inner_step_state.
Qed.

Lemma only_pushed_refl m gs : only_pushed m gs gs.
Proof. by left. Qed.

Lemma write_mob_twice gs m a b :
  write_mob (write_mob gs m a) m b = write_mob gs m b.
Proof.
  unfold write_mob, set_mobs. destruct gs. cbn. by rewrite list_insert_insert_eq.
Qed.

Lemma only_pushed_trans m g1 g2 g3 :
  only_pushed m g1 g2 -> only_pushed m g2 g3 -> only_pushed m g1 g3.
Proof.
  intros [-> | (mp & a & g & Hm & Ha & ->)]; [done|].
  intros [-> | (mp' & a' & g' & Hm' & Ha' & ->)].
  - right. by exists mp, a, g.
  - right. rewrite (write_mob_lookup_eq _ _ _ _ Hm) in Hm'.
    injection Hm' as <-. exists mp, a', g'. split; [done|].
    split; [cbn in Ha'; lra|].
    by rewrite write_mob_twice.
Qed.

Lemma process_mob_touches_pushed m m2 d s :
  only_pushed m (fst s) (fst (process_mob_touches m m2 d s)).
Proof using Hquiet.
  unfold process_mob_touches.
  destruct (mobs_all (fst s) !! m) as [mp|] eqn:Hm; [|by left].
  destruct (mobs_all (fst s) !! m2) as [m2p|]; [|by left].
  rewrite hitbox_section_state, touch_section_state. cbn [fst].
  unfold push_section.
  destruct (push_gate _ _ _ _); [|left; by apply write_mob_same].
  destruct (compute_push _ _ _ _ _ _) as [a g].
  destruct (Qltb _ _) eqn:Hlt; [|left; by apply write_mob_same].
  apply Qltb_lt in Hlt. right. by exists mp, (a / delta_t (fst s)), g.
Qed.

Lemma pair_step_pushed m (c : Collect) m2 :
  only_pushed m (fst (fst c)) (fst (fst (pair_step m c m2))).
Proof using Hquiet.
  unfold pair_step.
  destruct (_ !! m) as [mp|]; [|by left].
  destruct (_ !! m2) as [m2p|]; [|by left].
  destruct (pair_skipped _ _ _ _); [by left|].
  rewrite WalkClaims.queue_section_state. cbn [fst].
  destruct (Qleb _ _); [apply process_mob_touches_pushed | by left].
Qed.

Lemma dispatch_pending_state m sb evs s :
  fst (dispatch_pending m sb evs s) = fst s.
Proof using Hquiet.
  revert s. induction evs as [|e evs IH]; intros s; simpl; [done|].
  case_bool_decide; [|done].
  rewrite IH. unfold run_pending. destruct (pe_event_ptr e); [|done].
  apply raise_state.
Qed.

Lemma process_mob_interactions_pushed m s :
  only_pushed m (fst s) (fst (process_mob_interactions m s)).
Proof using Hquiet.
  unfold process_mob_interactions, process_mob_interactions_sorted.
  rewrite dispatch_pending_state.
  unfold collect_pending.
  apply (fold_left_inv (fun c => only_pushed m (fst s) (fst (fst c)))).
  - intros c m2 Hc. eapply only_pushed_trans; [exact Hc|].
    apply pair_step_pushed.
  - apply only_pushed_refl.
Qed.

End Quiet.

(** X25.  Apart from what the handlers it runs do, resolving the
    interactions of a mob writes nothing but the push of that mob: when
    the handlers change nothing, the gameplay state comes out either as
    it went in, or with the mob holding a strictly larger [push_amount]
    and the angle that goes with it; every other mob, and every other
    member of this one, is as before. *)
Theorem process_mob_interactions_writes_push_only `{C : Collaborators}
    (m : nat) (s : RS) :
  quiet_handlers ->
  only_pushed m (fst s) (fst (process_mob_interactions m s)).
Proof. intros Hq. by apply process_mob_interactions_pushed. Qed.

Lemma process_mob_interactions_writes_push_only_witness :
  only_pushed 0 Examples.two_enemies
    (fst (process_mob_interactions (C := Examples.quiet) 0
            (Examples.two_enemies, []))).
Proof.
  apply (process_mob_interactions_writes_push_only (C := Examples.quiet) 0
           (Examples.two_enemies, [])).
  intros ev m p gs. reflexivity.
Defined.

(** X26.  The hazard handler alone does not start the hitbox loops: a
    mob whose state handles none of the four hitbox touch events gets no
    call from them, whether or not it handles the hazard event, and
    however its hitboxes lie on those of the other mob. *)
Theorem hitbox_section_needs_hitbox_handler `{C : Collaborators}
    (m m2 : nat) (s : RS) (mp : Mob) :
  mobs_all (fst s) !! m = Some mp ->
  handles_no_hitbox_touch mp ->
  hitbox_section m m2 s = s.
Proof.
  intros Hm (Han & Hna & Hnn & Heat). unfold hitbox_section.
  rewrite Hm, Han, Hna, Hnn, Heat.
  destruct (_ !! m2); [|done].
  destruct (cur_sprite mp); [|done].
  by destruct (cur_sprite _).
Qed.

Lemma hitbox_section_needs_hitbox_handler_witness :
  hitbox_section (C := Examples.quiet) 0 1 (Arena.ambush, []) =
  (Arena.ambush, []).
Proof.
  apply (hitbox_section_needs_hitbox_handler (C := Examples.quiet) 0 1
           (Arena.ambush, []) (Arena.wary_at 0)).
  - reflexivity.
  - repeat split; reflexivity.
Defined.

End FrameProps.
(* ===================================================================== *)
(** ** The activity grid *)
(* ===================================================================== *)

Module GridProps.
Import Activity GridSpec.

Local Open Scope Q_scope.

(** Truncation toward zero is the floor of a number that is not negative
    and the ceiling of one that is not positive; it is monotone. *)
Lemma float_to_int_floor (q : Q) :
  (0 <= Qnum q)%Z -> float_to_int q = Qfloor q.
Proof.
  intros H. destruct q as [n d]. simpl in *. unfold float_to_int. simpl.
  apply Z.quot_div_nonneg; lia.
Qed.

Lemma float_to_int_ceiling (q : Q) :
  (Qnum q <= 0)%Z -> float_to_int q = Qceiling q.
Proof.
  intros H. destruct q as [n d]. unfold float_to_int, Qceiling. simpl in *.
  rewrite <- (Z.opp_involutive n) at 1. rewrite Z.quot_opp_l by lia.
  rewrite Z.quot_div_nonneg by lia. reflexivity.
Qed.

Lemma float_to_int_mono (q1 q2 : Q) :
  q1 <= q2 -> (float_to_int q1 <= float_to_int q2)%Z.
Proof.
  intros H.
  assert (forall q : Q, (0 <= Qnum q)%Z <-> 0 <= q) as Hsign.
  { intros q. unfold Qle. simpl. lia. }
  destruct (Z_le_gt_dec 0 (Qnum q1)) as [P1|N1].
  - assert (0 <= Qnum q2)%Z as P2.
    { apply Hsign. eapply Qle_trans; [|exact H]. by apply Hsign. }
    rewrite !float_to_int_floor by done. by apply Qfloor_resp_le.
  - destruct (Z_le_gt_dec 0 (Qnum q2)) as [P2|N2].
    + rewrite (float_to_int_ceiling q1) by lia.
      rewrite (float_to_int_floor q2) by done.
      assert (Qceiling q1 <= 0)%Z.
      { change 0%Z with (Qceiling 0). apply Qceiling_resp_le.
        unfold Qle. simpl. lia. }
      assert (0 <= Qfloor q2)%Z.
      { change 0%Z with (Qfloor 0). apply Qfloor_resp_le. by apply Hsign. }
      lia.
    + rewrite !float_to_int_ceiling by lia. by apply Qceiling_resp_le.
Qed.

Lemma float_to_int_between (a b c : Q) :
  a <= b -> b <= c ->
  (float_to_int a <= float_to_int b <= float_to_int c)%Z.
Proof. intros H1 H2. split; by apply float_to_int_mono. Qed.

Lemma div_le_div (a b s : Q) : 0 < s -> a <= b -> a / s <= b / s.
Proof.
  intros Hs H. unfold Qdiv. apply Qmult_le_compat_r; [done|].
  apply Qinv_le_0_compat. by apply Qlt_le_weak.
Qed.

(** *** Marking a rectangle of cells *)

Lemma mark_cells_shape fx tx fy ty cells :
  shape (mark_cells fx tx fy ty cells) = shape cells.
Proof.
  unfold mark_cells, shape. apply list_eq. intros x.
  rewrite !list_lookup_fmap, list_lookup_imap.
  destruct (cells !! x) as [col|]; simpl; [|done].
  destruct (_ && _); [|done]. by rewrite length_imap.
Qed.

Lemma shape_nth0 (c1 c2 : list (list bool)) :
  shape c1 = shape c2 -> length (nth 0 c1 []) = length (nth 0 c2 []).
Proof. unfold shape. destruct c1, c2; simpl; congruence. Qed.

Lemma shape_length (c1 c2 : list (list bool)) :
  shape c1 = shape c2 -> length c1 = length c2.
Proof.
  unfold shape. intros H. apply (f_equal length) in H.
  by rewrite !length_map in H.
Qed.

Lemma shape_rectangular (c1 c2 : list (list bool)) :
  shape c1 = shape c2 -> rectangular c1 -> rectangular c2.
Proof.
  intros Hs Hr. unfold rectangular in *.
  rewrite <- (shape_nth0 _ _ Hs).
  apply Forall_forall. intros col Hin.
  apply list_elem_of_lookup in Hin as [x Hx].
  assert (shape c2 !! x = Some (length col)) as Hl
    by (unfold shape; by rewrite list_lookup_fmap, Hx).
  rewrite <- Hs in Hl. unfold shape in Hl. rewrite list_lookup_fmap in Hl.
  destruct (c1 !! x) as [col1|] eqn:H1; [|done]. simpl in Hl.
  injection Hl as <-. rewrite Forall_forall in Hr. apply Hr.
  by eapply list_elem_of_lookup_2.
Qed.

(** The cell [(x, y)] of the grid after [mark_cells]. *)
Lemma mark_cells_lookup fx tx fy ty cells x y col b :
  cells !! x = Some col -> col !! y = Some b ->
  active_at (mark_cells fx tx fy ty cells) x y =
    b || (in_cells fx tx fy ty x y &&
          (Z.of_nat y <? Z.of_nat (length (nth 0 cells [])))%Z).
Proof.
  intros Hx Hy. unfold active_at, mark_cells, in_cells.
  rewrite list_lookup_imap, Hx. simpl.
  pose proof (lookup_lt_Some _ _ _ Hx) as Lx.
  pose proof (lookup_lt_Some _ _ _ Hy) as Ly.
  destruct (Z.max 0 fx <=? Z.of_nat x)%Z eqn:A1;
    destruct (Z.of_nat x <=? Z.min tx (Z.of_nat (length cells) - 1))%Z eqn:A2;
    simpl.
  - rewrite list_lookup_imap, Hy. simpl.
    destruct (Z.max 0 fy <=? Z.of_nat y)%Z eqn:B1;
      destruct (Z.of_nat y <=?
                Z.min ty (Z.of_nat (length (nth 0 cells [])) - 1))%Z eqn:B2;
      simpl;
      destruct (fx <=? Z.of_nat x)%Z eqn:C1;
      destruct (Z.of_nat x <=? tx)%Z eqn:C2;
      destruct (fy <=? Z.of_nat y)%Z eqn:C3;
      destruct (Z.of_nat y <=? ty)%Z eqn:C4;
      destruct (Z.of_nat y <? Z.of_nat (length (nth 0 cells [])))%Z eqn:C5;
      simpl; rewrite ?orb_true_r, ?orb_false_r; try reflexivity; lia.
  - rewrite Hy. simpl.
    destruct (fx <=? Z.of_nat x)%Z eqn:C1;
      destruct (Z.of_nat x <=? tx)%Z eqn:C2;
      simpl; rewrite ?orb_false_r; try reflexivity; lia.
  - rewrite Hy. simpl.
    destruct (fx <=? Z.of_nat x)%Z eqn:C1;
      simpl; rewrite ?orb_false_r; try reflexivity; lia.
  - rewrite Hy. simpl.
    destruct (fx <=? Z.of_nat x)%Z eqn:C1;
      simpl; rewrite ?orb_false_r; try reflexivity; lia.
Qed.

Lemma active_at_lookup cells x y :
  active_at cells x y = true ->
  exists col, cells !! x = Some col /\ col !! y = Some true.
Proof.
  unfold active_at. destruct (cells !! x) as [col|]; [|done].
  destruct (col !! y) as [[]|] eqn:Hy; try done. intros _. by exists col.
Qed.

Lemma mark_cells_keeps fx tx fy ty cells x y :
  active_at cells x y = true ->
  active_at (mark_cells fx tx fy ty cells) x y = true.
Proof.
  intros H. destruct (active_at_lookup _ _ _ H) as (col & Hx & Hy).
  by rewrite (mark_cells_lookup _ _ _ _ _ _ _ _ _ Hx Hy).
Qed.

Lemma nth_active_at cells x y :
  nth y (nth x cells []) false = active_at cells x y.
Proof.
  unfold active_at. rewrite !nth_lookup.
  destruct (cells !! x) as [col|]; simpl; [done|]. by destruct y.
Qed.

Section WithCollaborators.
Context `{C : Collaborators}.

Lemma mark_area_cells_active_shape gs tl br cells :
  shape (mark_area_cells_active gs tl br cells) = shape cells.
Proof. apply mark_cells_shape. Qed.

Lemma mark_area_cells_active_keeps gs tl br cells x y :
  active_at cells x y = true ->
  active_at (mark_area_cells_active gs tl br cells) x y = true.
Proof. apply mark_cells_keeps. Qed.

(** Marking a box marks the cell of every mob that stands in it, when
    that cell is a cell of the grid. *)
Lemma mark_area_marks_mob gs tl br cells mp :
  0 < AREA_CELL_SIZE -> in_box tl br (pos mp) -> rectangular cells ->
  (0 <= cell_x gs mp < Z.of_nat (length cells))%Z ->
  (0 <= cell_y gs mp < Z.of_nat (length (nth 0 cells [])))%Z ->
  active_at (mark_area_cells_active gs tl br cells)
    (Z.to_nat (cell_x gs mp)) (Z.to_nat (cell_y gs mp)) = true.
Proof.
  intros HS (X1 & X2 & Y1 & Y2) Hrect Hx Hy.
  destruct (lookup_lt_is_Some_2 cells (Z.to_nat (cell_x gs mp)))
    as [col Hcol]; [lia|].
  assert (length col = length (nth 0 cells [])) as Hlen.
  { unfold rectangular in Hrect. rewrite Forall_forall in Hrect.
    apply Hrect. by eapply list_elem_of_lookup_2. }
  destruct (lookup_lt_is_Some_2 col (Z.to_nat (cell_y gs mp)))
    as [b Hb]; [lia|].
  unfold mark_area_cells_active.
  rewrite (mark_cells_lookup _ _ _ _ _ _ _ _ _ Hcol Hb).
  unfold in_cells. rewrite !Z2Nat.id by lia.
  pose proof (float_to_int_between
                ((px tl - px (bmap_top_left_corner gs)) / AREA_CELL_SIZE)
                ((px (pos mp) - px (bmap_top_left_corner gs)) / AREA_CELL_SIZE)
                ((px br - px (bmap_top_left_corner gs)) / AREA_CELL_SIZE))
    as Bx.
  pose proof (float_to_int_between
                ((py tl - py (bmap_top_left_corner gs)) / AREA_CELL_SIZE)
                ((py (pos mp) - py (bmap_top_left_corner gs)) / AREA_CELL_SIZE)
                ((py br - py (bmap_top_left_corner gs)) / AREA_CELL_SIZE))
    as By.
  destruct Bx as [Bx1 Bx2]; [apply div_le_div; [done|lra].. |].
  destruct By as [By1 By2]; [apply div_le_div; [done|lra].. |].
  fold (cell_x gs mp) in Bx1, Bx2. fold (cell_y gs mp) in By1, By2.
  apply orb_true_iff. right.
  repeat (apply andb_true_iff; split); try (apply Z.leb_le; lia).
  apply Z.ltb_lt. lia.
Qed.

Lemma mark_around_shape gs cells i :
  shape (mark_around gs cells i) = shape cells.
Proof.
  unfold mark_around. destruct (mobs_all gs !! i); [|done].
  apply mark_area_cells_active_shape.
Qed.

Lemma mark_around_keeps gs cells i x y :
  active_at cells x y = true -> active_at (mark_around gs cells i) x y = true.
Proof.
  unfold mark_around. destruct (mobs_all gs !! i); [|done].
  apply mark_area_cells_active_keeps.
Qed.

Lemma fold_mark_around_shape gs l cells :
  shape (fold_left (mark_around gs) l cells) = shape cells.
Proof.
  revert cells. induction l as [|i l IH]; intros cells; simpl; [done|].
  rewrite IH. apply mark_around_shape.
Qed.

Lemma fold_mark_around_keeps gs l cells x y :
  active_at cells x y = true ->
  active_at (fold_left (mark_around gs) l cells) x y = true.
Proof.
  revert cells. induction l as [|i l IH]; intros cells H; simpl; [done|].
  apply IH. by apply mark_around_keeps.
Qed.

Lemma mark_around_marks_mob gs cells i mp :
  0 < AREA_CELL_SIZE -> mobs_all gs !! i = Some mp -> rectangular cells ->
  (0 <= cell_x gs mp < Z.of_nat (length cells))%Z ->
  (0 <= cell_y gs mp < Z.of_nat (length (nth 0 cells [])))%Z ->
  active_at (mark_around gs cells i)
    (Z.to_nat (cell_x gs mp)) (Z.to_nat (cell_y gs mp)) = true.
Proof.
  intros HS Hi Hrect Hx Hy. unfold mark_around. rewrite Hi.
  apply mark_area_marks_mob; try done.
  unfold in_box. simpl. repeat split; lra.
Qed.

Lemma fold_mark_around_marks_mob gs l cells i mp :
  0 < AREA_CELL_SIZE -> i ∈ l -> mobs_all gs !! i = Some mp ->
  rectangular cells ->
  (0 <= cell_x gs mp < Z.of_nat (length cells))%Z ->
  (0 <= cell_y gs mp < Z.of_nat (length (nth 0 cells [])))%Z ->
  active_at (fold_left (mark_around gs) l cells)
    (Z.to_nat (cell_x gs mp)) (Z.to_nat (cell_y gs mp)) = true.
Proof.
  intros HS Hin Hi. revert cells.
  induction l as [|j l IH]; intros cells Hrect Hx Hy; simpl.
  - by apply elem_of_nil in Hin.
  - apply elem_of_cons in Hin as [<-|Hin].
    + apply fold_mark_around_keeps. by apply mark_around_marks_mob.
    + pose proof (mark_around_shape gs cells j) as Hs. symmetry in Hs.
      apply IH; [done| | |].
      * by eapply shape_rectangular.
      * by rewrite <- (shape_length _ _ Hs).
      * by rewrite <- (shape_nth0 _ _ Hs).
Qed.

Lemma cleared_shape (cells : list (list bool)) :
  shape (map (map (fun _ => false)) cells) = shape cells.
Proof.
  unfold shape. rewrite map_map. apply map_ext. intros col.
  apply length_map.
Qed.

Lemma cleared_by_shape (c1 c2 : list (list bool)) :
  shape c1 = shape c2 ->
  map (map (fun _ : bool => false)) c1 = map (map (fun _ => false)) c2.
Proof.
  unfold shape. revert c2. induction c1 as [|a c1 IH]; intros [|b c2] H;
    simpl in *; try done.
  injection H as Hl H. f_equal; [|by apply IH].
  clear -Hl. revert b Hl. induction a as [|? a IHa]; intros [|? b] Hl;
    simpl in *; try done.
  f_equal. apply IHa. lia.
Qed.

Lemma update_area_active_cells_shape gs :
  shape (area_active_cells (update_area_active_cells gs)) =
  shape (area_active_cells gs).
Proof.
  unfold update_area_active_cells. simpl.
  rewrite mark_area_cells_active_shape, !fold_mark_around_shape.
  apply cleared_shape.
Qed.

Lemma outside_grid_false gs mp :
  outside_grid gs mp = false ->
  (0 <= cell_x gs mp < grid_width gs)%Z /\
  (0 <= cell_y gs mp < grid_height gs)%Z.
Proof.
  unfold outside_grid. intros H.
  repeat (apply orb_false_iff in H as [H ?]).
  repeat match goal with
         | H : (_ <? _)%Z = false |- _ => apply Z.ltb_ge in H
         | H : (_ <=? _)%Z = false |- _ => apply Z.leb_gt in H
         end.
  lia.
Qed.

(** A mob whose cell is active has its flag set when
    [update_mob_is_active_flag] returns. *)
Lemma active_cell_final_active ord gs i mp :
  mobs_all gs !! i = Some mp -> cell_flag gs mp = true ->
  final_active ord gs i = Some true.
Proof.
  intros Hi Hc. unfold final_active, update_mob_is_active_flag. simpl.
  pose proof (ActivityClaims.assign_cell_flags_lookup gs i mp Hi) as H1.
  rewrite Hc in H1.
  destruct (ActivityClaims.raised_keeps_active _
              (fold_left child_to_parent ord (assign_cell_flags gs)) i _
              (ActivityClaims.fold_raised child_to_parent ord _
                 ActivityClaims.child_to_parent_raised) H1 eq_refl)
    as (b & Hb & Hact & _).
  destruct (ActivityClaims.raised_keeps_active _
              (fold_left parent_to_child ord
                 (fold_left child_to_parent ord (assign_cell_flags gs))) i _
              (ActivityClaims.fold_raised parent_to_child ord _
                 ActivityClaims.parent_to_child_raised) Hb Hact)
    as (b' & Hb' & Hact' & _).
  rewrite Hb'. simpl. by rewrite Hact'.
Qed.

(** A cell of the grid that is active in [cells] gives its mobs the cell
    flag in a state whose grid is [cells]. *)
Lemma cell_flag_set_cells gs cells mp :
  shape cells = shape (area_active_cells gs) ->
  outside_grid gs mp = false ->
  active_at cells (Z.to_nat (cell_x gs mp)) (Z.to_nat (cell_y gs mp)) = true ->
  cell_flag (set_cells gs cells) mp = true.
Proof.
  intros Hs Hin Hact. apply outside_grid_false in Hin as [Hx Hy].
  unfold grid_width, grid_height in Hx, Hy.
  rewrite <- (shape_length _ _ Hs) in Hx.
  rewrite <- (shape_nth0 _ _ Hs) in Hy.
  unfold cell_flag, grid_width, grid_height, cell_active.
  change (cell_x (set_cells gs cells) mp) with (cell_x gs mp).
  change (cell_y (set_cells gs cells) mp) with (cell_y gs mp).
  change (area_active_cells (set_cells gs cells)) with cells.
  rewrite nth_active_at, Hact.
  destruct (cell_x gs mp <? 0)%Z eqn:A1; [apply Z.ltb_lt in A1; lia|].
  destruct (Z.of_nat (length cells) <=? cell_x gs mp)%Z eqn:A2;
    [apply Z.leb_le in A2; lia|].
  destruct (cell_y gs mp <? 0)%Z eqn:A3; [apply Z.ltb_lt in A3; lia|].
  destruct (Z.of_nat (length (nth 0 cells [])) <=? cell_y gs mp)%Z eqn:A4;
    [apply Z.leb_le in A4; lia|].
  reflexivity.
Qed.

End WithCollaborators.

End GridProps.
(* ===================================================================== *)
(** ** What the activity grid guarantees *)
(* ===================================================================== *)

Module GridClaims.
Import Activity GridSpec GridProps.

Local Open Scope Q_scope.

(** X8.  [mark_area_cells_active] on cell indices keeps the height of
    every column, and afterwards a cell of the grid is active exactly when
    it was active before or lies in the rectangle asked for, at a row
    below the height of column 0: bounds that reach outside the grid are
    cut to it, and no cell is ever switched off. *)
Theorem mark_cells_marks_the_rectangle
    (from_x to_x from_y to_y : Z) (cells : list (list bool)) :
  shape (mark_cells from_x to_x from_y to_y cells) = shape cells /\
  forall (x y : nat) (col : list bool) (b : bool),
    cells !! x = Some col -> col !! y = Some b ->
    active_at (mark_cells from_x to_x from_y to_y cells) x y =
      b || (in_cells from_x to_x from_y to_y x y &&
            (Z.of_nat y <? Z.of_nat (length (nth 0 cells [])))%Z).
Proof.
  split; [apply mark_cells_shape|].
  intros x y col b. apply mark_cells_lookup.
Qed.

(** Marking the cells from (-3, 1) to (1, 7) of a 3 by 2 grid marks the
    second row of the first two columns. *)
Example mark_cells_cut_to_grid :
  mark_cells (-3) 1 1 7 (replicate 3 (replicate 2 false)) =
  [[false; true]; [false; true]; [false; false]].
Proof. reflexivity. Qed.

(** X9.  With a positive cell size and a rectangular grid, every Pikmin of
    [mobs.pikmin_list] and every leader of [mobs.leaders] whose cell is a
    cell of the grid is active once [update_area_active_cells] and
    [update_mob_is_active_flag] have run, whatever the camera looks at
    and whatever the order in which the child mobs are traversed. *)
Theorem pikmin_and_leaders_are_active `{C : Collaborators}
    (ord : list nat) (gs : GameplayState) (i : nat) (mp : Mob) :
  0 < AREA_CELL_SIZE ->
  rectangular (area_active_cells gs) ->
  i ∈ (mobs_pikmin_list gs ++ mobs_leaders gs)%list ->
  mobs_all gs !! i = Some mp ->
  outside_grid gs mp = false ->
  final_active ord (update_area_active_cells gs) i = Some true.
Proof.
  intros HS Hrect Hin Hi Hgrid.
  apply (active_cell_final_active ord _ i mp); [exact Hi|].
  unfold update_area_active_cells.
  pose proof (cleared_shape (area_active_cells gs)) as Hs0.
  set (cleared := map (map (fun _ => false)) (area_active_cells gs)) in *.
  pose proof (fold_mark_around_shape gs (mobs_pikmin_list gs) cleared) as Hs1.
  set (around_pikmin := fold_left (mark_around gs) (mobs_pikmin_list gs)
                          cleared) in *.
  destruct (outside_grid_false gs mp Hgrid) as [Hx Hy].
  unfold grid_width, grid_height in Hx, Hy.
  apply cell_flag_set_cells; [|done|].
  { rewrite mark_area_cells_active_shape, fold_mark_around_shape.
    by rewrite Hs1. }
  apply mark_area_cells_active_keeps.
  apply elem_of_app in Hin as [Hp|Hl].
  - apply fold_mark_around_keeps. subst around_pikmin.
    apply (fold_mark_around_marks_mob gs _ cleared i mp); try done.
    + eapply shape_rectangular; [symmetry; exact Hs0 | done].
    + by rewrite (shape_length _ _ Hs0).
    + by rewrite (shape_nth0 _ _ Hs0).
  - assert (shape around_pikmin = shape (area_active_cells gs)) as Hs2
      by (by rewrite Hs1).
    apply (fold_mark_around_marks_mob gs _ around_pikmin i mp); try done.
    + eapply shape_rectangular; [symmetry; exact Hs2 | done].
    + by rewrite (shape_length _ _ Hs2).
    + by rewrite (shape_nth0 _ _ Hs2).
Qed.

Lemma pikmin_and_leaders_are_active_witness :
  final_active (C := Examples.quiet) []
    (update_area_active_cells (C := Examples.quiet) Examples.grid_world) 1
  = Some true.
Proof.
  apply (pikmin_and_leaders_are_active (C := Examples.quiet) []
           Examples.grid_world 1
           (Examples.mob_at Examples.pikmin 300 300 None)).
  - reflexivity.
  - repeat constructor.
  - apply list_elem_of_here.
  - reflexivity.
  - reflexivity.
Defined.

(** X10.  With a positive cell size, a rectangular grid and a camera box
    whose corners have cell coordinates within the range of [int], every
    mob that stands in the camera box and whose cell is a cell of the grid
    is active once [update_area_active_cells] and
    [update_mob_is_active_flag] have run. *)
Theorem mobs_in_camera_box_are_active `{C : Collaborators}
    (ord : list nat) (gs : GameplayState) (i : nat) (mp : Mob) :
  0 < AREA_CELL_SIZE ->
  rectangular (area_active_cells gs) ->
  cell_fits_int gs (fst (cam_box gs)) ->
  cell_fits_int gs (snd (cam_box gs)) ->
  mobs_all gs !! i = Some mp ->
  in_box (fst (cam_box gs)) (snd (cam_box gs)) (pos mp) ->
  outside_grid gs mp = false ->
  final_active ord (update_area_active_cells gs) i = Some true.
Proof.
  intros HS Hrect _ _ Hi Hbox Hgrid.
  apply (active_cell_final_active ord _ i mp); [exact Hi|].
  unfold update_area_active_cells.
  pose proof (cleared_shape (area_active_cells gs)) as Hs0.
  set (cleared := map (map (fun _ => false)) (area_active_cells gs)) in *.
  set (around := fold_left (mark_around gs) (mobs_leaders gs)
                   (fold_left (mark_around gs) (mobs_pikmin_list gs)
                      cleared)).
  assert (shape around = shape (area_active_cells gs)) as Hs.
  { subst around. by rewrite !fold_mark_around_shape. }
  destruct (outside_grid_false gs mp Hgrid) as [Hx Hy].
  unfold grid_width, grid_height in Hx, Hy.
  apply cell_flag_set_cells; [|done|].
  { by rewrite mark_area_cells_active_shape. }
  apply mark_area_marks_mob; try done.
  - eapply shape_rectangular; [symmetry; exact Hs | done].
  - by rewrite (shape_length _ _ Hs).
  - by rewrite (shape_nth0 _ _ Hs).
Qed.

Lemma mobs_in_camera_box_are_active_witness :
  final_active (C := Examples.quiet) []
    (update_area_active_cells (C := Examples.quiet) Arena.watched) 0
  = Some true.
Proof.
  apply (mobs_in_camera_box_are_active (C := Examples.quiet) []
           Arena.watched 0 (Examples.enemy_at 450 50 None)).
  - reflexivity.
  - repeat constructor.
  - vm_compute. repeat split; discriminate.
  - vm_compute. repeat split; discriminate.
  - reflexivity.
  - unfold in_box. simpl. repeat split; lra.
  - reflexivity.
Defined.

(** X11.  [update_area_active_cells] starts from a cleared grid: the grid
    it leaves depends on the column heights of the old one but on none of
    its flags, so no cell stays active from an earlier frame. *)
Theorem update_area_active_cells_forgets_old_flags `{C : Collaborators}
    (gs : GameplayState) (cells : list (list bool)) :
  shape cells = shape (area_active_cells gs) ->
  update_area_active_cells (set_cells gs cells) = update_area_active_cells gs.
Proof.
  intros Hs. unfold update_area_active_cells.
  change (area_active_cells (set_cells gs cells)) with cells.
  rewrite (cleared_by_shape _ _ Hs).
  reflexivity.
Qed.

Lemma update_area_active_cells_forgets_old_flags_witness :
  update_area_active_cells (C := Examples.quiet)
    (set_cells Examples.grid_world (replicate 4 (replicate 4 true))) =
  update_area_active_cells (C := Examples.quiet) Examples.grid_world.
Proof.
  apply (update_area_active_cells_forgets_old_flags (C := Examples.quiet)
           Examples.grid_world (replicate 4 (replicate 4 true))).
  reflexivity.
Defined.

(** X12.  [update_mob_is_active_flag] writes nothing but [is_active]: the
    mob list keeps its length, and every mob comes out as it went in but
    for the value of that member. *)
Theorem update_mob_is_active_flag_writes_flag_only `{C : Collaborators}
    (ord : list nat) (gs : GameplayState) :
  Forall2 same_but_active (mobs_all gs)
    (mobs_all (update_mob_is_active_flag ord gs)).
Proof.
  unfold update_mob_is_active_flag. simpl.
  set (l1 := assign_cell_flags gs).
  assert (all_raised_from l1
            (fold_left parent_to_child ord
               (fold_left child_to_parent ord l1))) as Hr.
  { eapply ActivityClaims.all_raised_from_trans;
      apply ActivityClaims.fold_raised;
      [apply ActivityClaims.child_to_parent_raised
      |apply ActivityClaims.parent_to_child_raised]. }
  apply Forall2_same_length_lookup_2.
  - rewrite <- (ActivityClaims.all_raised_from_length _ _ Hr).
    subst l1. unfold assign_cell_flags. by rewrite length_map.
  - intros i a b Ha Hb.
    destruct (ActivityClaims.raised_lookup_back _ _ _ _ Hr Hb)
      as (a1 & Ha1 & [-> | ->]);
      subst l1; rewrite (ActivityClaims.assign_cell_flags_lookup _ _ _ Ha)
        in Ha1; injection Ha1 as <-.
    + by eexists.
    + by exists true.
Qed.

End GridClaims.
(* ===================================================================== *)
(** ** Enemies near the leader, and the end of a mission *)
(* ===================================================================== *)

Module MissionProps.
Import Mission.

Local Open Scope Q_scope.

Section WithCollaborators.
Context `{C : Collaborators}.
Variable mix boss : Q.

Lemma near_loop_spec leader es found :
  near_loop mix boss leader es found =
    (fst found || existsb (enemy_near mix leader) es,
     snd found || existsb (boss_near boss leader) es).
Proof.
  revert found. induction es as [|e es IH]; intros [fe fb]; simpl.
  - by rewrite !orb_false_r.
  - unfold enemy_near at 1, boss_near at 1.
    destruct (Qleb (health (ene_mob e)) 0) eqn:Hh.
    + assert (Qltb 0 (health (ene_mob e)) = false) as ->.
      { apply Qltb_ge. by apply Qleb_le. }
      simpl. apply IH.
    + assert (Qltb 0 (health (ene_mob e)) = true) as ->.
      { apply Qltb_lt. by apply Qleb_gt. }
      simpl. destruct (ene_is_boss e); simpl.
      * destruct (Qleb (leader_distance leader e) boss); simpl.
        -- destruct fe; simpl; [by rewrite orb_true_r|].
           rewrite IH. simpl. by rewrite orb_true_r.
        -- destruct fe, fb; simpl; first [reflexivity | apply IH].
      * destruct (Qleb (leader_distance leader e) mix); simpl.
        -- destruct fb; simpl; [by rewrite !orb_true_r|].
           rewrite IH. simpl. by rewrite orb_true_r.
        -- destruct fe, fb; simpl; first [reflexivity | apply IH].
Qed.

End WithCollaborators.

(** X13.  [is_near_enemy_and_boss] reports an enemy exactly when some
    living enemy that is not a boss is within the mix distance of the
    leader, and a boss exactly when some living boss is within the boss
    music distance: leaving the loop early, once both have been found,
    loses nothing, and an enemy with no health left never counts. *)
Theorem is_near_enemy_and_boss_exists `{C : Collaborators}
    (mix boss : Q) (leader : Mob) (enemies : list Enemy) :
  is_near_enemy_and_boss mix boss leader enemies =
    (existsb (enemy_near mix leader) enemies,
     existsb (boss_near boss leader) enemies).
Proof. unfold is_near_enemy_and_boss. by rewrite near_loop_spec. Qed.

Section FailLoop.
Variable mask : nat -> Z.

Lemma fail_loop_some fc met f0 f :
  fail_loop mask fc met f0 = Some f ->
  (f0 <= f)%nat /\
  has_flag fc (mask f) = true /\ met !! (f - f0)%nat = Some true /\
  forall g, (f0 <= g < f)%nat ->
    has_flag fc (mask g) && default false (met !! (g - f0)%nat) = false.
Proof.
  revert f0. induction met as [|b met IH]; intros f0; simpl; [done|].
  destruct (has_flag fc (mask f0) && b) eqn:Hc.
  - intros [= <-]. apply andb_true_iff in Hc as [Hm ->].
    rewrite Nat.sub_diag. repeat split; try done. intros g Hg. lia.
  - intros H. destruct (IH _ H) as (Hle & Hm & Hmet & Hleast).
    split; [lia|]. split; [done|]. split.
    + replace (f - f0)%nat with (S (f - S f0)) by lia. done.
    + intros g Hg. destruct (decide (g = f0)) as [->|Hne].
      * by rewrite Nat.sub_diag.
      * replace (g - f0)%nat with (S (g - S f0)) by lia. simpl.
        apply Hleast. lia.
Qed.

Lemma fail_loop_none fc met f0 :
  fail_loop mask fc met f0 = None ->
  forall g b, met !! g = Some b ->
    has_flag fc (mask (f0 + g)) && b = false.
Proof.
  revert f0. induction met as [|b met IH]; intros f0; simpl; [done|].
  destruct (has_flag fc (mask f0) && b) eqn:Hc; [done|].
  intros H [|g] b' Hg; simpl in Hg.
  - injection Hg as <-. by rewrite Nat.add_0_r.
  - replace (f0 + S g)%nat with (S f0 + g)%nat by lia. by eapply IH.
Qed.

End FailLoop.

(** X14.  A mission ends at most one way.  It ends cleared exactly when
    no interlude is on and the goal is met, even if a fail condition is
    met in the same frame.  It ends failed with the reason [f] exactly
    when no interlude is on, the goal is not met, and [f] is the first
    fail condition, in index order, that the mission looks at and that is
    met.  Otherwise it goes on. *)
Theorem mission_end_first_reason (mask : nat -> Z)
    (interlude_none clear_met : bool) (fc : Z) (met : list bool) :
  (mission_end mask interlude_none clear_met fc met = Some EndCleared <->
     interlude_none = true /\ clear_met = true) /\
  (forall f,
     mission_end mask interlude_none clear_met fc met = Some (EndFailed f) <->
     interlude_none = true /\ clear_met = false /\
     fails_on mask fc met f /\
     forall g, (g < f)%nat -> ~ fails_on mask fc met g) /\
  (mission_end mask interlude_none clear_met fc met = None <->
     interlude_none = false \/
     (clear_met = false /\ forall g, ~ fails_on mask fc met g)).
Proof.
  unfold mission_end, is_mission_fail_met, fails_on.
  assert (forall f, fail_loop mask fc met 0 = Some f <->
            (has_flag fc (mask f) = true /\ met !! f = Some true) /\
            forall g, (g < f)%nat ->
              ~ (has_flag fc (mask g) = true /\ met !! g = Some true)) as HS.
  { intros f. split.
    - intros H. destruct (fail_loop_some mask _ _ _ _ H) as (_ & Hm & Hmet & Hl).
      rewrite Nat.sub_0_r in Hmet. split; [done|].
      intros g Hg [Hgm Hgmet]. specialize (Hl g ltac:(lia)).
      rewrite Nat.sub_0_r, Hgm, Hgmet in Hl. done.
    - intros [[Hm Hmet] Hleast].
      destruct (fail_loop mask fc met 0) as [f'|] eqn:E.
      + destruct (fail_loop_some mask _ _ _ _ E) as (_ & Hm' & Hmet' & Hl').
        rewrite Nat.sub_0_r in Hmet'.
        destruct (Nat.lt_trichotomy f f') as [Hlt|[->|Hgt]]; [|done|].
        * specialize (Hl' f ltac:(lia)).
          rewrite Nat.sub_0_r, Hm, Hmet in Hl'. done.
        * exfalso. by apply (Hleast f' Hgt).
      + pose proof (fail_loop_none mask _ _ _ E f true Hmet) as Hn.
        simpl in Hn. rewrite Hm in Hn. done. }
  assert (fail_loop mask fc met 0 = None <->
          forall g, ~ (has_flag fc (mask g) = true /\ met !! g = Some true))
    as HN.
  { split.
    - intros E g [Hm Hmet].
      pose proof (fail_loop_none mask _ _ _ E g true Hmet) as Hn.
      simpl in Hn. rewrite Hm in Hn. done.
    - intros Hnone. destruct (fail_loop mask fc met 0) as [f|] eqn:E; [|done].
      destruct (proj1 (HS f) eq_refl) as [Hf _]. exfalso.
      by apply (Hnone f). }
  destruct interlude_none, clear_met; simpl.
  - split; [|split]; [tauto | intros f; split; [done | intros (_ & ? & _); done]
                      | split; [done | intros [?|[? _]]; done]].
  - split; [|split].
    + split; [|intros [_ ?]; done].
      destruct (fail_loop mask fc met 0); done.
    + intros f. rewrite <- HS.
      destruct (fail_loop mask fc met 0) as [f'|]; simpl.
      * split; [intros [= ->]; tauto | intros (_ & _ & [= ->]); done].
      * split; [done | intros (_ & _ & ?); done].
    + rewrite <- HN. destruct (fail_loop mask fc met 0); simpl.
      * split; [done | intros [?|[_ ?]]; done].
      * split; [intros _; right; done | done].
  - split; [|split]; [split; [done | intros [? _]; done]
                     | intros f; split; [done | intros (? & _); done]
                     | split; [intros _; by left | done]].
  - split; [|split]; [split; [done | intros [? _]; done]
                     | intros f; split; [done | intros (? & _); done]
                     | split; [intros _; by left | done]].
Qed.

End MissionProps.
(* ===================================================================== *)
(** ** The data file reader *)
(* ===================================================================== *)

Module DataFileProps.
Import DataFile.

Lemma trim_left_split (s : text) :
  exists pre, s = (pre ++ trim_left s)%list /\
              Forall (fun c => is_blank c = true) pre.
Proof.
  induction s as [|c s (pre & E & F)]; simpl.
  - by exists [].
  - destruct (is_blank c) eqn:Hc.
    + exists (c :: pre). simpl. split; [by rewrite <- E | by constructor].
    + by exists [].
Qed.

Lemma trim_left_head (s : text) c rest :
  trim_left s = c :: rest -> is_blank c = false.
Proof.
  induction s as [|a s IH]; simpl; [done|].
  destruct (is_blank a) eqn:Ha; [done|]. by intros [= -> _].
Qed.

Lemma trim_left_fixed (s : text) :
  (forall c rest, s = c :: rest -> is_blank c = false) -> trim_left s = s.
Proof.
  destruct s as [|c s]; [done|]. intros H. simpl.
  by rewrite (H c s eq_refl).
Qed.

Lemma trim_right_split (s : text) :
  exists post, s = (trim_right s ++ post)%list /\
               Forall (fun c => is_blank c = true) post.
Proof.
  unfold trim_right. destruct (trim_left_split (rev s)) as (pre & E & F).
  exists (rev pre). split.
  - rewrite <- rev_app_distr, <- E. by rewrite rev_involutive.
  - apply Forall_forall. intros c Hc. rewrite Forall_forall in F.
    apply F. apply list_elem_of_In. apply in_rev.
    by apply list_elem_of_In.
Qed.

Lemma trim_right_last (s : text) c front :
  trim_right s = (front ++ [c])%list -> is_blank c = false.
Proof.
  unfold trim_right. intros H. apply (f_equal (@rev ascii)) in H.
  rewrite rev_involutive, rev_app_distr in H. simpl in H.
  by eapply trim_left_head.
Qed.

(** Erasing blanks at the end leaves the first character alone. *)
Lemma trim_right_head (s : text) c rest :
  (forall a r, s = a :: r -> is_blank a = false) ->
  trim_right s = c :: rest -> is_blank c = false.
Proof.
  intros Hs H. destruct (trim_right_split s) as (post & E & F).
  rewrite H in E. simpl in E. by apply (Hs c (rest ++ post)%list).
Qed.

Lemma trim_right_fixed (s : text) :
  (forall c front, s = (front ++ [c])%list -> is_blank c = false) ->
  trim_right s = s.
Proof.
  intros H. unfold trim_right. rewrite trim_left_fixed.
  - apply rev_involutive.
  - intros c rest E. apply (H c (rev rest)).
    apply (f_equal (@rev ascii)) in E. rewrite rev_involutive in E.
    by rewrite E.
Qed.

(** X15.  [trim_spaces] returns the text with a run of spaces and tabs
    taken off its front and, unless [left_only] is set, another taken off
    its end, and nothing else; what it returns does not start with a space
    or a tab, does not end with one unless [left_only] is set, and is left
    as it is by trimming it again. *)
Theorem trim_spaces_spec (s : text) (left_only : bool) :
  let r := trim_spaces s left_only in
  (exists pre post,
     s = (pre ++ r ++ post)%list /\
     Forall (fun c => is_blank c = true) pre /\
     Forall (fun c => is_blank c = true) post /\
     (left_only = true -> post = [])) /\
  (forall c rest, r = c :: rest -> is_blank c = false) /\
  (left_only = false ->
   forall c front, r = (front ++ [c])%list -> is_blank c = false) /\
  trim_spaces r left_only = r.
Proof.
  intros r. subst r. unfold trim_spaces.
  destruct (trim_left_split s) as (pre & E & F).
  destruct left_only.
  - split; [|split; [|split]].
    + exists pre, []. by rewrite app_nil_r.
    + apply trim_left_head.
    + done.
    + apply trim_left_fixed. apply trim_left_head.
  - destruct (trim_right_split (trim_left s)) as (post & E' & F').
    assert (forall c rest, trim_right (trim_left s) = c :: rest ->
                           is_blank c = false) as Hh.
    { intros c rest. apply trim_right_head. apply trim_left_head. }
    split; [|split; [|split]].
    + exists pre, post. split; [by rewrite <- E'|]. done.
    + exact Hh.
    + intros _. apply trim_right_last.
    + rewrite (trim_left_fixed _ Hh). apply trim_right_fixed.
      apply trim_right_last.
Qed.

(** *** Looking nodes up and adding them *)

Lemma find_from_shift nodes name p :
  find_from nodes name (S p) = S <$> find_from nodes name p.
Proof.
  revert p. induction nodes as [|[n l] nodes IH]; intros p; simpl; [done|].
  case_bool_decide; [done|]. apply IH.
Qed.

Lemma node_lists_first v nodes name :
  node_lists (mk_data_node v nodes) name = first_list nodes name.
Proof.
  unfold node_lists, find. simpl.
  induction nodes as [|[n l] nodes IH]; simpl; [done|].
  case_bool_decide; [done|].
  rewrite find_from_shift. destruct (find_from nodes name 0); simpl; done.
Qed.

Lemma add_node_cons n l nodes name dn :
  add_node ((n, l) :: nodes) name dn =
    if bool_decide (n = name) then (n, (l ++ [dn])%list) :: nodes
    else (n, l) :: add_node nodes name dn.
Proof.
  unfold add_node, find. simpl. case_bool_decide; [done|].
  rewrite find_from_shift. destruct (find_from nodes name 0); simpl; done.
Qed.

Lemma first_list_add_node nodes k dn name :
  first_list (add_node nodes k dn) name =
    if bool_decide (k = name) then (first_list nodes k ++ [dn])%list
    else first_list nodes name.
Proof.
  induction nodes as [|[n l] nodes IH].
  - unfold add_node. simpl. by case_bool_decide.
  - rewrite add_node_cons. simpl.
    destruct (decide (n = k)) as [->|Hnk].
    + rewrite (bool_decide_eq_true_2 (k = k)) by done. simpl.
      case_bool_decide; [done|reflexivity].
    + rewrite (bool_decide_eq_false_2 (n = k)) by done. simpl.
      rewrite IH. repeat case_bool_decide; simplify_eq; done.
Qed.

(** *** The loader *)

Section Loader.
Variable lod : bool.

Lemma load_lines_total fuel lines tv l nodes :
  (length lines - l < fuel)%nat -> (l <= length lines)%nat ->
  exists nodes' l',
    load_lines lod fuel lines tv l nodes = Some (nodes', l') /\
    (l <= S l')%nat /\ (l' < length lines \/ lines = [])%nat.
Proof.
  revert l nodes. induction fuel as [|fuel IH]; intros l nodes Hf Hle; [lia|].
  cbn [load_lines].
  destruct (lines !! l) as [raw|] eqn:Hl.
  2:{ apply lookup_ge_None in Hl. eexists _, _. split; [done|].
      split; [lia|]. destruct lines; [by right | left; simpl; lia]. }
  pose proof (lookup_lt_Some _ _ _ Hl) as Hlt.
  assert (forall l2 nodes2, (l < l2 <= length lines)%nat ->
            exists nodes' l',
              load_lines lod fuel lines tv l2 nodes2 = Some (nodes', l') /\
              (l <= S l')%nat /\ (l' < length lines \/ lines = [])%nat)
    as Hnext.
  { intros l2 nodes2 H2. destruct (IH l2 nodes2) as (n' & l' & E & B1 & B2);
      [lia|lia|]. exists n', l'. split; [done|]. split; [lia|done]. }
  destruct (is_comment _); [apply Hnext; lia|].
  destruct (found_past_start "=" _) as [pos|].
  { destruct (option_of _ _ _ _) as [o v]. apply Hnext. lia. }
  destruct (found_past_start "{" _) as [pos|].
  2:{ case_bool_decide; [|apply Hnext; lia].
      eexists _, _. split; [done|]. split; [lia|by left]. }
  destruct (length lines <? S l)%nat eqn:Hc;
    [apply Nat.ltb_lt in Hc; lia|].
  destruct (IH (S l) []) as (child & l' & E & B1 & B2); [lia|lia|].
  rewrite E. apply Hnext.
  destruct B2 as [B2|B2]; [lia|]. subst lines. simpl in Hlt. lia.
Qed.

Lemma load_lines_more_fuel fuel fuel' lines tv l nodes r :
  load_lines lod fuel lines tv l nodes = Some r -> (fuel <= fuel')%nat ->
  load_lines lod fuel' lines tv l nodes = Some r.
Proof.
  revert fuel' l nodes r.
  induction fuel as [|fuel IH]; intros fuel' l nodes r H Hle; [done|].
  destruct fuel' as [|fuel']; [lia|]. cbn [load_lines] in *.
  destruct (lines !! l) as [raw|]; [|done].
  destruct (is_comment _); [apply IH; [done|lia]|].
  destruct (found_past_start "=" _) as [pos|].
  { destruct (option_of _ _ _ _) as [o v]. apply IH; [done|lia]. }
  destruct (found_past_start "{" _) as [pos|].
  2:{ case_bool_decide; [done|]. apply IH; [done|lia]. }
  destruct (length lines <? S l)%nat.
  { apply IH; [done|lia]. }
  destruct (load_lines lod fuel lines tv (S l) []) as [[child l']|] eqn:E;
    [|done].
  rewrite (IH fuel' _ _ _ E) by lia. apply IH; [done|lia].
Qed.

(** A file with no sub-node: the lists of the nodes built grow by the
    values of the option lines still to read. *)
Lemma load_lines_flat fuel lines tv l nodes :
  (length lines - l < fuel)%nat ->
  Forall (fun raw => no_brace raw = true) (drop l lines) ->
  exists nodes',
    load_lines lod fuel lines tv l nodes =
      Some (nodes', (length lines - 1)%nat) /\
    forall name,
      dn_value <$> first_list nodes' name =
      ((dn_value <$> first_list nodes name) ++
       values_of lod tv (drop l lines) name)%list.
Proof.
  revert l nodes. induction fuel as [|fuel IH]; intros l nodes Hf Hflat;
    [lia|].
  cbn [load_lines].
  destruct (lines !! l) as [raw|] eqn:Hl.
  2:{ apply lookup_ge_None in Hl. exists nodes. split; [done|].
      intros name. rewrite drop_ge by done. unfold values_of. simpl.
      by rewrite app_nil_r. }
  pose proof (lookup_lt_Some _ _ _ Hl) as Hlt.
  rewrite (drop_S _ _ _ Hl) in Hflat. apply Forall_cons in Hflat as [Hb Hflat].
  assert (forall kv, as_option lod tv raw = kv ->
            forall name,
              values_of lod tv (drop l lines) name =
              (match kv with
               | Some (k, v) => if bool_decide (k = name) then [v] else []
               | None => []
               end ++ values_of lod tv (drop (S l) lines) name)%list)
    as Hvals.
  { intros kv Hkv name. rewrite (drop_S _ _ _ Hl). unfold values_of.
    simpl. rewrite Hkv. destruct kv as [[k v]|]; simpl; [|done].
    by case_bool_decide. }
  unfold as_option in Hvals. unfold no_brace in Hb.
  destruct (is_comment (trim_spaces raw true)) eqn:Hc.
  { destruct (IH (S l) nodes) as (nodes' & E & Hn); [lia|done|].
    exists nodes'. split; [done|]. intros name.
    rewrite (Hvals None eq_refl name). simpl. apply Hn. }
  destruct (found_past_start "=" (trim_spaces raw true)) as [pos|] eqn:He.
  { destruct (option_of lod tv (trim_spaces raw true) pos) as [o v] eqn:Ho.
    destruct (IH (S l) (add_node nodes o (mk_data_node v [])))
      as (nodes' & E & Hn); [lia|done|].
    exists nodes'. split; [done|]. intros name.
    rewrite (Hvals (Some (o, v)))
      by (change (Some (option_of lod tv (trim_spaces raw true) pos) =
                  Some (o, v)); by rewrite Ho).
    rewrite Hn, first_list_add_node.
    clear Hb. case_bool_decide as Hk; simpl.
    - rewrite Hk, fmap_app. simpl. by rewrite <- app_assoc.
    - done. }
  rewrite (bool_decide_eq_false_2 (is_Some None)) in Hb
    by (intros [? ?]; done).
  cbn [orb] in Hb. apply andb_true_iff in Hb as [B1 B2].
  apply negb_true_iff, bool_decide_eq_false in B1.
  apply negb_true_iff in B2.
  destruct (found_past_start "{" (trim_spaces raw true)) as [pos|];
    [exfalso; apply B1; eauto|].
  rewrite B2.
  destruct (IH (S l) nodes) as (nodes' & E & Hn); [lia|done|].
  exists nodes'. split; [done|]. intros name.
  rewrite (Hvals None eq_refl name). simpl. apply Hn.
Qed.

End Loader.

(** X16.  [load_node] ends on every list of lines: with the fuel that
    [load_text] gives it, one unit per line and one more, it returns a
    node and a line number, and more fuel changes neither.  The line
    number returned is that of a line of the file, when it has any. *)
Theorem load_node_total (lod : bool) (lines : list text) (tv : bool) :
  exists dn l,
    load_node lod (S (length lines)) lines tv 0 = Some (dn, l) /\
    (l < length lines \/ lines = [])%nat /\
    forall fuel, (S (length lines) <= fuel)%nat ->
      load_node lod fuel lines tv 0 = Some (dn, l).
Proof.
  destruct (load_lines_total lod (S (length lines)) lines tv 0 [])
    as (nodes & l & E & _ & B); [lia|lia|].
  exists (mk_data_node [] nodes), l. unfold load_node.
  change (length lines <? 0)%nat with false. cbv iota.
  rewrite E. split; [done|]. split; [done|].
  intros fuel Hf. by rewrite (load_lines_more_fuel lod _ fuel _ _ _ _ _ E Hf).
Qed.

(** X17.  In a file with no sub-node (no line opens or closes one), the
    nodes called [name] under the loaded node hold the values of the
    option lines with that name, in file order; so [get_value] of that
    list is the value of the first such line, the default value when
    there is none: of two lines that set the same option, the first
    wins. *)
Theorem load_text_first_value_wins (lod : bool) (lines : list text)
    (tv : bool) :
  Forall (fun raw => no_brace raw = true) lines ->
  exists dn,
    load_text lod lines tv = Some dn /\
    forall name,
      dn_value <$> node_lists dn name = values_of lod tv lines name /\
      forall def,
        get_value (node_lists dn name) def =
        hd def (values_of lod tv lines name).
Proof.
  intros Hflat.
  destruct (load_lines_flat lod (S (length lines)) lines tv 0 [])
    as (nodes & E & Hn); [lia | by rewrite drop_0 |].
  exists (mk_data_node [] nodes). unfold load_text, load_node.
  change (length lines <? 0)%nat with false. cbv iota.
  rewrite E. split; [done|]. intros name.
  specialize (Hn name). simpl in Hn. rewrite drop_0 in Hn.
  rewrite node_lists_first. split; [done|].
  intros def. rewrite <- Hn.
  by destruct (first_list nodes name).
Qed.

Lemma load_text_first_value_wins_witness :
  exists dn,
    DataFile.load_text false Workshop.settings true = Some dn /\
    forall name,
      DataFile.dn_value <$> DataFile.node_lists dn name =
        DataFile.values_of false true Workshop.settings name /\
      forall def,
        DataFile.get_value (DataFile.node_lists dn name) def =
        hd def (DataFile.values_of false true Workshop.settings name).
Proof.
  apply (DataFileProps.load_text_first_value_wins false Workshop.settings true).
  repeat constructor.
Defined.

(** In the file of [Workshop.settings], [name] is set to [a] and then to
    [b]. *)
Example settings_name :
  DataFile.values_of false true Workshop.settings (list_ascii_of_string "name")
  = list_ascii_of_string <$> ["a"; "b"]%string.
Proof. reflexivity. Qed.

(** A sub-node is loaded into a node of its own, and a closing brace
    with nothing to close ends the load: the line after it is not
    read. *)
Example nested_settings_loaded :
  (fun r => (map (fun e => (string_of_list_ascii (fst e), length (snd e)))
               (DataFile.dn_nodes (fst r)), snd r)) <$>
    DataFile.load_node false 7 Workshop.nested_settings true 0
  = Some ([("name", 1%nat); ("box", 1%nat)]%string, 4%nat).
Proof. vm_compute. reflexivity. Qed.

End DataFileProps.
(* ===================================================================== *)
(** ** The animation editor *)
(* ===================================================================== *)

Module AnimEditorProps.
Import AnimEditor.

Local Open Scope Q_scope.

Lemma std_clamp_between v lo hi :
  lo <= hi -> lo <= std_clamp v lo hi <= hi.
Proof.
  intros H. unfold std_clamp.
  destruct (Qltb v lo) eqn:A; [split; [apply Qle_refl | done]|].
  apply Qltb_ge in A.
  destruct (Qltb hi v) eqn:B; [split; [done | apply Qle_refl]|].
  apply Qltb_ge in B. done.
Qed.

(** X18.  The zoom keys never take the target zoom out of the editor's
    range: once [zoom_in_cmd] or [zoom_out_cmd] has acted on a key press
    (an input value of one half or more), the target zoom lies between
    [ZOOM_MIN_LEVEL] and [ZOOM_MAX_LEVEL], whatever it was before; a
    weaker input leaves it as it is. *)
Theorem zoom_keys_stay_in_range (step zoom target_zoom input_value : Q) :
  (input_value < 1 # 2 /\
   zoom_in_cmd step zoom target_zoom input_value = target_zoom /\
   zoom_out_cmd step zoom target_zoom input_value = target_zoom) \/
  (1 # 2 <= input_value /\
   ZOOM_MIN_LEVEL <= zoom_in_cmd step zoom target_zoom input_value
     <= ZOOM_MAX_LEVEL /\
   ZOOM_MIN_LEVEL <= zoom_out_cmd step zoom target_zoom input_value
     <= ZOOM_MAX_LEVEL).
Proof.
  unfold zoom_in_cmd, zoom_out_cmd.
  destruct (Qltb input_value (1 # 2)) eqn:H.
  - left. apply Qltb_lt in H. done.
  - right. apply Qltb_ge in H. split; [done|].
    split; apply std_clamp_between; done.
Qed.

(** X19.  On a timeline of positive width, the time under the mouse
    cursor is a time of the animation: [get_cursor_timeline_time] returns
    a value between 0 and the duration of the animation, also when the
    cursor is left or right of the timeline. *)
Theorem cursor_time_within_animation (valid_frame : bool) (duration : Q)
    (canvas_tl canvas_br mouse : Point) :
  0 <= duration ->
  px canvas_tl + TIMELINE_PADDING < px canvas_br - TIMELINE_PADDING ->
  0 <= get_cursor_timeline_time valid_frame duration canvas_tl canvas_br mouse
    <= duration.
Proof.
  intros Hd Hw. unfold get_cursor_timeline_time.
  destruct valid_frame; simpl; [|split; [apply Qle_refl | done]].
  set (w := px canvas_br - TIMELINE_PADDING - (px canvas_tl + TIMELINE_PADDING)).
  assert (0 < w) as Hw' by (subst w; lra).
  destruct (std_clamp_between (px mouse - (px canvas_tl + TIMELINE_PADDING)) 0 w)
    as [C1 C2]; [lra|].
  set (c := std_clamp _ 0 w) in *.
  assert (0 <= c / w) as R1.
  { apply Qle_shift_div_l; [done|]. lra. }
  assert (c / w <= 1) as R2.
  { apply Qle_shift_div_r; [done|]. lra. }
  split.
  - apply Qmult_le_0_compat; done.
  - set (r := c / w) in *. nra.
Qed.

Lemma cursor_time_within_animation_witness :
  0 <= AnimEditor.get_cursor_timeline_time true 2 (mkPoint 0 0)
         (mkPoint 112 100) (mkPoint 500 90) <= 2.
Proof.
  apply (AnimEditorProps.cursor_time_within_animation true 2 (mkPoint 0 0)
           (mkPoint 112 100) (mkPoint 500 90)).
  - unfold Qle. simpl. lia.
  - reflexivity.
Defined.

(** *** Renaming a sprite *)

Lemma existsb_false_forall {A} (p : A -> bool) (l : list A) :
  existsb p l = false -> forall x, x ∈ l -> p x = false.
Proof.
  intros H x Hx. apply list_elem_of_In in Hx.
  destruct (p x) eqn:Hp; [|done].
  assert (existsb p l = true) by (apply existsb_exists; eauto). congruence.
Qed.

Lemma NoDup_insert_fresh {A} (l : list A) (i : nat) (x : A) :
  NoDup l -> x ∉ l -> NoDup (<[i := x]> l).
Proof.
  intros Hnd Hx. apply NoDup_alt. intros j k y Hj Hk.
  rewrite NoDup_alt in Hnd.
  destruct (decide (j = k)) as [|Hjk]; [done|]. exfalso.
  destruct (decide (i = j)) as [->|Hij].
  - apply list_lookup_insert_Some in Hj as [(_ & <- & _)|[? _]]; [|done].
    rewrite list_lookup_insert_ne in Hk by done.
    apply Hx. by eapply list_elem_of_lookup_2.
  - rewrite list_lookup_insert_ne in Hj by done.
    destruct (decide (i = k)) as [->|Hik].
    + apply list_lookup_insert_Some in Hk as [(_ & <- & _)|[? _]]; [|done].
      apply Hx. by eapply list_elem_of_lookup_2.
    + rewrite list_lookup_insert_ne in Hk by done.
      apply Hjk. by eapply Hnd.
Qed.

Lemma frames_resolve_elem db :
  frames_resolve db <->
  forall a f, a ∈ animations db -> f ∈ frames a ->
    sprite_name f ∈ (spr_name <$> sprites db).
Proof.
  unfold frames_resolve. rewrite Forall_forall. split.
  - intros H a f Ha Hf. specialize (H a Ha). rewrite Forall_forall in H.
    by apply H.
  - intros H a Ha. apply Forall_forall. intros f Hf. by apply (H a f).
Qed.

Lemma frame_at_elem db ai fi fr :
  frame_at db ai fi = Some fr ->
  exists a, a ∈ animations db /\ fr ∈ frames a.
Proof.
  unfold frame_at. destruct (animations db !! ai) as [a|] eqn:Ha; [|done].
  simpl. intros Hf. exists a.
  split; by eapply list_elem_of_lookup_2.
Qed.

(** X20.  In a database where no two sprites share a name and every frame
    names a sprite of the database, [rename_sprite] keeps both: whether it
    renames or not, sprite names stay distinct, every frame still names a
    sprite of the database, and every frame names the very sprites it
    named before, so no frame loses its sprite or is captured by another
    one.  When it does not report a change, the database is as it
    was. *)
Theorem rename_sprite_keeps_references (db : AnimationDatabase)
    (spr : option nat) (new_name : string) :
  sprite_names_distinct db -> frames_resolve db ->
  let db' := fst (rename_sprite db spr new_name) in
  sprite_names_distinct db' /\ frames_resolve db' /\
  (snd (rename_sprite db spr new_name) = Changed \/ db' = db) /\
  forall ai fi fr, frame_at db ai fi = Some fr ->
    exists fr', frame_at db' ai fi = Some fr' /\
      frame_duration fr' = frame_duration fr /\
      forall j, sprite_called db j (sprite_name fr) <->
                sprite_called db' j (sprite_name fr').
Proof.
  intros Hnd Hres0. pose proof (proj1 (frames_resolve_elem db) Hres0) as Hres.
  assert (sprite_names_distinct db /\ frames_resolve db /\
          (Nothing = Changed \/ db = db) /\
          forall ai fi fr, frame_at db ai fi = Some fr ->
            exists fr', frame_at db ai fi = Some fr' /\
              frame_duration fr' = frame_duration fr /\
              forall j, sprite_called db j (sprite_name fr) <->
                        sprite_called db j (sprite_name fr')) as Hsame.
  { repeat split; try done; [by right|]. intros ai fi fr Hfr. by exists fr. }
  assert (sprite_names_distinct db /\ frames_resolve db /\
          (Refused = Changed \/ db = db) /\
          forall ai fi fr, frame_at db ai fi = Some fr ->
            exists fr', frame_at db ai fi = Some fr' /\
              frame_duration fr' = frame_duration fr /\
              forall j, sprite_called db j (sprite_name fr) <->
                        sprite_called db j (sprite_name fr')) as Hsame'.
  { destruct Hsame as (? & ? & _ & ?). repeat split; try done. by right. }
  unfold rename_sprite.
  destruct spr as [i|]; simpl; [|exact Hsame].
  destruct (sprites db !! i) as [s|] eqn:Hi; simpl; [|exact Hsame].
  case_bool_decide as Hold; [exact Hsame|].
  case_bool_decide as Hempty; [exact Hsame'|].
  destruct (existsb _ (sprites db)) eqn:Hex; [exact Hsame'|].
  clear Hsame Hsame'. simpl.
  pose proof (existsb_false_forall _ _ Hex) as Hfresh.
  assert (new_name ∉ spr_name <$> sprites db) as Hnew.
  { intros Hin. apply list_elem_of_fmap in Hin as (s' & E & Hs').
    specialize (Hfresh s' Hs'). simpl in Hfresh.
    apply bool_decide_eq_false in Hfresh. by apply Hfresh. }
  assert ((spr_name <$> <[i := set_spr_name s new_name]> (sprites db)) =
          <[i := new_name]> (spr_name <$> sprites db)) as Hnames
    by (by rewrite list_fmap_insert).
  assert (forall j n, n <> new_name ->
            (sprite_called db j n /\ j <> i) <->
            sprite_called
              (mkDb (retarget_animation (spr_name s) new_name <$>
                     animations db)
                 (<[i := set_spr_name s new_name]> (sprites db))
                 (body_parts db)) j n) as Hother.
  { intros j n Hn. unfold sprite_called. simpl.
    destruct (decide (j = i)) as [->|Hji].
    - rewrite list_lookup_insert_eq by (by eapply lookup_lt_Some). simpl.
      split; [by intros [_ ?] | intros [= ?]; done].
    - rewrite list_lookup_insert_ne by done. tauto. }
  assert (forall j,
            sprite_called
              (mkDb (retarget_animation (spr_name s) new_name <$>
                     animations db)
                 (<[i := set_spr_name s new_name]> (sprites db))
                 (body_parts db)) j new_name <-> j = i) as Hrenamed.
  { intros j. unfold sprite_called. simpl.
    destruct (decide (j = i)) as [->|Hji].
    - rewrite list_lookup_insert_eq by (by eapply lookup_lt_Some). done.
    - rewrite list_lookup_insert_ne by done. split; [|done].
      intros Hj. exfalso. apply Hnew.
      destruct (sprites db !! j) as [sj|] eqn:Hsj; [|done].
      simpl in Hj. injection Hj as <-.
      apply list_elem_of_fmap. exists sj. split; [done|].
      by eapply list_elem_of_lookup_2. }
  assert (forall j, sprite_called db j (spr_name s) <-> j = i) as Hold_i.
  { intros j. unfold sprite_called. split.
    - intros Hj. unfold sprite_names_distinct in Hnd.
      rewrite NoDup_alt in Hnd. apply (Hnd j i (spr_name s)).
      + by rewrite list_lookup_fmap.
      + by rewrite list_lookup_fmap, Hi.
    - intros ->. by rewrite Hi. }
  split; [|split; [|split]].
  - unfold sprite_names_distinct. simpl. rewrite Hnames.
    by apply NoDup_insert_fresh.
  - apply frames_resolve_elem. intros a' f' Ha' Hf'. simpl in *.
    apply list_elem_of_fmap in Ha' as (a & -> & Ha). simpl in Hf'.
    apply list_elem_of_fmap in Hf' as (f & -> & Hf).
    specialize (Hres a f Ha Hf). unfold retarget_frame.
    case_bool_decide as Hn; simpl.
    + rewrite Hnames. apply list_elem_of_lookup. exists i.
      apply list_lookup_insert_eq. rewrite length_fmap.
      by eapply lookup_lt_Some.
    + apply list_elem_of_lookup in Hres as [j Hj].
      rewrite Hnames. apply list_elem_of_lookup. exists j.
      rewrite list_lookup_insert_ne; [done|].
      intros <-. rewrite list_lookup_fmap, Hi in Hj. simpl in Hj.
      congruence.
  - by left.
  - intros ai fi fr Hfr.
    destruct (frame_at_elem _ _ _ _ Hfr) as (a & Ha & Hf).
    specialize (Hres a fr Ha Hf).
    exists (retarget_frame (spr_name s) new_name fr). split; [|split].
    + unfold frame_at in *. simpl. rewrite list_lookup_fmap.
      destruct (animations db !! ai) as [a0|]; [|done]. simpl in *.
      by rewrite list_lookup_fmap, Hfr.
    + unfold retarget_frame. by case_bool_decide.
    + intros j. unfold retarget_frame. case_bool_decide as Hn; simpl.
      * rewrite Hn, Hold_i, Hrenamed. done.
      * assert (sprite_name fr <> new_name) as Hne
          by (intros E; by rewrite E in Hres).
        rewrite <- (Hother j _ Hne). split; [|by intros [? _]].
        intros Hj. split; [done|]. intros ->. apply Hn.
        unfold sprite_called in Hj. rewrite Hi in Hj. simpl in Hj.
        by injection Hj.
Qed.

Lemma rename_sprite_keeps_references_witness :
  let db' :=
    fst (AnimEditor.rename_sprite Workshop.puppet (Some 0%nat) "step_1") in
  AnimEditor.sprite_names_distinct db' /\ AnimEditor.frames_resolve db' /\
  (snd (AnimEditor.rename_sprite Workshop.puppet (Some 0%nat) "step_1")
   = AnimEditor.Changed \/ db' = Workshop.puppet) /\
  forall ai fi fr, AnimEditor.frame_at Workshop.puppet ai fi = Some fr ->
    exists fr', AnimEditor.frame_at db' ai fi = Some fr' /\
      AnimEditor.frame_duration fr' = AnimEditor.frame_duration fr /\
      forall j, AnimEditor.sprite_called Workshop.puppet j
                  (AnimEditor.sprite_name fr) <->
                AnimEditor.sprite_called db' j (AnimEditor.sprite_name fr').
Proof.
  apply (AnimEditorProps.rename_sprite_keeps_references Workshop.puppet
           (Some 0%nat) "step_1").
  - apply (bool_decide_unpack _). vm_compute. exact I.
  - apply (bool_decide_unpack _). vm_compute. exact I.
Defined.

(** *** Hitboxes and body parts *)

Lemma sort_insert_perm_any {A} (lt : A -> A -> bool) (x : A) (l : list A) :
  Resolver.sort_insert lt x l ≡ₚ x :: l.
Proof.
  induction l as [|y l IH]; simpl; [done|].
  destruct (lt y x); [|done]. rewrite IH. apply Permutation_swap.
Qed.

Lemma std_sort_perm_any {A} (lt : A -> A -> bool) (l : list A) :
  Resolver.std_sort lt l ≡ₚ l.
Proof.
  induction l as [|x l IH]; simpl; [done|].
  unfold Resolver.std_sort in *. simpl.
  rewrite sort_insert_perm_any. by rewrite IH.
Qed.

Lemma Forall_perm {A} (P : A -> Prop) (l l' : list A) :
  l ≡ₚ l' -> Forall P l -> Forall P l'.
Proof. intros Hp H. by rewrite <- Hp. Qed.

(** The sort, for a comparator that compares a key on the elements it is
    given. *)
Lemma sort_insert_sorted_by {A} (key : A -> nat) (lt : A -> A -> bool)
    (P : A -> Prop) (x : A) (l : list A) :
  (forall a b, P a -> P b -> lt a b = (key a <? key b)%nat) ->
  P x -> Forall P l ->
  StronglySorted (fun a b => (key a <= key b)%nat) l ->
  StronglySorted (fun a b => (key a <= key b)%nat)
    (Resolver.sort_insert lt x l).
Proof.
  intros Hlt Hx HP Hs. induction Hs as [|y l Hs IH Hall]; simpl.
  - repeat constructor.
  - apply Forall_cons in HP as [Hy HP].
    rewrite (Hlt y x Hy Hx). destruct (key y <? key x)%nat eqn:Hc.
    + apply Nat.ltb_lt in Hc. constructor; [by apply IH|].
      rewrite sort_insert_perm_any. constructor; [lia|done].
    + apply Nat.ltb_ge in Hc. constructor; [by constructor|].
      constructor; [done|].
      eapply Forall_impl; [exact Hall|]. simpl. intros; lia.
Qed.

Lemma std_sort_sorted_by {A} (key : A -> nat) (lt : A -> A -> bool)
    (P : A -> Prop) (l : list A) :
  (forall a b, P a -> P b -> lt a b = (key a <? key b)%nat) ->
  Forall P l ->
  StronglySorted (fun a b => (key a <= key b)%nat) (Resolver.std_sort lt l).
Proof.
  intros Hlt HP. induction HP as [|x l Hx HP IH]; simpl; [constructor|].
  unfold Resolver.std_sort in *. simpl.
  eapply sort_insert_sorted_by; eauto.
  eapply Forall_perm; [|exact HP].
  symmetry. apply std_sort_perm_any.
Qed.

Lemma last_pos_found parts name b s1 s2 :
  name_found parts name = true ->
  last_pos_from parts name b s1 = last_pos_from parts name b s2.
Proof.
  revert b s1 s2. induction parts as [|p parts IH]; intros b s1 s2; simpl;
    [done|].
  case_bool_decide as Hp; simpl; [done | apply IH].
Qed.

Lemma hitbox_lt_by_pos parts h1 h2 :
  name_found parts (body_part_name h1) = true ->
  name_found parts (body_part_name h2) = true ->
  hitbox_lt parts h1 h2 = (part_pos parts h1 <? part_pos parts h2)%nat.
Proof.
  intros _ H2. unfold hitbox_lt, part_pos.
  by rewrite (last_pos_found parts _ 0 1 0 H2).
Qed.

Lemma add_missing_keeps height radius hs b h :
  h ∈ hs -> h ∈ add_missing height radius hs b.
Proof.
  intros H. unfold add_missing. destruct (existsb _ hs); [done|].
  apply elem_of_app. by left.
Qed.

Lemma fold_add_missing_keeps height radius parts hs h :
  h ∈ hs -> h ∈ fold_left (add_missing height radius) parts hs.
Proof.
  revert hs. induction parts as [|b parts IH]; intros hs H; simpl; [done|].
  apply IH. by apply add_missing_keeps.
Qed.

Lemma add_missing_covers height radius hs b :
  exists h, h ∈ add_missing height radius hs b /\
            body_part_name h = bp_name b.
Proof.
  unfold add_missing. destruct (existsb _ hs) eqn:He.
  - apply existsb_exists in He as (h & Hin & Hn).
    apply bool_decide_eq_true in Hn. exists h.
    split; [by apply list_elem_of_In | done].
  - exists (new_hitbox (bp_name b) height radius). split; [|done].
    apply elem_of_app. right. by left.
Qed.

Lemma fold_add_missing_covers height radius parts hs :
  Forall (fun b => exists h,
            h ∈ fold_left (add_missing height radius) parts hs /\
            body_part_name h = bp_name b) parts.
Proof.
  revert hs. induction parts as [|b parts IH]; intros hs; simpl;
    [constructor|].
  constructor; [|apply IH].
  destruct (add_missing_covers height radius hs b) as (h & Hin & Hn).
  exists h. split; [|done]. by apply fold_add_missing_keeps.
Qed.

Lemma fold_add_missing_all height radius (Q : Hitbox -> Prop) parts hs :
  Forall (fun b => Q (new_hitbox (bp_name b) height radius)) parts ->
  Forall Q hs ->
  Forall Q (fold_left (add_missing height radius) parts hs).
Proof.
  intros HQ. revert hs. induction HQ as [|b parts Hb HQ IH]; intros hs Hhs;
    simpl; [done|].
  apply IH. unfold add_missing. destruct (existsb _ hs); [done|].
  apply Forall_app. split; [done|]. by constructor.
Qed.

Lemma name_found_elem parts b :
  b ∈ parts -> name_found parts (bp_name b) = true.
Proof.
  intros H. unfold name_found. apply existsb_exists. exists b.
  split; [by apply list_elem_of_In | by apply bool_decide_eq_true].
Qed.

Lemma update_sprite_hitboxes_updated parts height radius s :
  hitboxes_updated parts height radius (spr_hitboxes s)
    (spr_hitboxes (update_sprite_hitboxes parts height radius s)).
Proof.
  unfold update_sprite_hitboxes. simpl.
  set (kept := List.filter _ (spr_hitboxes s)).
  set (all := fold_left _ parts kept).
  pose proof (std_sort_perm_any (hitbox_lt parts) all) as Hperm.
  assert (Forall (fun h => name_found parts (body_part_name h) = true) all)
    as Hfound.
  { apply fold_add_missing_all.
    - apply Forall_forall. intros b Hb. simpl. by apply name_found_elem.
    - apply Forall_forall. intros h Hh. subst kept.
      apply list_elem_of_In, filter_In in Hh. tauto. }
  split; [|split; [|split; [|split]]].
  - eapply Forall_perm; [symmetry; exact Hperm | exact Hfound].
  - eapply Forall_impl; [apply (fold_add_missing_covers height radius)|].
    simpl. intros b (h & Hin & Hn). exists h. split; [|done].
    fold kept in Hin. fold all in Hin. by rewrite Hperm.
  - unfold in_part_order.
    apply (std_sort_sorted_by (part_pos parts) _
             (fun h => name_found parts (body_part_name h) = true));
      [|done].
    intros a b. apply hitbox_lt_by_pos.
  - eapply Forall_perm; [symmetry; exact Hperm|].
    apply fold_add_missing_all.
    + apply Forall_forall. intros b _. by right.
    + apply Forall_forall. intros h Hh. left. subst kept.
      apply list_elem_of_In, filter_In in Hh as [Hh _].
      by apply list_elem_of_In.
  - apply Forall_forall. intros h Hh Hn. rewrite Hperm.
    apply fold_add_missing_keeps. subst kept.
    apply list_elem_of_In, filter_In. split; [by apply list_elem_of_In|done].
Qed.

(** X21.  [update_hitboxes] touches nothing but the hitbox lists of the
    sprites, and it leaves in every sprite: hitboxes of existing body
    parts only; at least one hitbox for every body part; the hitboxes in
    the order of their body parts; every hitbox of an existing body part
    that the sprite had, unchanged; and besides those only default
    hitboxes, at the origin with the height and radius given. *)
Theorem update_hitboxes_matches_body_parts (height radius : Q)
    (db : AnimationDatabase) :
  let db' := update_hitboxes height radius db in
  animations db' = animations db /\
  body_parts db' = body_parts db /\
  Forall2
    (fun s s' =>
       set_spr_hitboxes s' (spr_hitboxes s) = s /\
       hitboxes_updated (body_parts db) height radius
         (spr_hitboxes s) (spr_hitboxes s'))
    (sprites db) (sprites db').
Proof.
  simpl. split; [done|]. split; [done|].
  apply Forall2_fmap_r, Forall_Forall2_diag, Forall_forall.
  intros s _. split; [by destruct s|].
  apply update_sprite_hitboxes_updated.
Qed.

(** *** Renaming a body part *)

Lemma filter_all {A} (p : A -> bool) (l : list A) :
  Forall (fun x => p x = true) l -> List.filter p l = l.
Proof.
  induction 1 as [|x l Hx _ IH]; simpl; [done|]. by rewrite Hx, IH.
Qed.

Lemma fold_add_missing_none height radius parts hs :
  Forall (fun b => exists h, h ∈ hs /\ body_part_name h = bp_name b) parts ->
  fold_left (add_missing height radius) parts hs = hs.
Proof.
  induction 1 as [|b parts (h & Hin & Hn) _ IH]; simpl; [done|].
  unfold add_missing at 2.
  assert (existsb (fun h => bool_decide (body_part_name h = bp_name b)) hs
          = true) as ->; [|exact IH].
  apply existsb_exists. exists h.
  split; [by apply list_elem_of_In | by apply bool_decide_eq_true].
Qed.

Lemma std_sort_sorted_id {A} (key : A -> nat) (lt : A -> A -> bool)
    (l : list A) :
  (forall i j x y, l !! i = Some x -> l !! j = Some y ->
     lt y x = (key y <? key x)%nat /\ ((i < j)%nat -> (key x < key y)%nat)) ->
  Resolver.std_sort lt l = l.
Proof.
  induction l as [|x l IH]; intros H; [done|].
  unfold Resolver.std_sort in *. simpl. rewrite IH.
  - destruct l as [|y l]; [done|]. simpl.
    destruct (H 0%nat 1%nat x y eq_refl eq_refl) as [-> Hk].
    assert ((key y <? key x)%nat = false) as -> by (apply Nat.ltb_ge; lia).
    done.
  - intros i j a b Ha Hb. destruct (H (S i) (S j) a b Ha Hb) as [E Hk].
    split; [done|]. intros; apply Hk; lia.
Qed.

Lemma last_pos_absent parts name b start :
  name ∉ (bp_name <$> parts) -> last_pos_from parts name b start = start.
Proof.
  revert b start. induction parts as [|p parts IH]; intros b start Hn;
    simpl; [done|].
  rewrite fmap_cons in Hn. apply not_elem_of_cons in Hn as [Hp Hn].
  rewrite bool_decide_eq_false_2 by done. by apply IH.
Qed.

Lemma last_pos_distinct parts k p b start :
  NoDup (bp_name <$> parts) -> parts !! k = Some p ->
  last_pos_from parts (bp_name p) b start = (b + k)%nat.
Proof.
  revert k b start. induction parts as [|q parts IH]; intros k b start Hnd Hk;
    [done|].
  rewrite fmap_cons in Hnd. apply NoDup_cons in Hnd as [Hq Hnd]. simpl.
  destruct k as [|k]; simpl in Hk.
  - injection Hk as ->. rewrite bool_decide_eq_true_2 by done.
    rewrite last_pos_absent by done. lia.
  - rewrite bool_decide_eq_false_2.
    + rewrite (IH k) by done. lia.
    + intros E. apply Hq. rewrite E. apply list_elem_of_fmap.
      exists p. split; [done|]. by eapply list_elem_of_lookup_2.
Qed.

(** A sprite that has one hitbox per body part, in body part order, is
    left as it is. *)
Lemma update_sprite_hitboxes_matched parts height radius s :
  NoDup (bp_name <$> parts) ->
  body_part_name <$> spr_hitboxes s = bp_name <$> parts ->
  update_sprite_hitboxes parts height radius s = s.
Proof.
  intros Hnd Hm. unfold update_sprite_hitboxes.
  assert (forall i h, spr_hitboxes s !! i = Some h ->
            exists p, parts !! i = Some p /\ bp_name p = body_part_name h)
    as Hat.
  { intros i h Hi.
    assert ((body_part_name <$> spr_hitboxes s) !! i
            = Some (body_part_name h)) as E
      by (by rewrite list_lookup_fmap, Hi).
    rewrite Hm, list_lookup_fmap in E.
    destruct (parts !! i) as [p|]; [|done]. simpl in E. injection E as E.
    by exists p. }
  assert (forall i h, spr_hitboxes s !! i = Some h ->
            name_found parts (body_part_name h) = true /\
            part_pos parts h = i) as Hpos.
  { intros i h Hi. destruct (Hat i h Hi) as (p & Hp & Hn). split.
    - rewrite <- Hn. apply name_found_elem. by eapply list_elem_of_lookup_2.
    - unfold part_pos. rewrite <- Hn.
      by rewrite (last_pos_distinct parts i p 0 0 Hnd Hp). }
  rewrite filter_all.
  2:{ apply Forall_forall. intros h Hh.
      apply list_elem_of_lookup in Hh as [i Hi]. by apply (Hpos i h). }
  rewrite fold_add_missing_none.
  2:{ apply Forall_forall. intros b Hb.
      apply list_elem_of_lookup in Hb as [i Hi].
      assert ((bp_name <$> parts) !! i = Some (bp_name b)) as E
        by (by rewrite list_lookup_fmap, Hi).
      rewrite <- Hm, list_lookup_fmap in E.
      destruct (spr_hitboxes s !! i) as [h|] eqn:Hh; [|done].
      simpl in E. injection E as E. exists h.
      split; [by eapply list_elem_of_lookup_2 | done]. }
  rewrite (std_sort_sorted_id (part_pos parts)); [by destruct s|].
  intros i j x y Hx Hy.
  destruct (Hpos i x Hx) as [Fx Px]. destruct (Hpos j y Hy) as [Fy Py].
  split; [by apply hitbox_lt_by_pos | lia].
Qed.

(** X22.  In a database where no two body parts share a name and every
    sprite has exactly one hitbox per body part, in body part order,
    [rename_body_part] keeps both, and it moves, resizes, adds and deletes
    no hitbox: every sprite comes out with the hitboxes it had, in the
    order they were in, changed in nothing but their body part names.
    The call of [update_hitboxes] that ends the renaming finds nothing to
    do. *)
Theorem rename_body_part_keeps_hitboxes (height radius : Q)
    (db : AnimationDatabase) (part : option nat) (new_name : string) :
  part_names_distinct db -> hitboxes_match db ->
  let db' := fst (rename_body_part height radius db part new_name) in
  part_names_distinct db' /\ hitboxes_match db' /\
  animations db' = animations db /\
  Forall2 same_but_part_names (sprites db) (sprites db').
Proof.
  intros Hnd Hm.
  assert (part_names_distinct db /\ hitboxes_match db /\
          animations db = animations db /\
          Forall2 same_but_part_names (sprites db) (sprites db)) as Hsame.
  { repeat split; try done. apply Forall_Forall2_diag, Forall_forall.
    intros s _. split; [by destruct s|].
    apply Forall_Forall2_diag, Forall_forall. intros h _. by destruct h. }
  unfold rename_body_part.
  destruct part as [i|]; simpl; [|exact Hsame].
  destruct (body_parts db !! i) as [p|] eqn:Hi; simpl; [|exact Hsame].
  case_bool_decide as Hold; [exact Hsame|].
  case_bool_decide as Hempty; [exact Hsame|].
  destruct (existsb _ (body_parts db)) eqn:Hex; [exact Hsame|].
  clear Hsame. simpl.
  pose proof (existsb_false_forall _ _ Hex) as Hfresh.
  assert (new_name ∉ bp_name <$> body_parts db) as Hnew.
  { intros Hin. apply list_elem_of_fmap in Hin as (b & E & Hb).
    specialize (Hfresh b Hb). simpl in Hfresh.
    apply bool_decide_eq_false in Hfresh. by apply Hfresh. }
  set (parts' := <[i := mkBodyPart new_name]> (body_parts db)).
  assert (bp_name <$> parts' = <[i := new_name]> (bp_name <$> body_parts db))
    as Hnames by (subst parts'; by rewrite list_fmap_insert).
  assert (NoDup (bp_name <$> parts')) as Hnd'.
  { rewrite Hnames. by apply NoDup_insert_fresh. }
  assert (forall s, s ∈ sprites db ->
            body_part_name <$>
              (rename_hitbox (bp_name p) new_name <$> spr_hitboxes s)
            = bp_name <$> parts') as Hrenamed.
  { intros s Hs. unfold hitboxes_match in Hm. rewrite Forall_forall in Hm.
    specialize (Hm s Hs). rewrite Hnames. apply list_eq. intros k.
    rewrite <- list_fmap_compose, list_lookup_fmap.
    assert ((body_part_name <$> spr_hitboxes s) !! k =
            (bp_name <$> body_parts db) !! k) as Hk by (by rewrite Hm).
    rewrite !list_lookup_fmap in Hk.
    destruct (decide (k = i)) as [->|Hki].
    - rewrite Hi in Hk. simpl in Hk.
      rewrite list_lookup_insert_eq
        by (rewrite length_fmap; by eapply lookup_lt_Some).
      destruct (spr_hitboxes s !! i) as [h|]; [|done]. simpl in *.
      injection Hk as Hk. unfold rename_hitbox.
      by rewrite bool_decide_eq_true_2.
    - rewrite list_lookup_insert_ne by done. rewrite list_lookup_fmap.
      destruct (spr_hitboxes s !! k) as [h|] eqn:Hh; simpl in *.
      + destruct (body_parts db !! k) as [q|] eqn:Hq; [|done].
        simpl in Hk. injection Hk as Hk. simpl. f_equal.
        unfold rename_hitbox.
        destruct (bool_decide (body_part_name h = bp_name p)) eqn:E;
          [|done].
        apply bool_decide_eq_true in E. exfalso. apply Hki.
        unfold part_names_distinct in Hnd. rewrite NoDup_alt in Hnd.
        apply (Hnd k i (bp_name p)).
        * rewrite list_lookup_fmap, Hq. simpl. by rewrite <- Hk, E.
        * by rewrite list_lookup_fmap, Hi.
      + by destruct (body_parts db !! k). }
  assert (forall s, s ∈ sprites db ->
            update_sprite_hitboxes parts' height radius
              (set_spr_hitboxes s
                 (rename_hitbox (bp_name p) new_name <$> spr_hitboxes s))
            = set_spr_hitboxes s
                (rename_hitbox (bp_name p) new_name <$> spr_hitboxes s))
    as Hnoop.
  { intros s Hs. apply update_sprite_hitboxes_matched; [done|].
    simpl. by apply Hrenamed. }
  split; [exact Hnd'|]. split; [|split; [done|]].
  - unfold hitboxes_match. simpl. apply Forall_forall. intros s' Hs'.
    apply list_elem_of_fmap in Hs' as (s1 & -> & Hs1).
    apply list_elem_of_fmap in Hs1 as (s & -> & Hs).
    rewrite (Hnoop s Hs). simpl. by apply Hrenamed.
  - rewrite <- list_fmap_compose.
    apply Forall2_fmap_r, Forall_Forall2_diag, Forall_forall. intros s Hs.
    simpl. rewrite (Hnoop s Hs). split; [by destruct s|]. simpl.
    apply Forall2_fmap_r, Forall_Forall2_diag, Forall_forall. intros h _.
    unfold compose, rename_hitbox.
    destruct (bool_decide (body_part_name h = bp_name p)); by destruct h.
Qed.

Lemma rename_body_part_keeps_hitboxes_witness :
  let db' :=
    fst (AnimEditor.rename_body_part 128 32 Workshop.puppet (Some 1%nat)
           "hat") in
  AnimEditor.part_names_distinct db' /\ AnimEditor.hitboxes_match db' /\
  AnimEditor.animations db' = AnimEditor.animations Workshop.puppet /\
  Forall2 AnimEditor.same_but_part_names
    (AnimEditor.sprites Workshop.puppet) (AnimEditor.sprites db').
Proof.
  apply (AnimEditorProps.rename_body_part_keeps_hitboxes 128 32
           Workshop.puppet (Some 1%nat) "hat").
  - apply (bool_decide_unpack _). vm_compute. exact I.
  - repeat constructor.
Defined.

(** Renaming the head of [Workshop.puppet] renames the second hitbox of
    every sprite. *)
Example puppet_after_rename :
  map (fun s => map AnimEditor.body_part_name (AnimEditor.spr_hitboxes s))
    (AnimEditor.sprites
       (fst (AnimEditor.rename_body_part 128 32 Workshop.puppet (Some 1%nat)
               "hat"))) =
  [["body"; "hat"]; ["body"; "hat"]; ["body"; "hat"]]%string.
Proof. vm_compute. reflexivity. Qed.

End AnimEditorProps.
(* ===================================================================== *)
(** ** The flood fill of the sprite bitmap picker *)
(* ===================================================================== *)

Module FloodFillProps.
Import FloodFill.

Section Bitmap.
Variable bmp : Bitmap.

Lemma grown_refl sel : grown bmp sel sel.
Proof. split; [done|]. split; [done|]. intros i H. by left. Qed.

Lemma grown_trans s1 s2 s3 : grown bmp s1 s2 -> grown bmp s2 s3 -> grown bmp s1 s3.
Proof.
  intros (L1 & K1 & N1) (L2 & K2 & N2). split; [congruence|]. split.
  - intros i H. by apply K2, K1.
  - intros i H. destruct (N2 i H) as [H2|H2]; [|by right]. by apply N1.
Qed.

Lemma grown_insert sel c :
  markable bmp c -> grown bmp sel (<[pixel_index bmp (fst c) (snd c) := true]> sel).
Proof.
  intros [Hin Ht]. split; [by rewrite length_insert|]. split.
  - intros i H. destruct (decide (pixel_index bmp (fst c) (snd c) = i)) as [<-|Hne].
    + apply list_lookup_insert_eq. by eapply lookup_lt_Some.
    + by rewrite list_lookup_insert_ne.
  - intros i H. destruct (decide (pixel_index bmp (fst c) (snd c) = i)) as [<-|Hne].
    + right. exists (fst c), (snd c). by destruct c.
    + left. by rewrite list_lookup_insert_ne in H.
Qed.

Lemma scan_left_markable sel y x :
  (x <= bmp_w bmp)%nat -> (y < bmp_h bmp)%nat ->
  Forall (markable bmp) (scan_left bmp sel y x) /\
  (length (scan_left bmp sel y x) <= x)%nat.
Proof.
  intros Hx Hy. induction x as [|x IH]; simpl; [split; [constructor|lia]|].
  destruct (selected bmp sel x y); [split; [constructor|simpl; lia]|].
  destruct (transparent bmp x y) eqn:Ht; [split; [constructor|simpl; lia]|].
  destruct IH as [F L]; [lia|]. split; [|simpl; lia].
  constructor; [|done]. split; [|done]. split; simpl; lia.
Qed.

Lemma scan_right_markable k sel y x :
  (x + k < bmp_w bmp)%nat -> (y < bmp_h bmp)%nat ->
  Forall (markable bmp) (scan_right bmp k sel y x) /\
  (length (scan_right bmp k sel y x) <= k)%nat.
Proof.
  revert x. induction k as [|k IH]; intros x Hx Hy; simpl;
    [split; [constructor|lia]|].
  destruct (selected bmp sel (S x) y); [split; [constructor|simpl; lia]|].
  destruct (transparent bmp (S x) y) eqn:Ht; [split; [constructor|simpl; lia]|].
  destruct (IH (S x)) as [F L]; [lia|done|]. split; [|simpl; lia].
  constructor; [|done]. split; [|done]. split; simpl; lia.
Qed.

Lemma columns_markable sel x y :
  markable bmp (x, y) ->
  Forall (markable bmp) (columns bmp sel x y) /\
  (length (columns bmp sel x y) <= bmp_w bmp)%nat.
Proof.
  intros Hm. pose proof Hm as [[Hx Hy] Ht]. simpl in Hx, Hy.
  unfold FloodFill.columns.
  destruct (scan_left_markable sel y x) as [F1 L1]; [lia|done|].
  destruct (scan_right_markable (bmp_w bmp - 1 - x) sel y x) as [F2 L2];
    [lia|done|].
  split.
  - constructor; [done|]. by apply Forall_app.
  - simpl. rewrite length_app. lia.
Qed.

Lemma unselected_insert sel i :
  (unselected (<[i := true]> sel) <= unselected sel)%nat /\
  (sel !! i = Some false ->
   (unselected (<[i := true]> sel) < unselected sel)%nat).
Proof.
  unfold unselected. revert i.
  induction sel as [|b sel IH]; intros i; simpl; [split; [lia|done]|].
  destruct i as [|i]; simpl.
  - destruct b; simpl; (split; [lia|]); intros H; [done|lia].
  - destruct (IH i) as [H1 H2].
    destruct b; simpl; (split; [lia|]); intros H; specialize (H2 H); lia.
Qed.

Lemma unselected_length sel : (unselected sel <= length sel)%nat.
Proof.
  unfold unselected. induction sel as [|[] sel IH]; simpl; lia.
Qed.

(** One column: the selection grows, the queue holds pixels of the
    bitmap and gains two at most. *)
Lemma mark_column_spec sel queue c :
  markable bmp c -> Forall (in_bitmap bmp) queue ->
  let st := mark_column bmp (sel, queue) c in
  fst st = <[pixel_index bmp (fst c) (snd c) := true]> sel /\
  Forall (in_bitmap bmp) (snd st) /\
  (length (snd st) <= length queue + 2)%nat.
Proof.
  intros [[Hx Hy] Ht] Hq. destruct c as [cx cy]. simpl in *.
  split; [done|].
  set (sel1 := <[pixel_index bmp cx cy := true]> sel).
  set (q1 := if (0 <? cy)%nat && negb (selected bmp sel1 cx (cy - 1)) &&
                negb (transparent bmp cx (cy - 1))
             then (queue ++ [(cx, (cy - 1)%nat)])%list else queue).
  assert (Forall (in_bitmap bmp) q1 /\ (length q1 <= length queue + 1)%nat)
    as [Hq1 Hl1].
  { subst q1. destruct (_ && _) eqn:Hc; [|split; [done|lia]].
    split; [|rewrite length_app; simpl; lia].
    apply Forall_app. split; [done|]. constructor; [|constructor].
    split; simpl; lia. }
  destruct ((cy <? bmp_h bmp - 1)%nat && negb (selected bmp sel1 cx (cy + 1)) &&
            negb (transparent bmp cx (cy + 1))) eqn:Hc; [|split; [done|lia]].
  split; [|rewrite length_app; simpl; lia].
  apply Forall_app. split; [done|]. constructor; [|constructor].
  apply andb_true_iff in Hc as [Hc _]. apply andb_true_iff in Hc as [Hc _].
  apply Nat.ltb_lt in Hc. split; simpl; lia.
Qed.

Lemma fold_mark_column_spec cols sel queue :
  Forall (markable bmp) cols -> Forall (in_bitmap bmp) queue ->
  let st := fold_left (mark_column bmp) cols (sel, queue) in
  grown bmp sel (fst st) /\
  (unselected (fst st) <= unselected sel)%nat /\
  Forall (in_bitmap bmp) (snd st) /\
  (length (snd st) <= length queue + 2 * length cols)%nat.
Proof.
  intros Hc. revert sel queue.
  induction Hc as [|c cols Hm Hc IH]; intros sel queue Hq;
    cbn [fold_left length fst snd].
  - split; [apply grown_refl|]. split; [lia|]. split; [done|lia].
  - destruct (mark_column_spec sel queue c Hm Hq) as (E & Hq1 & Hl1).
    destruct (mark_column bmp (sel, queue) c) as [sel1 q1] eqn:Hst.
    simpl in E, Hq1, Hl1. subst sel1.
    destruct (IH (<[pixel_index bmp (fst c) (snd c) := true]> sel) q1 Hq1)
      as (G & U & Hq2 & Hl2).
    split; [|split; [|split]].
    + eapply grown_trans; [|exact G]. by apply grown_insert.
    + pose proof (proj1 (unselected_insert sel
                           (pixel_index bmp (fst c) (snd c)))). lia.
    + done.
    + lia.
Qed.

(** Safety of the loop, for any fuel. *)
Lemma fill_loop_grown fuel sel queue sel' :
  Forall (in_bitmap bmp) queue -> fill_loop bmp fuel sel queue = Some sel' ->
  grown bmp sel sel'.
Proof.
  revert sel queue. induction fuel as [|fuel IH]; intros sel queue Hq H.
  - destruct queue as [|[x y] rest]; cbn [FloodFill.fill_loop] in H; [|done].
    injection H as <-. apply grown_refl.
  - destruct queue as [|[x y] rest]; cbn [FloodFill.fill_loop] in H.
    { injection H as <-. apply grown_refl. }
    apply Forall_cons in Hq as [Hp Hq].
    destruct (selected bmp sel x y || transparent bmp x y) eqn:Hc;
      [by eapply IH|].
    apply orb_false_iff in Hc as [Hs Ht].
    assert (markable bmp (x, y)) as Hm by done.
    destruct (columns_markable sel x y Hm) as [Hcols _].
    destruct (fold_mark_column_spec _ sel rest Hcols Hq) as (G & _ & Hq' & _).
    destruct (fold_left (mark_column bmp) (columns bmp sel x y) (sel, rest))
      as [sel1 q1]. cbn [fst snd] in *.
    eapply grown_trans; [exact G|]. by eapply IH.
Qed.

(** The loop ends, with fuel above its measure. *)
Lemma fill_loop_ends fuel sel queue :
  length sel = (bmp_w bmp * bmp_h bmp)%nat -> Forall (in_bitmap bmp) queue ->
  (length queue + (2 * bmp_w bmp + 1) * unselected sel < fuel)%nat ->
  exists sel', fill_loop bmp fuel sel queue = Some sel'.
Proof.
  revert sel queue. induction fuel as [|fuel IH]; intros sel queue Hl Hq Hf;
    [lia|].
  destruct queue as [|[x y] rest]; cbn [FloodFill.fill_loop]; [eauto|].
  apply Forall_cons in Hq as [Hp Hq]. cbn [length] in Hf.
  destruct (selected bmp sel x y || transparent bmp x y) eqn:Hc.
  { apply IH; [done|done|lia]. }
  apply orb_false_iff in Hc as [Hs Ht].
  assert (markable bmp (x, y)) as Hm by done.
  destruct (columns_markable sel x y Hm) as [Hcols Hlen].
  destruct Hp as [Hx Hy]. simpl in Hx, Hy.
  assert (sel !! pixel_index bmp x y = Some false) as Hfalse.
  { unfold FloodFill.selected in Hs.
    destruct (sel !! pixel_index bmp x y) as [b|] eqn:E.
    - simpl in Hs. by subst b.
    - apply lookup_ge_None in E. unfold FloodFill.pixel_index in E. nia. }
  unfold FloodFill.columns in *. cbn [fold_left].
  set (tail := (scan_left bmp sel y x ++
                scan_right bmp (bmp_w bmp - 1 - x) sel y x)%list) in *.
  apply Forall_cons in Hcols as [_ Htail].
  destruct (mark_column_spec sel rest (x, y) Hm Hq) as (E & Hq1 & Hl1).
  destruct (mark_column bmp (sel, rest) (x, y)) as [sel1 q1] eqn:Hst.
  simpl in E, Hq1, Hl1.
  destruct (fold_mark_column_spec tail sel1 q1 Htail Hq1)
    as (G & U & Hq2 & Hl2).
  destruct (fold_left (mark_column bmp) tail (sel1, q1)) as [sel2 q2].
  simpl in G, U, Hq2, Hl2.
  pose proof (proj2 (unselected_insert sel (pixel_index bmp x y)) Hfalse) as Hdrop.
  rewrite <- E in Hdrop. simpl in Hlen.
  apply IH; [|done|].
  - destruct G as [-> _]. subst sel1. by rewrite length_insert.
  - nia.
Qed.

Lemma fill_loop_more_fuel fuel fuel' sel queue r :
  fill_loop bmp fuel sel queue = Some r -> (fuel <= fuel')%nat ->
  fill_loop bmp fuel' sel queue = Some r.
Proof.
  revert fuel' sel queue. induction fuel as [|fuel IH];
    intros fuel' sel queue H Hle.
  - destruct queue as [|[x y] rest]; cbn [FloodFill.fill_loop] in H; [|done].
    by destruct fuel'.
  - destruct queue as [|[x y] rest]; cbn [FloodFill.fill_loop] in H.
    { by destruct fuel'. }
    destruct fuel' as [|fuel']; [lia|]. cbn [FloodFill.fill_loop].
    destruct (selected bmp sel x y || transparent bmp x y).
    + apply IH; [done|lia].
    + destruct (fold_left (mark_column bmp) (columns bmp sel x y) (sel, rest))
        as [sel1 q1]. apply IH; [done|lia].
Qed.

(** The pixel the loop starts from is selected when the loop ends. *)
Lemma fill_loop_start fuel sel x y sel' :
  length sel = (bmp_w bmp * bmp_h bmp)%nat -> markable bmp (x, y) ->
  fill_loop bmp fuel sel [(x, y)] = Some sel' ->
  selected bmp sel' x y = true.
Proof.
  intros Hl Hm H. pose proof Hm as [[Hx Hy] Ht]. simpl in Hx, Hy, Ht.
  assert (pixel_index bmp x y < length sel)%nat as Hidx
    by (unfold FloodFill.pixel_index; nia).
  assert (forall s, grown bmp sel s -> selected bmp s x y = true ->
            forall s', grown bmp s s' -> selected bmp s' x y = true) as Hkeep.
  { intros s _ Hs s' (_ & K & _). unfold FloodFill.selected in *.
    destruct (s !! pixel_index bmp x y) as [[]|] eqn:E; try done.
    by rewrite (K _ E). }
  destruct fuel as [|fuel]; cbn [FloodFill.fill_loop] in H; [done|].
  destruct (selected bmp sel x y) eqn:Hs; cbn [orb] in H.
  { destruct fuel; cbn [FloodFill.fill_loop] in H; by injection H as <-. }
  rewrite Ht in H.
  destruct (columns_markable sel x y Hm) as [Hcols _].
  unfold FloodFill.columns in *. cbn [fold_left] in H.
  apply Forall_cons in Hcols as [_ Htail].
  match type of H with
  | context [fold_left (mark_column bmp) ?tail ?st1] =>
      destruct (mark_column_spec sel [] (x, y) Hm) as (E & Hq1 & _);
        [constructor|];
      change (mark_column bmp (sel, []) (x, y)) with st1 in E, Hq1;
      destruct st1 as [sel1 q1];
      destruct (fold_mark_column_spec tail sel1 q1 Htail Hq1)
        as (G & _ & Hq2 & _);
      destruct (fold_left (mark_column bmp) tail (sel1, q1))
        as [sel2 q2] eqn:Hfold
  end.
  cbn [fst snd] in *.
  apply (Hkeep sel2).
  - eapply grown_trans; [|exact G]. subst sel1.
    apply (grown_insert sel (x, y) Hm).
  - apply (Hkeep sel1); [subst sel1; apply (grown_insert sel (x, y) Hm)
                        | | exact G].
    subst sel1. unfold FloodFill.selected.
    by rewrite list_lookup_insert_eq.
  - by eapply fill_loop_grown.
Qed.

End Bitmap.

(** X23.  Whenever [sprite_bmp_flood_fill] returns, the selection array
    has the size it had, no pixel has been deselected, and every pixel
    that has been selected is a pixel of the bitmap whose alpha is not
    below the threshold: the fill never selects a transparent pixel and
    never writes outside the array. *)
Theorem flood_fill_selects_opaque_pixels (bmp : Bitmap) (fuel : nat)
    (sel : list bool) (x y : Z) (sel' : list bool) :
  sprite_bmp_flood_fill bmp fuel sel x y = Selection sel' ->
  grown bmp sel sel'.
Proof.
  unfold sprite_bmp_flood_fill. intros H.
  destruct (_ || _) eqn:G1; [injection H as <-; apply grown_refl|].
  destruct (_ || _) eqn:G2 in H; [injection H as <-; apply grown_refl|].
  destruct (_ || _) eqn:G3 in H.
  { destruct (bool_decide _) in H; [|done].
    injection H as <-. apply grown_refl. }
  destruct (selected _ _ _ _); [injection H as <-; apply grown_refl|].
  destruct (transparent _ _ _) eqn:Ht;
    [injection H as <-; apply grown_refl|].
  destruct (fill_loop _ _ _ _) as [s|] eqn:E; [|done].
  injection H as <-. eapply fill_loop_grown; [|exact E].
  constructor; [|constructor].
  apply orb_false_iff in G1 as [A1 A2]. apply orb_false_iff in G2 as [B1 B2].
  apply orb_false_iff in G3 as [C1 C2].
  apply Z.ltb_ge in A1, A2, B1, B2. apply Z.eqb_neq in C1, C2.
  split; simpl; lia.
Qed.

Lemma flood_fill_selects_opaque_pixels_witness :
  FloodFill.grown Workshop.strip (replicate 6 false)
    [true; true; false; true; true; false].
Proof.
  apply (FloodFillProps.flood_fill_selects_opaque_pixels Workshop.strip 20
           (replicate 6 false) 0 0).
  vm_compute. reflexivity.
Defined.

(** X24.  Started on a pixel of the bitmap, with a selection array of the
    size of the bitmap, [sprite_bmp_flood_fill] ends: the loop over the
    queue needs no more than [enough_fuel] iterations, and more fuel
    gives the same selection.  When it ends, the start pixel is selected
    if it is not transparent. *)
Theorem flood_fill_ends (bmp : Bitmap) (sel : list bool) (x y : Z) :
  length sel = (bmp_w bmp * bmp_h bmp)%nat ->
  (0 <= x < Z.of_nat (bmp_w bmp))%Z ->
  (0 <= y < Z.of_nat (bmp_h bmp))%Z ->
  exists sel',
    (forall fuel, (enough_fuel bmp <= fuel)%nat ->
       sprite_bmp_flood_fill bmp fuel sel x y = Selection sel') /\
    (transparent bmp (Z.to_nat x) (Z.to_nat y) = false ->
     selected bmp sel' (Z.to_nat x) (Z.to_nat y) = true).
Proof.
  intros Hl Hx Hy. unfold sprite_bmp_flood_fill.
  assert ((x <? 0)%Z || (Z.of_nat (bmp_w bmp) <? x)%Z = false) as ->.
  { apply orb_false_iff. split; apply Z.ltb_ge; lia. }
  assert ((y <? 0)%Z || (Z.of_nat (bmp_h bmp) <? y)%Z = false) as ->.
  { apply orb_false_iff. split; apply Z.ltb_ge; lia. }
  assert ((x =? Z.of_nat (bmp_w bmp))%Z || (y =? Z.of_nat (bmp_h bmp))%Z
          = false) as ->.
  { apply orb_false_iff. split; apply Z.eqb_neq; lia. }
  destruct (selected bmp sel (Z.to_nat x) (Z.to_nat y)) eqn:Hs.
  { exists sel. split; done. }
  destruct (transparent bmp (Z.to_nat x) (Z.to_nat y)) eqn:Ht.
  { exists sel. split; done. }
  assert (markable bmp (Z.to_nat x, Z.to_nat y)) as Hm.
  { split; [|done]. split; simpl; lia. }
  destruct (fill_loop_ends bmp (enough_fuel bmp) sel
              [(Z.to_nat x, Z.to_nat y)]) as [sel' E]; [done| |  |].
  { constructor; [by destruct Hm | constructor]. }
  { pose proof (unselected_length sel). unfold enough_fuel. simpl. nia. }
  exists sel'. split.
  - intros fuel Hf. by rewrite (fill_loop_more_fuel bmp _ fuel _ _ _ E Hf).
  - intros _. by eapply fill_loop_start.
Qed.

Lemma flood_fill_ends_witness :
  exists sel',
    (forall fuel, (FloodFill.enough_fuel Workshop.strip <= fuel)%nat ->
       FloodFill.sprite_bmp_flood_fill Workshop.strip fuel
         (replicate 6 false) 0 0 = FloodFill.Selection sel') /\
    (FloodFill.transparent Workshop.strip (Z.to_nat 0) (Z.to_nat 0) = false ->
     FloodFill.selected Workshop.strip sel' (Z.to_nat 0) (Z.to_nat 0) = true).
Proof.
  apply (FloodFillProps.flood_fill_ends Workshop.strip (replicate 6 false) 0 0).
  - reflexivity.
  - simpl. lia.
  - simpl. lia.
Defined.

End FloodFillProps.
